(** * Fractal-flame: the pixel accumulator, image buffer, sampling engine
      and parallel driver of [pixel.py], [fractal_image.py] and [main.py],
      embedded as Rocq functions, with the properties of the specification
      proved or refuted on them. *)

From Stdlib Require Import ZArith Lia List Bool.
From Stdlib Require Import SpecFloat PrimFloat FloatOps.
Import ListNotations.

Local Open Scope Z_scope.

(** ** Python runtime: exceptions *)

(** The built-in exceptions the modelled code can raise. *)
Inductive exn : Type :=
| ZeroDivisionError
| OverflowError
| ValueError
| IndexError.

(** Outcome of evaluating a Python expression. *)
Inductive result (A : Type) : Type :=
| Ok (a : A)
| Raise (e : exn).

Arguments Ok {A} a.
Arguments Raise {A} e.

Definition bind {A B : Type} (x : result A) (k : A -> result B) : result B :=
  match x with
  | Ok a => k a
  | Raise e => Raise e
  end.

Notation "x <- c ;; k" := (bind c (fun x => k))
  (at level 61, c at next level, right associativity).

Definition returns {A : Type} (x : result A) : Prop :=
  exists a, x = Ok a.

(** ** Python runtime: list indexing *)

Section Sequences.

Context {A : Type}.

Definition len (l : list A) : Z := Z.of_nat (length l).

(** Position denoted by the index [i] in a sequence of length [n]: a
    negative index counts from the end, and an index outside
    [-n .. n-1] raises [IndexError]. *)
Definition position (n i : Z) : result nat :=
  let j := if i <? 0 then i + n else i in
  if (0 <=? j) && (j <? n) then Ok (Z.to_nat j) else Raise IndexError.

(** [l[i]] *)
Definition getitem (l : list A) (i : Z) : result A :=
  k <- position (len l) i ;;
  match nth_error l k with
  | Some a => Ok a
  | None => Raise IndexError
  end.

(** The list [l] after the object at position [k] was mutated to [a]. *)
Fixpoint store (l : list A) (k : nat) (a : A) : list A :=
  match l, k with
  | [], _ => []
  | _ :: l', O => a :: l'
  | x :: l', S k' => x :: store l' k' a
  end.

End Sequences.

(** ** Python runtime: binary64 floats

    A Python [float] is an IEEE-754 binary64 number.  It is represented by
    the standard library's [spec_float]: a signed zero, a signed infinity,
    NaN, or [S754_finite s m e] of value [(-1)^s * m * 2^e].  Every
    arithmetic operation returns the exact result rounded to the nearest
    representable number, ties to the even mantissa.  The operations are
    run against Rocq's primitive floats further down. *)

Module F64.

Definition float : Type := spec_float.

Definition prec : Z := 53.
Definition emax : Z := 1024.
(** Exponent of the least positive (subnormal) number, [2^-1074]. *)
Definition emin : Z := 3 - emax - prec.

(** The fraction [a / b] written with the quantum [2^e] taken out:
    [a / b = (n / dn) * 2^e] for [(n, dn) = scaled a b e]. *)
Definition scaled (a b e : Z) : Z * Z :=
  if 0 <=? e then (a, b * 2 ^ e) else (a * 2 ^ (- e), b).

(** Exponent of the quantum of the binade that holds [a / b] ([0 < a],
    [0 < b]): the [e] with [2^52 <= a / b / 2^e < 2^53], and no less than
    [emin]. *)
Definition quantum (a b : Z) : Z :=
  let d := Z.log2 a - Z.log2 b - 52 in
  let '(n, dn) := scaled a b d in
  Z.max emin (if n / dn <? 2 ^ 52 then d - 1 else d).

(** [n / dn] rounded to the nearest integer, ties to even. *)
Definition nearest_even (n dn : Z) : Z :=
  let q := n / dn in
  match 2 * (n mod dn) ?= dn with
  | Lt => q
  | Gt => q + 1
  | Eq => if Z.even q then q else q + 1
  end.

(** The float of mantissa [m <= 2^53] and exponent [e]: a mantissa that
    rounding carried to [2^53] moves to the next binade, and an exponent
    above the largest one overflows to infinity. *)
Definition normalize (s : bool) (m e : Z) : float :=
  let '(m, e) := if m =? 2 ^ prec then (2 ^ (prec - 1), e + 1) else (m, e) in
  match m with
  | Zpos p => if e <=? emax - prec then S754_finite s p e else S754_infinity s
  | _ => S754_zero s
  end.

(** [(-1)^s * a / b] rounded to binary64, for [0 <= a] and [0 < b]. *)
Definition round_ratio (s : bool) (a b : Z) : float :=
  if a =? 0 then S754_zero s
  else
    let e := quantum a b in
    let '(n, dn) := scaled a b e in
    normalize s (nearest_even n dn) e.

(** [(-1)^s * m * 2^e] rounded to binary64, for [0 <= m]. *)
Definition round_dyadic (s : bool) (m e : Z) : float :=
  if 0 <=? e then round_ratio s (m * 2 ^ e) 1 else round_ratio s m (2 ^ (- e)).

(** The finite numbers of the format: a mantissa of exactly 53 bits and an
    exponent in [emin .. emax - prec], or a shorter (subnormal) mantissa at
    [emin].  Every float a Python program holds is one of these. *)
Definition valid (x : float) : bool :=
  match x with
  | S754_finite _ m e =>
      (Z.pos m <? 2 ^ prec) && (emin <=? e) && (e <=? emax - prec)
      && ((e =? emin) || (2 ^ (prec - 1) <=? Z.pos m))
  | _ => true
  end.

(** [0 <= x < 1], the range of [random.random()]. *)
Definition in_unit_interval (x : float) : bool :=
  match x with
  | S754_zero _ => true
  | S754_finite false m e => (e <? 0) && (Z.pos m <? 2 ^ (- e))
  | _ => false
  end.

Definition is_nan (x : float) : bool :=
  match x with S754_nan => true | _ => false end.

Definition is_inf (x : float) : bool :=
  match x with S754_infinity _ => true | _ => false end.

Definition is_zero (x : float) : bool :=
  match x with S754_zero _ => true | _ => false end.

Definition is_finite (x : float) : bool :=
  match x with S754_zero _ | S754_finite _ _ _ => true | _ => false end.

Definition neg (x : float) : float :=
  match x with
  | S754_nan => S754_nan
  | S754_zero s => S754_zero (negb s)
  | S754_infinity s => S754_infinity (negb s)
  | S754_finite s m e => S754_finite (negb s) m e
  end.

Definition abs (x : float) : float :=
  match x with
  | S754_nan => S754_nan
  | S754_zero _ => S754_zero false
  | S754_infinity _ => S754_infinity false
  | S754_finite _ m e => S754_finite false m e
  end.

Definition mul (x y : float) : float :=
  match x, y with
  | S754_nan, _ | _, S754_nan => S754_nan
  | S754_infinity _, S754_zero _ | S754_zero _, S754_infinity _ => S754_nan
  | S754_infinity sx, S754_infinity sy
  | S754_infinity sx, S754_finite sy _ _
  | S754_finite sx _ _, S754_infinity sy => S754_infinity (xorb sx sy)
  | S754_zero sx, S754_zero sy
  | S754_zero sx, S754_finite sy _ _
  | S754_finite sx _ _, S754_zero sy => S754_zero (xorb sx sy)
  | S754_finite sx mx ex, S754_finite sy my ey =>
      round_dyadic (xorb sx sy) (Z.pos mx * Z.pos my) (ex + ey)
  end.

(** IEEE division; Python raises before it divides by a zero. *)
Definition div (x y : float) : float :=
  match x, y with
  | S754_nan, _ | _, S754_nan => S754_nan
  | S754_infinity _, S754_infinity _ | S754_zero _, S754_zero _ => S754_nan
  | S754_infinity sx, S754_zero sy
  | S754_infinity sx, S754_finite sy _ _
  | S754_finite sx _ _, S754_zero sy => S754_infinity (xorb sx sy)
  | S754_zero sx, S754_infinity sy
  | S754_zero sx, S754_finite sy _ _
  | S754_finite sx _ _, S754_infinity sy => S754_zero (xorb sx sy)
  | S754_finite sx mx ex, S754_finite sy my ey =>
      round_ratio (xorb sx sy)
        (Z.pos mx * 2 ^ Z.max 0 (ex - ey)) (Z.pos my * 2 ^ Z.max 0 (ey - ex))
  end.

Definition signed (s : bool) (m : Z) : Z := if s then - m else m.

Definition add (x y : float) : float :=
  match x, y with
  | S754_nan, _ | _, S754_nan => S754_nan
  | S754_infinity sx, S754_infinity sy =>
      if Bool.eqb sx sy then x else S754_nan
  | S754_infinity _, _ => x
  | _, S754_infinity _ => y
  | S754_zero sx, S754_zero sy => S754_zero (sx && sy)
  | S754_zero _, _ => y
  | _, S754_zero _ => x
  | S754_finite sx mx ex, S754_finite sy my ey =>
      let e := Z.min ex ey in
      let m := signed sx (Z.pos mx * 2 ^ (ex - e))
               + signed sy (Z.pos my * 2 ^ (ey - e)) in
      round_dyadic (m <? 0) (Z.abs m) e
  end.

Definition sub (x y : float) : float := add x (neg y).

(** Python's [==] on two floats: NaN equals nothing, the two zeros are
    equal. *)
Definition eqb (x y : float) : bool :=
  match x, y with
  | S754_zero _, S754_zero _ => true
  | S754_infinity sx, S754_infinity sy => Bool.eqb sx sy
  | S754_finite sx mx ex, S754_finite sy my ey =>
      Bool.eqb sx sy && (Z.pos mx * 2 ^ (ex - Z.min ex ey)
                         =? Z.pos my * 2 ^ (ey - Z.min ex ey))
  | _, _ => false
  end.

(** [float(z)] for a Python int: correctly rounded, [OverflowError] when
    [z] is too large. *)
Definition of_int (z : Z) : result float :=
  let f := round_ratio (z <? 0) (Z.abs z) 1 in
  if is_inf f then Raise OverflowError else Ok f.

(** [int(x)]: truncation toward zero; NaN and the infinities raise. *)
Definition to_int (x : float) : result Z :=
  match x with
  | S754_nan => Raise ValueError
  | S754_infinity _ => Raise OverflowError
  | S754_zero _ => Ok 0
  | S754_finite s m e => Ok (signed s (Z.shiftl (Z.pos m) e))
  end.

(** [a / b] for two Python ints: the exact quotient, correctly rounded. *)
Definition int_truediv (a b : Z) : result float :=
  if b =? 0 then Raise ZeroDivisionError
  else
    let f := round_ratio (xorb (a <? 0) (b <? 0)) (Z.abs a) (Z.abs b) in
    if is_inf f then Raise OverflowError else Ok f.

(** [x ** 2] for a float, taken as the correctly rounded square: a finite
    operand whose square overflows raises [OverflowError]; an infinite one
    gives infinity, and a square that underflows is zero. *)
Definition square (x : float) : result float :=
  let f := mul x x in
  if is_finite x && is_inf f then Raise OverflowError else Ok f.

End F64.

(** ** pixel.py *)

Module Pixel.

Record t : Type := mk { r : Z; g : Z; b : Z; hit_count : Z }.

(** [Pixel()]: every field defaults to zero. *)
Definition init : t := mk 0 0 0 0.

Definition set_r (v : Z) (self : t) : t := mk v (g self) (b self) (hit_count self).
Definition set_g (v : Z) (self : t) : t := mk (r self) v (b self) (hit_count self).
Definition set_b (v : Z) (self : t) : t := mk (r self) (g self) v (hit_count self).
Definition set_hit_count (v : Z) (self : t) : t := mk (r self) (g self) (b self) v.

(** One right-hand side of [mix_color]:
    [int((old * hit_count + c * weight) / (hit_count + weight))]. *)
Definition mixed (old hits c weight : Z) : result Z :=
  q <- F64.int_truediv (old * hits + c * weight) (hits + weight) ;;
  F64.to_int q.

(** [mix_color(self, color, weight)] mutates [self] in place: the result is
    the pixel after the call together with [Ok tt] when the call returned
    and [Raise e] when a statement raised [e] (the assignments made before
    it stay). *)
Definition mix_color (self : t) (color : Z * Z * Z) (weight : Z)
  : t * result unit :=
  let '(c0, c1, c2) := color in
  match mixed (r self) (hit_count self) c0 weight with
  | Raise e => (self, Raise e)
  | Ok v =>
      let self := set_r v self in
      match mixed (g self) (hit_count self) c1 weight with
      | Raise e => (self, Raise e)
      | Ok v =>
          let self := set_g v self in
          match mixed (b self) (hit_count self) c2 weight with
          | Raise e => (self, Raise e)
          | Ok v =>
              let self := set_b v self in
              (set_hit_count (hit_count self + 1) self, Ok tt)
          end
      end
  end.

(** Successive calls [self.mix_color(c)] for the colours of a list, with
    the default weight; the first exception ends them. *)
Fixpoint mix_each (self : t) (colors : list (Z * Z * Z)) : t * result unit :=
  match colors with
  | [] => (self, Ok tt)
  | c :: cs =>
      match mix_color self c 1 with
      | (self', Ok _) => mix_each self' cs
      | (self', Raise e) => (self', Raise e)
      end
  end.

(** A colour whose channels are within [0, 255]. *)
Definition color_ok (color : Z * Z * Z) : Prop :=
  let '(c0, c1, c2) := color in
  0 <= c0 <= 255 /\ 0 <= c1 <= 255 /\ 0 <= c2 <= 255.

(** A pixel whose channels are within [0, 255]. *)
Definition in_range (self : t) : Prop :=
  0 <= r self <= 255 /\ 0 <= g self <= 255 /\ 0 <= b self <= 255.

End Pixel.

(** ** fractal_image.py *)

Module FractalImage.

(** The lock is held for the whole of [add_hit] and released when it
    leaves, so a call is one atomic step on the fields below. *)
Record t : Type := mk { width : Z; height : Z; data : list (list Pixel.t) }.

(** [FractalImage(width, height)]: [height] rows of [width] fresh pixels,
    each a distinct object. *)
Definition init (width height : Z) : t :=
  mk width height
     (repeat (repeat Pixel.init (Z.to_nat width)) (Z.to_nat height)).

Definition contains (self : t) (x y : Z) : bool :=
  ((0 <=? x) && (x <? width self)) && ((0 <=? y) && (y <? height self)).

Definition set_data (d : list (list Pixel.t)) (self : t) : t :=
  mk (width self) (height self) d.

(** [add_hit(self, x, y, color)]: the image after the call, and whether the
    call returned or raised. *)
Definition add_hit (self : t) (x y : Z) (color : Z * Z * Z) : t * result unit :=
  if contains self x y then
    match getitem (data self) y with
    | Raise e => (self, Raise e)
    | Ok row =>
        match getitem row x with
        | Raise e => (self, Raise e)
        | Ok pixel =>
            let '(pixel', res) := Pixel.mix_color pixel color 1 in
            (set_data (store (data self) (Z.to_nat y)
                         (store row (Z.to_nat x) pixel')) self, res)
        end
    end
  else (self, Ok tt).

(** The pixel at column [x] of row [y], if there is one. *)
Definition pixel_at (self : t) (x y : nat) : option Pixel.t :=
  match nth_error (data self) y with
  | Some row => nth_error row x
  | None => None
  end.

(** The shape [__init__] builds and [add_hit] keeps: [height] rows of
    [width] pixels. *)
Definition well_formed (self : t) : Prop :=
  0 <= width self /\ 0 <= height self /\
  length (data self) = Z.to_nat (height self) /\
  Forall (fun row => length row = Z.to_nat (width self)) (data self).

End FractalImage.

(** ** Python runtime: numbers

    A coordinate is whatever number the caller stored: [main] builds its
    world rectangle from the floats [-1.5] and the ints [3], and
    [spherical] returns [Point(0, 0)] with two ints.  Arithmetic on two
    ints is exact; as soon as one operand is a float the other is converted
    and the operation is the float one. *)

Module Num.

Inductive t : Type :=
| Int (z : Z)
| Float (f : F64.float).

(** The conversion an int operand goes through next to a float one. *)
Definition to_float (a : t) : result F64.float :=
  match a with
  | Int z => F64.of_int z
  | Float f => Ok f
  end.

Definition arith (iop : Z -> Z -> Z) (fop : F64.float -> F64.float -> F64.float)
    (a b : t) : result t :=
  match a, b with
  | Int x, Int y => Ok (Int (iop x y))
  | _, _ =>
      x <- to_float a ;;
      y <- to_float b ;;
      Ok (Float (fop x y))
  end.

Definition add : t -> t -> result t := arith Z.add F64.add.
Definition sub : t -> t -> result t := arith Z.sub F64.sub.
Definition mul : t -> t -> result t := arith Z.mul F64.mul.

(** [a / b] *)
Definition truediv (a b : t) : result t :=
  match a, b with
  | Int x, Int y => q <- F64.int_truediv x y ;; Ok (Float q)
  | _, _ =>
      x <- to_float a ;;
      y <- to_float b ;;
      if F64.is_zero y then Raise ZeroDivisionError else Ok (Float (F64.div x y))
  end.

(** [a ** 2] *)
Definition square (a : t) : result t :=
  match a with
  | Int x => Ok (Int (x * x))
  | Float f => q <- F64.square f ;; Ok (Float q)
  end.

(** [abs(a)] *)
Definition abs (a : t) : t :=
  match a with
  | Int x => Int (Z.abs x)
  | Float f => Float (F64.abs f)
  end.

(** [a == 0] *)
Definition is_zero (a : t) : bool :=
  match a with
  | Int x => x =? 0
  | Float f => F64.is_zero f
  end.

(** [int(a)] *)
Definition to_int (a : t) : result Z :=
  match a with
  | Int x => Ok x
  | Float f => F64.to_int f
  end.

(** Neither NaN nor an infinity. *)
Definition is_finite (a : t) : bool :=
  match a with
  | Int _ => true
  | Float f => F64.is_finite f
  end.

(** The wrapper of the [math] module around a libm function [f] that
    cannot overflow ([sin], [cos]): the argument is converted to a float,
    and a NaN or infinite result from an argument that was not one is a
    [ValueError] ("math domain error"). *)
Definition math_1 (f : F64.float -> F64.float) (a : t) : result t :=
  x <- to_float a ;;
  let r := f x in
  if F64.is_nan r && negb (F64.is_nan x) then Raise ValueError
  else if F64.is_inf r && F64.is_finite x then Raise ValueError
  else Ok (Float r).

End Num.

(** Float literals of the source. *)
Definition f_zero : F64.float := S754_zero false.
Definition f_one : F64.float := S754_finite false 4503599627370496 (-52).
Definition f_minus_1_5 : F64.float := S754_finite true 6755399441055744 (-52).
(** [math.pi] *)
Definition pi : F64.float := S754_finite false 7074237752028440 (-51).

(** Floats of the examples: [1e200], [-1.75] and the float just below
    [1.0], [1 - 2^-53]. *)
Definition f_1e200 : F64.float := S754_finite false 5883593420661338 612.
Definition f_minus_1_75 : F64.float := S754_finite true 7881299347898368 (-52).
Definition f_below_one : F64.float := S754_finite false 9007199254740991 (-53).

(** ** point.py, rect.py *)

Module Point.

Record t : Type := mk { x : Num.t; y : Num.t }.

(** Both coordinates are numbers: neither NaN nor an infinity. *)
Definition defined (p : t) : bool :=
  Num.is_finite (x p) && Num.is_finite (y p).

End Point.

Module Rect.

Record t : Type := mk { x : Num.t; y : Num.t; width : Num.t; height : Num.t }.

End Rect.

(** ** main.py: the transformations *)

Definition spherical (point : Point.t) : result Point.t :=
  x2 <- Num.square (Point.x point) ;;
  y2 <- Num.square (Point.y point) ;;
  r2 <- Num.add x2 y2 ;;
  if Num.is_zero r2 then Ok (Point.mk (Num.Int 0) (Num.Int 0))
  else
    x' <- Num.truediv (Point.x point) r2 ;;
    y' <- Num.truediv (Point.y point) r2 ;;
    Ok (Point.mk x' y').

Definition diamond (point : Point.t) : result Point.t :=
  Ok (Point.mk (Num.abs (Point.x point)) (Num.abs (Point.y point))).

Definition linear (point : Point.t) : result Point.t :=
  Ok point.

(** [math.sin] and [math.cos] call the platform's libm, which is not part
    of the repository: the two functions are parameters. *)
Section Trigonometric.

Variables libm_sin libm_cos : F64.float -> F64.float.

Definition sin : Num.t -> result Num.t := Num.math_1 libm_sin.
Definition cos : Num.t -> result Num.t := Num.math_1 libm_cos.

Definition sinusoidal (point : Point.t) : result Point.t :=
  x' <- sin (Point.x point) ;;
  y' <- sin (Point.y point) ;;
  Ok (Point.mk x' y').

Definition fish (point : Point.t) : result Point.t :=
  sy <- sin (Point.y point) ;;
  x' <- Num.add (Point.x point) sy ;;
  sx <- sin (Point.x point) ;;
  y' <- Num.add (Point.y point) sx ;;
  Ok (Point.mk x' y').

Definition swirl (point : Point.t) : result Point.t :=
  x2 <- Num.square (Point.x point) ;;
  y2 <- Num.square (Point.y point) ;;
  r2 <- Num.add x2 y2 ;;
  s1 <- sin r2 ;;
  a <- Num.mul (Point.x point) s1 ;;
  c1 <- cos r2 ;;
  b <- Num.mul (Point.y point) c1 ;;
  x' <- Num.sub a b ;;
  c2 <- cos r2 ;;
  c <- Num.mul (Point.x point) c2 ;;
  s2 <- sin r2 ;;
  d <- Num.mul (Point.y point) s2 ;;
  y' <- Num.add c d ;;
  Ok (Point.mk x' y').

Definition TRANSFORMATIONS : list (Point.t -> result Point.t) :=
  [spherical; sinusoidal; swirl; linear; diamond; fish].

End Trigonometric.

(** ** main.py: the coordinate mapping *)

(** [int((p - origin) / extent * size)] *)
Definition pixel_index (p origin extent : Num.t) (size : Z) : result Z :=
  d <- Num.sub p origin ;;
  q <- Num.truediv d extent ;;
  v <- Num.mul q (Num.Int size) ;;
  Num.to_int v.

Definition map_to_pixel (rect : Rect.t) (point : Point.t) (image : FractalImage.t)
  : result (option (Z * Z)) :=
  x <- pixel_index (Point.x point) (Rect.x rect) (Rect.width rect)
         (FractalImage.width image) ;;
  y <- pixel_index (Point.y point) (Rect.y rect) (Rect.height rect)
         (FractalImage.height image) ;;
  if FractalImage.contains image x y then Ok (Some (x, y)) else Ok None.

(** ** main.py: the sampling engine

    The engine mutates the image it was given and draws from the [random]
    module, whose generator is one object shared by the whole process.  Both
    are threaded through as state; an exception leaves the state as it was
    when it was raised. *)

Section Engine.

Variables libm_sin libm_cos : F64.float -> F64.float.

(** The generator of the [random] module is not part of the repository: its
    state is a parameter, with [random.random()] and the index draw
    [_randbelow(n)] behind [random.choice]. *)
Variable rng : Type.
Variable next_random : rng -> F64.float * rng.
Variable next_below : Z -> rng -> Z * rng.

Record state : Type := mkState { image : FractalImage.t; gen : rng }.

Definition M (A : Type) : Type := state -> state * result A.

Definition ret {A : Type} (a : A) : M A := fun st => (st, Ok a).

Definition mbind {A B : Type} (c : M A) (k : A -> M B) : M B :=
  fun st =>
    match c st with
    | (st', Ok a) => k a st'
    | (st', Raise e) => (st', Raise e)
    end.

Notation "x <~ c ;; k" := (mbind c (fun x => k))
  (at level 61, c at next level, right associativity).

(** An expression that touches no state. *)
Definition pure {A : Type} (x : result A) : M A := fun st => (st, x).

(** [random.random()] *)
Definition random : M Num.t :=
  fun st => let '(u, g') := next_random (gen st) in
            (mkState (image st) g', Ok (Num.Float u)).

(** [random.uniform(a, b)], that is [a + (b - a) * random()]. *)
Definition uniform (a b : Num.t) : M Num.t :=
  d <~ pure (Num.sub b a) ;;
  u <~ random ;;
  pure (p <- Num.mul d u ;; Num.add a p).

(** [random.choice(seq)] *)
Definition choice {A : Type} (seq : list A) : M A :=
  fun st =>
    if len seq =? 0 then (st, Raise IndexError)
    else let '(i, g') := next_below (len seq) (gen st) in
         (mkState (image st) g', getitem seq i).

Definition random_point_in_rect (rect : Rect.t) : M Point.t :=
  bx <~ pure (Num.add (Rect.x rect) (Rect.width rect)) ;;
  x <~ uniform (Rect.x rect) bx ;;
  by_ <~ pure (Num.add (Rect.y rect) (Rect.height rect)) ;;
  y <~ uniform (Rect.y rect) by_ ;;
  ret (Point.mk x y).

(** [for i in range(n)] with the loop-carried value [a]; the first
    exception ends the loop. *)
Fixpoint for_range {A : Type} (n : nat) (i : Z) (body : Z -> A -> M A) (a : A)
  : M A :=
  match n with
  | O => ret a
  | S n' => a' <~ body i a ;; for_range n' (i + 1) body a'
  end.

Definition range {A : Type} (n : Z) (body : Z -> A -> M A) (a : A) : M A :=
  for_range (Z.to_nat n) 0 body a.

(** [int(255 * random.random())] *)
Definition channel_of (u : Num.t) : result Z :=
  v <- Num.mul (Num.Int 255) u ;; Num.to_int v.

Definition random_channel : M Z :=
  u <~ random ;; pure (channel_of u).

(** [image.add_hit(x, y, color)] on the image of the state. *)
Definition add_hit (x y : Z) (color : Z * Z * Z) : M unit :=
  fun st => let '(img, res) := FractalImage.add_hit (image st) x y color in
            (mkState img (gen st), res).

(** Lines 134-137: map a point to its pixel and, when there is one, register
    a hit of a random colour. *)
Definition plot (world : Rect.t) (p : Point.t) : M unit :=
  pixel_coords <~ (fun st => (st, map_to_pixel world p (image st))) ;;
  match pixel_coords with
  | Some (px, py) =>
      c0 <~ random_channel ;;
      c1 <~ random_channel ;;
      c2 <~ random_channel ;;
      add_hit px py (c0, c1, c2)
  | None => ret tt
  end.

(** Lines 128-132: the copy of [point] turned by [2 * pi * s / symmetry]. *)
Definition rotated (point : Point.t) (s symmetry : Z) : result Point.t :=
  t1 <- Num.mul (Num.Int 2) (Num.Float pi) ;;
  t2 <- Num.mul t1 (Num.Int s) ;;
  theta <- Num.truediv t2 (Num.Int symmetry) ;;
  c1 <- cos libm_cos theta ;;
  a <- Num.mul (Point.x point) c1 ;;
  s1 <- sin libm_sin theta ;;
  b <- Num.mul (Point.y point) s1 ;;
  x' <- Num.sub a b ;;
  s2 <- sin libm_sin theta ;;
  c <- Num.mul (Point.x point) s2 ;;
  c2 <- cos libm_cos theta ;;
  d <- Num.mul (Point.y point) c2 ;;
  y' <- Num.add c d ;;
  Ok (Point.mk x' y').

(** Body of the loop over [s]. *)
Definition plot_rotated (world : Rect.t) (symmetry : Z) (point : Point.t) (s : Z)
  : M unit :=
  rotated_point <~ pure (rotated point s symmetry) ;;
  plot world rotated_point.

(** Body of the loop over the iterations of one sample. *)
Definition iteration (world : Rect.t)
    (transformations : list (Point.t -> result Point.t)) (symmetry : Z)
    (point : Point.t) : M Point.t :=
  transform <~ choice transformations ;;
  point <~ pure (transform point) ;;
  _ <~ range symmetry (fun s _ => plot_rotated world symmetry point s) tt ;;
  ret point.

(** Body of the loop over the samples. *)
Definition sample (world : Rect.t)
    (transformations : list (Point.t -> result Point.t))
    (iter_per_sample symmetry : Z) : M unit :=
  point <~ random_point_in_rect world ;;
  _ <~ range iter_per_sample
         (fun _ p => iteration world transformations symmetry p) point ;;
  ret tt.

Definition generate_fractal (world : Rect.t)
    (transformations : list (Point.t -> result Point.t))
    (samples iter_per_sample symmetry : Z) : M unit :=
  range samples
    (fun _ _ => sample world transformations iter_per_sample symmetry) tt.

End Engine.

(** ** main.py: the parallel driver

    [parallel_generate_fractal] submits [num_threads] calls of
    [generate_fractal] to a thread pool, waits for the result of each future
    in turn, and leaves the [with] block, which waits for every worker.  The
    workers share the image and the generator.  The pool is a transition
    system: a worker step runs one sample of one running future on the
    shared state (the interleaving of the workers is arbitrary), a driver
    step moves the driver through its statements, and a blocking call is a
    step that is enabled only once what it waits for has happened. *)

Section Driver.

Variables libm_sin libm_cos : F64.float -> F64.float.
Variable rng : Type.
Variable next_random : rng -> F64.float * rng.
Variable next_below : Z -> rng -> Z * rng.

Variable world : Rect.t.
Variable transformations : list (Point.t -> result Point.t).
Variables iter_per_sample symmetry : Z.

(** Where the call of [generate_fractal] behind a future stands: in its
    loop with [todo] samples to go, returned, or ended by an exception. *)
Inductive progress : Type :=
| Running (todo : nat)
| Finished
| Failed (e : exn).

(** A future: the [samples] argument of its call, the samples the call has
    completed, and its progress. *)
Record future : Type :=
  mkFuture { assigned : Z; processed : nat; status : progress }.

(** The statement the driver is at: [k] calls of [submit] to go, the call
    of [result()] on future [i], the exit of the [with] block that will
    end in [o], and the end of the function. *)
Inductive driver : Type :=
| Submitting (k : nat)
| Joining (i : nat)
| Exiting (o : result unit)
| Done (o : result unit).

(** The pool: the shared state, the futures submitted so far, the
    statement of the driver and its local [samples_per_thread]. *)
Record pool : Type :=
  mkPool { shared : state rng; futures : list future; pc : driver;
           samples_per_thread : Z }.

Definition is_running (f : future) : bool :=
  match status f with Running _ => true | _ => false end.

(** One step of the worker behind [f]: the next sample of its loop, or the
    return from it. *)
Definition work (s : state rng) (f : future) : state rng * future :=
  match status f with
  | Running (S todo) =>
      match sample libm_sin libm_cos rng next_random next_below
              world transformations iter_per_sample symmetry s with
      | (s', Ok _) => (s', mkFuture (assigned f) (S (processed f)) (Running todo))
      | (s', Raise e) => (s', mkFuture (assigned f) (processed f) (Failed e))
      end
  | Running O => (s, mkFuture (assigned f) (processed f) Finished)
  | _ => (s, f)
  end.

(** [executor.submit(generate_fractal, ..., samples_per_thread, ...)] *)
Definition submit (samples_per_thread : Z) : future :=
  mkFuture samples_per_thread 0 (Running (Z.to_nat samples_per_thread)).

Inductive step : pool -> pool -> Prop :=
| step_work p i f :
    nth_error (futures p) i = Some f ->
    is_running f = true ->
    step p
      (mkPool (fst (work (shared p) f))
              (store (futures p) i (snd (work (shared p) f))) (pc p)
              (samples_per_thread p))
| step_submit p k :
    pc p = Submitting (S k) ->
    step p
      (mkPool (shared p) (futures p ++ [submit (samples_per_thread p)])
              (Submitting k) (samples_per_thread p))
| step_submitted p :
    pc p = Submitting O ->
    step p (mkPool (shared p) (futures p) (Joining O) (samples_per_thread p))
| step_result p i f :
    pc p = Joining i ->
    nth_error (futures p) i = Some f ->
    status f = Finished ->
    step p (mkPool (shared p) (futures p) (Joining (S i)) (samples_per_thread p))
| step_result_raises p i f e :
    pc p = Joining i ->
    nth_error (futures p) i = Some f ->
    status f = Failed e ->
    step p
      (mkPool (shared p) (futures p) (Exiting (Raise e)) (samples_per_thread p))
| step_joined p i :
    pc p = Joining i ->
    nth_error (futures p) i = None ->
    step p (mkPool (shared p) (futures p) (Exiting (Ok tt)) (samples_per_thread p))
| step_exit p o :
    pc p = Exiting o ->
    existsb is_running (futures p) = false ->
    step p (mkPool (shared p) (futures p) (Done o) (samples_per_thread p)).

(** Zero or more steps. *)
Inductive steps : pool -> pool -> Prop :=
| steps_refl p : steps p p
| steps_step p q r : step p q -> steps q r -> steps p r.

(** The pool when [parallel_generate_fractal(image, world, transformations,
    samples, iter_per_sample, symmetry, num_threads)] starts on the state
    [s]: [samples_per_thread = samples // num_threads] is computed (a
    division by zero raises) and the executor is built (a negative
    [max_workers] raises). *)
Definition parallel_generate_fractal (samples num_threads : Z) (s : state rng)
  : pool :=
  if num_threads =? 0 then mkPool s [] (Done (Raise ZeroDivisionError)) 0
  else
    let samples_per_thread := samples / num_threads in
    if num_threads <? 0 then
      mkPool s [] (Done (Raise ValueError)) samples_per_thread
    else mkPool s [] (Submitting (Z.to_nat num_threads)) samples_per_thread.

(** Samples completed by all workers together. *)
Definition total_processed (p : pool) : nat :=
  fold_right (fun f n => (processed f + n)%nat) O (futures p).

End Driver.

(** ** main.py: what [main] calls *)

(** [Rect(-1.5, -1.5, 3, 3)] *)
Definition main_world : Rect.t :=
  Rect.mk (Num.Float f_minus_1_5) (Num.Float f_minus_1_5) (Num.Int 3) (Num.Int 3).

(** The symmetry [main] passes: the keyword argument [symmetry=1] of the
    parallel call and the default of the sequential one. *)
Definition main_symmetry : Z := 1.

Section Main.

Variables libm_sin libm_cos : F64.float -> F64.float.
Variable rng : Type.
Variable next_random : rng -> F64.float * rng.
Variable next_below : Z -> rng -> Z * rng.

(** [main] after [user_input] answered without multithreading. *)
Definition main_sequential (width height samples iter_per_sample : Z)
    (transformations : list (Point.t -> result Point.t)) (g : rng)
  : state rng * result unit :=
  generate_fractal libm_sin libm_cos rng next_random next_below
    main_world transformations samples iter_per_sample main_symmetry
    (mkState rng (FractalImage.init width height) g).

(** [main] after [user_input] answered with multithreading: the pool it
    starts. *)
Definition main_parallel (width height samples num_threads : Z) (g : rng)
  : pool rng :=
  parallel_generate_fractal rng samples num_threads
    (mkState rng (FractalImage.init width height) g).

End Main.

(** ** Definitions that follow the words of the specification *)

Module Spec.

(** "Computes, per channel, new = floor((old*hit_count + newChannel*weight)
    / (hit_count+weight)), then increments hit_count by 1". *)
Definition mix (p : Pixel.t) (color : Z * Z * Z) (weight : Z) : Pixel.t :=
  let '(c0, c1, c2) := color in
  let h := Pixel.hit_count p in
  Pixel.mk ((Pixel.r p * h + c0 * weight) / (h + weight))
           ((Pixel.g p * h + c1 * weight) / (h + weight))
           ((Pixel.b p * h + c2 * weight) / (h + weight))
           (h + 1).

(** [floor(x)] of a float, as [math.floor]. *)
Definition floor (x : F64.float) : result Z :=
  match x with
  | S754_nan => Raise ValueError
  | S754_infinity _ => Raise OverflowError
  | S754_zero _ => Ok 0
  | S754_finite s m e => Ok (Z.shiftl (F64.signed s (Z.pos m)) e)
  end.

Definition floor_num (a : Num.t) : result Z :=
  match a with
  | Num.Int x => Ok x
  | Num.Float f => floor f
  end.

(** "pixelX = floor((px - worldX)/worldWidth * imageWidth)" *)
Definition pixel_index (p origin extent : Num.t) (size : Z) : result Z :=
  d <- Num.sub p origin ;;
  q <- Num.truediv d extent ;;
  v <- Num.mul q (Num.Int size) ;;
  floor_num v.

(** The coordinate mapping with the floor of the specification: "if the
    resulting pixel lies within the image, register a hit". *)
Definition map_to_pixel (rect : Rect.t) (point : Point.t) (image : FractalImage.t)
  : result (option (Z * Z)) :=
  x <- pixel_index (Point.x point) (Rect.x rect) (Rect.width rect)
         (FractalImage.width image) ;;
  y <- pixel_index (Point.y point) (Rect.y rect) (Rect.height rect)
         (FractalImage.height image) ;;
  if FractalImage.contains image x y then Ok (Some (x, y)) else Ok None.

Section Unrotated.

Variable rng : Type.
Variable next_random : rng -> F64.float * rng.
Variable next_below : Z -> rng -> Z * rng.

(** The sampling loop "with the rotation step removed, plotting each
    trajectory point unmodified". *)
Definition iteration (world : Rect.t)
    (transformations : list (Point.t -> result Point.t)) (point : Point.t)
  : M rng Point.t :=
  mbind rng (choice rng next_below transformations) (fun transform =>
  mbind rng (pure rng (transform point)) (fun point =>
  mbind rng (plot rng next_random world point) (fun _ =>
  ret rng point))).

Definition sample (world : Rect.t)
    (transformations : list (Point.t -> result Point.t)) (iter_per_sample : Z)
  : M rng unit :=
  mbind rng (random_point_in_rect rng next_random world) (fun point =>
  mbind rng (range rng iter_per_sample
               (fun _ p => iteration world transformations p) point) (fun _ =>
  ret rng tt)).

Definition generate_fractal (world : Rect.t)
    (transformations : list (Point.t -> result Point.t))
    (samples iter_per_sample : Z) : M rng unit :=
  range rng samples (fun _ _ => sample world transformations iter_per_sample) tt.

End Unrotated.

End Spec.

Arguments mkState {rng} image gen.
Arguments image {rng} s.
Arguments gen {rng} s.
Arguments mkPool {rng} shared futures pc samples_per_thread.
Arguments shared {rng} p.
Arguments futures {rng} p.
Arguments pc {rng} p.
Arguments samples_per_thread {rng} p.
Arguments total_processed {rng} p.

(** ** Invariant and measure of the pool *)

Section DriverInvariant.

Variable rng : Type.

(** A future was given [samples_per_thread] samples, and the samples it has
    completed and those it still has to run add up to them. *)
Definition future_ok (samples_per_thread : Z) (f : future) : Prop :=
  assigned f = samples_per_thread /\
  match status f with
  | Running todo => (processed f + todo = Z.to_nat samples_per_thread)%nat
  | Finished => processed f = Z.to_nat samples_per_thread
  | Failed _ => (processed f < Z.to_nat samples_per_thread)%nat
  end.

Definition is_finished (f : future) : bool :=
  match status f with Finished => true | _ => false end.

(** What the statement the driver is at says about the futures. *)
Definition driver_ok (n : nat) (fs : list future) (d : driver) : Prop :=
  match d with
  | Submitting k => (length fs + k = n)%nat
  | Joining i =>
      length fs = n /\ (i <= n)%nat /\ forallb is_finished (firstn i fs) = true
  | Exiting (Ok _) | Done (Ok _) =>
      length fs = n /\ forallb is_finished fs = true
  | Exiting (Raise _) => length fs = n
  | Done (Raise _) => length fs = n /\ existsb is_running fs = false
  end.

Definition pool_ok (per_thread : Z) (n : nat) (p : pool rng) : Prop :=
  samples_per_thread p = per_thread /\
  Forall (future_ok per_thread) (futures p) /\
  driver_ok n (futures p) (pc p).

(** Steps a future can still take. *)
Definition future_cost (f : future) : nat :=
  match status f with
  | Running todo => S todo
  | _ => O
  end.

(** Steps the driver can still take, the steps of the futures it has yet to
    submit included. *)
Definition driver_cost (samples_per_thread : Z) (submitted : nat) (d : driver)
  : nat :=
  match d with
  | Submitting k =>
      (k * (Z.to_nat samples_per_thread + 2) + (submitted + k) + 3)%nat
  | Joining i => ((submitted - i) + 2)%nat
  | Exiting _ => 1%nat
  | Done _ => 0%nat
  end.

Definition pool_cost (p : pool rng) : nat :=
  (fold_right (fun f n => future_cost f + n) O (futures p)
   + driver_cost (samples_per_thread p) (length (futures p)) (pc p))%nat.

End DriverInvariant.

Arguments pool_ok {rng} per_thread n p.
Arguments pool_cost {rng} p.

(** A worker running alone: [fuel] steps of the future [f]. *)
Section Alone.

Variables libm_sin libm_cos : F64.float -> F64.float.
Variable rng : Type.
Variable next_random : rng -> F64.float * rng.
Variable next_below : Z -> rng -> Z * rng.
Variable world : Rect.t.
Variable transformations : list (Point.t -> result Point.t).
Variables iter_per_sample symmetry : Z.

Fixpoint work_alone (fuel : nat) (s : state rng) (f : future)
  : state rng * future :=
  match fuel with
  | O => (s, f)
  | S fuel' =>
      let '(s', f') := work libm_sin libm_cos rng next_random next_below
                         world transformations iter_per_sample symmetry s f in
      work_alone fuel' s' f'
  end.

End Alone.

(** The steps as functions, to run a schedule: [Drive] is the step of the
    driver (none while it is blocked), [Work i] a step of the worker behind
    future [i] (none once it has ended). *)
Inductive action : Type :=
| Work (i : nat)
| Drive.

Section Schedule.

Variables libm_sin libm_cos : F64.float -> F64.float.
Variable rng : Type.
Variable next_random : rng -> F64.float * rng.
Variable next_below : Z -> rng -> Z * rng.
Variable world : Rect.t.
Variable transformations : list (Point.t -> result Point.t).
Variables iter_per_sample symmetry : Z.

Definition drive (p : pool rng) : option (pool rng) :=
  let next d := Some (mkPool (shared p) (futures p) d (samples_per_thread p)) in
  match pc p with
  | Submitting (S k) =>
      Some (mkPool (shared p) (futures p ++ [submit (samples_per_thread p)])
              (Submitting k) (samples_per_thread p))
  | Submitting O => next (Joining O)
  | Joining i =>
      match nth_error (futures p) i with
      | None => next (Exiting (Ok tt))
      | Some f =>
          match status f with
          | Finished => next (Joining (S i))
          | Failed e => next (Exiting (Raise e))
          | Running _ => None
          end
      end
  | Exiting o => if existsb is_running (futures p) then None else next (Done o)
  | Done _ => None
  end.

Definition work_at (i : nat) (p : pool rng) : option (pool rng) :=
  match nth_error (futures p) i with
  | Some f =>
      if is_running f then
        let r := work libm_sin libm_cos rng next_random next_below
                   world transformations iter_per_sample symmetry (shared p) f in
        Some (mkPool (fst r) (store (futures p) i (snd r)) (pc p)
                (samples_per_thread p))
      else None
  | None => None
  end.

Fixpoint run (schedule : list action) (p : pool rng) : option (pool rng) :=
  match schedule with
  | [] => Some p
  | a :: rest =>
      match (match a with Work i => work_at i p | Drive => drive p end) with
      | Some q => run rest q
      | None => None
      end
  end.

End Schedule.

(** ** Well-formed numbers and outcomes that agree *)

(** A number a Python program can hold: any int, or a float of the
    format. *)
Definition valid_num (a : Num.t) : bool :=
  match a with
  | Num.Int _ => true
  | Num.Float f => F64.valid f
  end.

Definition valid_point (p : Point.t) : bool :=
  valid_num (Point.x p) && valid_num (Point.y p).

Definition valid_rect (rect : Rect.t) : bool :=
  valid_num (Rect.x rect) && valid_num (Rect.y rect)
  && valid_num (Rect.width rect) && valid_num (Rect.height rect).

(** The corner of the rectangle is given by two floats, as in the
    [Rect(-1.5, -1.5, 3, 3)] of [main]. *)
Definition float_origin (rect : Rect.t) : bool :=
  match Rect.x rect, Rect.y rect with
  | Num.Float _, Num.Float _ => true
  | _, _ => false
  end.

(** A transformation that returns well-formed points on well-formed
    points. *)
Definition preserves_valid (transform : Point.t -> result Point.t) : Prop :=
  forall p q, valid_point p = true -> transform p = Ok q -> valid_point q = true.

(** Two runs end alike: in the same state, and either both returned the same
    value, which satisfies [P], or both raised. *)
Definition same_outcome {A : Type} (P : A -> Prop) (x y : result A) : Prop :=
  match x, y with
  | Ok a, Ok b => a = b /\ P a
  | Raise _, Raise _ => True
  | _, _ => False
  end.

Definition equivalent {S A : Type} (P : A -> Prop) (x y : S * result A) : Prop :=
  fst x = fst y /\ same_outcome P (snd x) (snd y).

(** Two floats that are equal, or two zeros (of either sign). *)
Definition alike (x y : F64.float) : Prop :=
  x = y \/ (F64.is_zero x = true /\ F64.is_zero y = true).

(** NaN or an infinity. *)
Definition wild (x : F64.float) : Prop := F64.is_finite x = false.

(** Two results that are equal, or two exceptions. *)
Definition same_result {A : Type} (x y : result A) : Prop :=
  x = y \/ exists e1 e2, x = Raise e1 /\ y = Raise e2.

(** ** Probes for the float model

    The operations of [F64] are run next to Rocq's primitive binary64 floats
    on every pair of a list of normal, subnormal, extreme and special
    values. *)

Definition same_float (x y : F64.float) : bool :=
  match x, y with
  | S754_nan, S754_nan => true
  | S754_zero a, S754_zero b => Bool.eqb a b
  | S754_infinity a, S754_infinity b => Bool.eqb a b
  | S754_finite a m e, S754_finite b m' e' =>
      Bool.eqb a b && Pos.eqb m m' && Z.eqb e e'
  | _, _ => false
  end.

Definition probes : list F64.float :=
  [S754_zero false; S754_zero true; S754_nan;
   S754_infinity false; S754_infinity true;
   f_one; f_minus_1_5; f_below_one; pi;
   S754_finite false 1 (-1074);
   S754_finite true 9007199254740991 971].

Definition agree (op : F64.float -> F64.float -> F64.float)
    (prim : PrimFloat.float -> PrimFloat.float -> PrimFloat.float) : bool :=
  forallb (fun x =>
    forallb (fun y =>
      same_float (op x y) (Prim2SF (prim (SF2Prim x) (SF2Prim y)))) probes)
    probes.

(** ** Points with finite coordinates *)

(** A number that is finite as a float: a float that is neither NaN nor an
    infinity, or an int that a float can hold. *)
Definition finite_num (a : Num.t) : bool :=
  match Num.to_float a with
  | Ok f => F64.is_finite f
  | Raise _ => false
  end.

Definition finite_point (p : Point.t) : bool :=
  finite_num (Point.x p) && finite_num (Point.y p).

(** A transformation that returns points with finite coordinates on
    well-formed points with finite coordinates. *)
Definition preserves_finite (transform : Point.t -> result Point.t) : Prop :=
  forall p q, valid_point p = true -> finite_point p = true ->
              transform p = Ok q -> finite_point q = true.

(** ** pixel.py, fractal_image.py: counting hits *)

(** A pixel whose channels are within [0, bound] and whose count is not
    negative. *)
Definition pixel_ok (bound : Z) (p : Pixel.t) : Prop :=
  0 <= Pixel.r p <= bound /\ 0 <= Pixel.g p <= bound /\
  0 <= Pixel.b p <= bound /\ 0 <= Pixel.hit_count p.

(** A colour whose channels are within [0, bound]. *)
Definition color_within (bound : Z) (color : Z * Z * Z) : Prop :=
  let '(c0, c1, c2) := color in
  0 <= c0 <= bound /\ 0 <= c1 <= bound /\ 0 <= c2 <= bound.

(** An image of the shape of the constructor whose pixels are all within
    the bound. *)
Definition image_ok (bound : Z) (img : FractalImage.t) : Prop :=
  FractalImage.well_formed img /\
  Forall (Forall (pixel_ok bound)) (FractalImage.data img).

(** The hits the pixels of an image have counted, all together. *)
Definition row_hits (row : list Pixel.t) : Z :=
  fold_right (fun p n => Pixel.hit_count p + n) 0 row.

Definition hit_total (img : FractalImage.t) : Z :=
  fold_right (fun row n => row_hits row + n) 0 (FractalImage.data img).

(** Successive calls [image.add_hit(x, y, color)]; the first exception ends
    them. *)
Fixpoint add_hits (self : FractalImage.t) (hits : list (Z * Z * (Z * Z * Z)))
  : FractalImage.t * result unit :=
  match hits with
  | [] => (self, Ok tt)
  | (x, y, color) :: rest =>
      match FractalImage.add_hit self x y color with
      | (self', Ok _) => add_hits self' rest
      | (self', Raise e) => (self', Raise e)
      end
  end.

(** The calls of a list that fall inside the raster. *)
Definition hits_inside (self : FractalImage.t)
    (hits : list (Z * Z * (Z * Z * Z))) : Z :=
  len (filter (fun '(x, y, _) => FractalImage.contains self x y) hits).

(** ** fractal_image.py: [to_image]

    [Image.new] and the pixel access object are PIL's.  What the method
    does with them is a sequence of assignments [pixels[x, y] = (r, g, b)]:
    the model returns them in the order they are made.  [Image.new] refuses
    a negative size with [ValueError].  An assignment converts the first
    channel to a C [long long] and the other two to C [int]s, and raises
    [OverflowError] for a channel that does not fit; what is stored is each
    channel brought into 0..255. *)

(** [v] fits a signed C integer of [bits] bits. *)
Definition fits (bits v : Z) : bool :=
  (- 2 ^ (bits - 1) <=? v) && (v <? 2 ^ (bits - 1)).

(** [pixels[x, y] = color] *)
Definition assign (color : Z * Z * Z) : result unit :=
  let '(r, g, b) := color in
  if fits 64 r && fits 32 g && fits 32 b then Ok tt else Raise OverflowError.

(** A pixel whose colour the assignment takes. *)
Definition storable (p : Pixel.t) : bool :=
  fits 64 (Pixel.r p) && fits 32 (Pixel.g p) && fits 32 (Pixel.b p).

(** [for i in range(n)], collecting what each round produces. *)
Fixpoint collect {A : Type} (n : nat) (i : Z) (body : Z -> result (list A))
  : result (list A) :=
  match n with
  | O => Ok []
  | S n' =>
      l <- body i ;;
      rest <- collect n' (i + 1) body ;;
      Ok (l ++ rest)
  end.

Definition to_image (self : FractalImage.t)
  : result (list (Z * Z * (Z * Z * Z))) :=
  if (FractalImage.width self <? 0) || (FractalImage.height self <? 0)
  then Raise ValueError
  else
    collect (Z.to_nat (FractalImage.height self)) 0 (fun y =>
      collect (Z.to_nat (FractalImage.width self)) 0 (fun x =>
        row <- getitem (FractalImage.data self) y ;;
        pixel <- getitem row x ;;
        let color := (Pixel.r pixel, Pixel.g pixel, Pixel.b pixel) in
        _ <- assign color ;;
        Ok [(x, y, color)])).

(** ** main.py: what a computation of the engine does to the image *)

Section EngineEffects.

Context {rng : Type}.

(** From [s] to [s'] the image kept its size, stayed within the bound of
    the colours the engine draws, and counted at most [n] more hits. *)
Definition grows (n : Z) (s s' : state rng) : Prop :=
  image_ok 254 (image s') /\
  FractalImage.width (image s') = FractalImage.width (image s) /\
  FractalImage.height (image s') = FractalImage.height (image s) /\
  hit_total (image s) <= hit_total (image s') <= hit_total (image s) + n.

(** A computation that adds at most [n] hits, whether it returns or raises,
    and whose value satisfies [Q] when it returns. *)
Definition adds_at_most {A : Type} (n : Z) (Q : A -> Prop) (c : M rng A)
  : Prop :=
  forall st, image_ok 254 (image st) ->
    grows n st (fst (c st)) /\ forall a, snd (c st) = Ok a -> Q a.

(** A computation that leaves the image as it is. *)
Definition keeps_image {A : Type} (c : M rng A) : Prop :=
  forall st, image (fst (c st)) = image st.

End EngineEffects.

(** ** main.py: the pool of one worker *)

(** What the statement the driver is at says about the future of a pool
    of one worker. *)
Definition single_ok (f : future) (d : driver) : Prop :=
  match d with
  | Submitting O | Joining O => True
  | Submitting (S _) => False
  | Joining (S _) | Exiting (Ok _) | Done (Ok _) => status f = Finished
  | Exiting (Raise e) | Done (Raise e) => status f = Failed e
  end.

Section SingleWorker.

Variables libm_sin libm_cos : F64.float -> F64.float.
Variable rng : Type.
Variable next_random : rng -> F64.float * rng.
Variable next_below : Z -> rng -> Z * rng.
Variable world : Rect.t.
Variable transformations : list (Point.t -> result Point.t).
Variables iter_per_sample symmetry : Z.
Variable samples : Z.
Variable s : state rng.

(** The pool of one worker started on [s]: nothing is submitted yet, or the
    one worker, left to run, ends where a worker started on [s] ends. *)
Definition single (p : pool rng) : Prop :=
  samples_per_thread p = samples /\
  match futures p with
  | [] => shared p = s /\ pc p = Submitting 1
  | [f] =>
      single_ok f (pc p) /\
      exists fuel,
        work_alone libm_sin libm_cos rng next_random next_below world
          transformations iter_per_sample symmetry fuel (shared p) f
        = work_alone libm_sin libm_cos rng next_random next_below world
            transformations iter_per_sample symmetry
            (S (Z.to_nat samples)) s (submit samples)
  | _ => False
  end.

End SingleWorker.

(** The assignment [to_image] makes for the pixel at row [y], column [x],
    if there is one. *)
Definition assigned_at (self : FractalImage.t) (x y : Z)
  : list (Z * Z * (Z * Z * Z)) :=
  match FractalImage.pixel_at self (Z.to_nat x) (Z.to_nat y) with
  | Some pixel => [(x, y, (Pixel.r pixel, Pixel.g pixel, Pixel.b pixel))]
  | None => []
  end.

(** ** main.py: reading the settings

    [input()] returns the next line of the standard input without its
    newline, and raises [EOFError] when there is none.  The lines still to
    be read are threaded through; what the program prints is left out. *)

From Stdlib Require String Ascii.

Inductive outcome (A : Type) : Type :=
| Returned (a : A) (rest : list String.string)
| Raised (e : exn) (rest : list String.string)
| EndOfInput.

Arguments Returned {A} a rest.
Arguments Raised {A} e rest.
Arguments EndOfInput {A}.

Definition obind {A B : Type} (o : outcome A)
    (k : A -> list String.string -> outcome B) : outcome B :=
  match o with
  | Returned a rest => k a rest
  | Raised e rest => Raised e rest
  | EndOfInput => EndOfInput
  end.

(** [min_value is not None and user_input < min_value] and
    [max_value is not None and user_input > max_value] *)
Definition below (min_value : option Z) (v : Z) : bool :=
  match min_value with Some m => v <? m | None => false end.

Definition above (max_value : option Z) (v : Z) : bool :=
  match max_value with Some m => m <? v | None => false end.

(** [get_valid_input(prompt, value_type, min_value, max_value)]: the loop
    reads a line at each round; a [ValueError] of [value_type] and a value
    out of range start the next round, any other exception leaves. *)
Fixpoint get_valid_input (value_type : String.string -> result Z)
    (min_value max_value : option Z) (lines : list String.string)
  : outcome Z :=
  match lines with
  | [] => EndOfInput
  | line :: rest =>
      match value_type line with
      | Ok user_input =>
          if below min_value user_input || above max_value user_input
          then get_valid_input value_type min_value max_value rest
          else Returned user_input rest
      | Raise ValueError =>
          get_valid_input value_type min_value max_value rest
      | Raise e => Raised e rest
      end
  end.

(** A line that makes the loop of [get_valid_input] ask again: not a value
    ([ValueError]), or a value out of range. *)
Definition rejected (value_type : String.string -> result Z)
    (min_value max_value : option Z) (line : String.string) : Prop :=
  value_type line = Raise ValueError \/
  exists v, value_type line = Ok v /\
            below min_value v || above max_value v = true.

(** [","] and ["y"] *)
Definition comma : Ascii.ascii := Ascii.ascii_of_nat 44.
Definition yes : String.string :=
  String.String (Ascii.ascii_of_nat 121) String.EmptyString.

(** [s.split(",")] *)
Fixpoint split_comma (s : String.string) : list String.string :=
  match s with
  | String.EmptyString => [String.EmptyString]
  | String.String c s' =>
      if Ascii.eqb c comma then String.EmptyString :: split_comma s'
      else match split_comma s' with
           | piece :: pieces => String.String c piece :: pieces
           | [] => [String.String c String.EmptyString]
           end
  end.

Module Settings.

(** The tuple [user_input] returns. *)
Record t : Type :=
  mk { width : Z; height : Z; samples : Z; iter_per_sample : Z;
       transformations : list (Point.t -> result Point.t);
       use_multithreading : bool; num_threads : Z }.

End Settings.

Section Input.

Variables libm_sin libm_cos : F64.float -> F64.float.

(** [int(s)], [s.strip()] and [s.lower()] on strings are the
    interpreter's. *)
Variable int_of_string : String.string -> result Z.
Variable strip : String.string -> String.string.
Variable lower : String.string -> String.string.

(** [[int(x.strip()) for x in selected_transforms]] *)
Fixpoint int_each (pieces : list String.string) : result (list Z) :=
  match pieces with
  | [] => Ok []
  | x :: xs =>
      v <- int_of_string (strip x) ;;
      vs <- int_each xs ;;
      Ok (v :: vs)
  end.

(** The loop that asks for the numbers of the transformations. *)
Fixpoint select_transforms (lines : list String.string) : outcome (list Z) :=
  match lines with
  | [] => EndOfInput
  | line :: rest =>
      match int_each (split_comma line) with
      | Ok selected =>
          if forallb (fun x => (0 <=? x)
                               && (x <? len (TRANSFORMATIONS libm_sin libm_cos)))
               selected
          then Returned selected rest
          else select_transforms rest
      | Raise ValueError => select_transforms rest
      | Raise e => Raised e rest
      end
  end.

(** [[TRANSFORMATIONS[i] for i in selected_transforms]] *)
Fixpoint pick (selected : list Z)
  : result (list (Point.t -> result Point.t)) :=
  match selected with
  | [] => Ok []
  | i :: rest =>
      t <- getitem (TRANSFORMATIONS libm_sin libm_cos) i ;;
      ts <- pick rest ;;
      Ok (t :: ts)
  end.

(** [input()] *)
Definition input (lines : list String.string) : outcome String.string :=
  match lines with
  | [] => EndOfInput
  | line :: rest => Returned line rest
  end.

Definition user_input (lines : list String.string) : outcome Settings.t :=
  obind (get_valid_input int_of_string (Some 1) None lines) (fun width lines =>
  obind (get_valid_input int_of_string (Some 1) None lines) (fun height lines =>
  obind (get_valid_input int_of_string (Some 1) None lines) (fun samples lines =>
  obind (get_valid_input int_of_string (Some 1) None lines)
    (fun iter_per_sample lines =>
  obind (select_transforms lines) (fun selected lines =>
  match pick selected with
  | Raise e => Raised e lines
  | Ok transformations =>
      obind (input lines) (fun answer lines =>
      let use_multithreading := String.eqb (lower answer) yes in
      if use_multithreading then
        obind (get_valid_input int_of_string (Some 1) None lines)
          (fun num_threads lines =>
             Returned (Settings.mk width height samples iter_per_sample
                         transformations use_multithreading num_threads)
                      lines)
      else
        Returned (Settings.mk width height samples iter_per_sample
                    transformations use_multithreading 1) lines)
  end))))).

End Input.

(** ** main.py: [save_image]

    [img.save(filename)] is PIL's; what the function hands to it is what
    [to_image] built. *)
Definition save_image (image : FractalImage.t)
  : result (list (Z * Z * (Z * Z * Z))) :=
  to_image image.

(** A reader of decimal numerals (one digit or more after an optional
    minus sign), to stand for [int] in the examples. *)

From Stdlib Require DecimalString.

Definition decimal (s : String.string) : result Z :=
  match DecimalString.NilEmpty.int_of_string s with
  | Some (Decimal.Pos Decimal.Nil) | Some (Decimal.Neg Decimal.Nil) =>
      Raise ValueError
  | Some d => Ok (Z.of_int d)
  | None => Raise ValueError
  end.

(** ** main.py: the workers, access by access

    The pool above runs a sample as one step, which is what the driver
    sees of its futures.  What the workers do to the image depends on how
    they interleave inside a sample: the threads share the image and the
    generator of the [random] module, and a thread can be suspended between
    any two accesses to them.  Here a call of [generate_fractal] is the
    tree of its accesses to what is shared; what it computes between two
    accesses is local to its thread.  The accesses are
    - [random.random()], one call into C that reads and advances the
      generator;
    - the index draw [_randbelow(n)] behind [random.choice], a loop around
      such calls;
    - the reads of [image.width] and [image.height] in [map_to_pixel] and
      in its call of [image.contains];
    - [image.add_hit(x, y, color)], which holds the lock of the image from
      its first statement to its last. *)

Module Worker.

Inductive t (A : Type) : Type :=
| Ret (a : A)
| Throw (e : exn)
| Random (k : F64.float -> t A)
| RandBelow (n : Z) (k : Z -> t A)
| Width (k : Z -> t A)
| Height (k : Z -> t A)
| AddHit (x y : Z) (color : Z * Z * Z) (k : unit -> t A).

Arguments Ret {A} a.
Arguments Throw {A} e.
Arguments Random {A} k.
Arguments RandBelow {A} n k.
Arguments Width {A} k.
Arguments Height {A} k.
Arguments AddHit {A} x y color k.

Fixpoint bind {A B : Type} (p : t A) (k : A -> t B) : t B :=
  match p with
  | Ret a => k a
  | Throw e => Throw e
  | Random h => Random (fun u => bind (h u) k)
  | RandBelow n h => RandBelow n (fun i => bind (h i) k)
  | Width h => Width (fun w => bind (h w) k)
  | Height h => Height (fun w => bind (h w) k)
  | AddHit x y color h => AddHit x y color (fun u => bind (h u) k)
  end.

Notation "x <~ c ;; k" := (bind c (fun x => k))
  (at level 61, c at next level, right associativity).

(** An expression that touches nothing shared. *)
Definition pure {A : Type} (x : result A) : t A :=
  match x with
  | Ok a => Ret a
  | Raise e => Throw e
  end.

(** [random.random()] *)
Definition random : t Num.t := Random (fun u => Ret (Num.Float u)).

(** [random.uniform(a, b)], that is [a + (b - a) * random()]. *)
Definition uniform (a b : Num.t) : t Num.t :=
  d <~ pure (Num.sub b a) ;;
  u <~ random ;;
  pure (p <- Num.mul d u ;; Num.add a p).

(** [random.choice(seq)] *)
Definition choice {A : Type} (seq : list A) : t A :=
  if len seq =? 0 then Throw IndexError
  else RandBelow (len seq) (fun i => pure (getitem seq i)).

Definition random_point_in_rect (rect : Rect.t) : t Point.t :=
  bx <~ pure (Num.add (Rect.x rect) (Rect.width rect)) ;;
  x <~ uniform (Rect.x rect) bx ;;
  by_ <~ pure (Num.add (Rect.y rect) (Rect.height rect)) ;;
  y <~ uniform (Rect.y rect) by_ ;;
  Ret (Point.mk x y).

(** [for i in range(n)] with the loop-carried value [a]. *)
Fixpoint for_range {A : Type} (n : nat) (i : Z) (body : Z -> A -> t A) (a : A)
  : t A :=
  match n with
  | O => Ret a
  | S n' => a' <~ body i a ;; for_range n' (i + 1) body a'
  end.

Definition range {A : Type} (n : Z) (body : Z -> A -> t A) (a : A) : t A :=
  for_range (Z.to_nat n) 0 body a.

(** [int(255 * random.random())] *)
Definition random_channel : t Z :=
  u <~ random ;; pure (channel_of u).

(** [int((p - origin) / extent * size)], where [size] is read from the
    image once the quotient is there. *)
Definition pixel_index (p origin extent : Num.t) (size : t Z) : t Z :=
  d <~ pure (Num.sub p origin) ;;
  q <~ pure (Num.truediv d extent) ;;
  n <~ size ;;
  pure (v <- Num.mul q (Num.Int n) ;; Num.to_int v).

(** [image.contains(x, y)], that is
    [0 <= x < self.width and 0 <= y < self.height]: an attribute is read
    only when the comparisons before it held. *)
Definition contains (x y : Z) : t bool :=
  if 0 <=? x then
    Width (fun w =>
      if x <? w then
        if 0 <=? y then Height (fun h => Ret (y <? h)) else Ret false
      else Ret false)
  else Ret false.

Definition map_to_pixel (rect : Rect.t) (point : Point.t)
  : t (option (Z * Z)) :=
  x <~ pixel_index (Point.x point) (Rect.x rect) (Rect.width rect)
         (Width (fun w => Ret w)) ;;
  y <~ pixel_index (Point.y point) (Rect.y rect) (Rect.height rect)
         (Height (fun h => Ret h)) ;;
  inside <~ contains x y ;;
  Ret (if inside then Some (x, y) else None).

(** Lines 134-137. *)
Definition plot (world : Rect.t) (p : Point.t) : t unit :=
  pixel_coords <~ map_to_pixel world p ;;
  match pixel_coords with
  | Some (px, py) =>
      c0 <~ random_channel ;;
      c1 <~ random_channel ;;
      c2 <~ random_channel ;;
      AddHit px py (c0, c1, c2) (fun u => Ret u)
  | None => Ret tt
  end.

Section Engine.

Variables libm_sin libm_cos : F64.float -> F64.float.

Definition plot_rotated (world : Rect.t) (symmetry : Z) (point : Point.t)
    (s : Z) : t unit :=
  rotated_point <~ pure (rotated libm_sin libm_cos point s symmetry) ;;
  plot world rotated_point.

Definition iteration (world : Rect.t)
    (transformations : list (Point.t -> result Point.t)) (symmetry : Z)
    (point : Point.t) : t Point.t :=
  transform <~ choice transformations ;;
  point <~ pure (transform point) ;;
  _ <~ range symmetry (fun s _ => plot_rotated world symmetry point s) tt ;;
  Ret point.

Definition sample (world : Rect.t)
    (transformations : list (Point.t -> result Point.t))
    (iter_per_sample symmetry : Z) : t unit :=
  point <~ random_point_in_rect world ;;
  _ <~ range iter_per_sample
         (fun _ p => iteration world transformations symmetry p) point ;;
  Ret tt.

Definition generate_fractal (world : Rect.t)
    (transformations : list (Point.t -> result Point.t))
    (samples iter_per_sample symmetry : Z) : t unit :=
  range samples
    (fun _ _ => sample world transformations iter_per_sample symmetry) tt.

End Engine.

(** A thread that has more to do. *)
Definition is_running {A : Type} (p : t A) : bool :=
  match p with
  | Ret _ | Throw _ => false
  | _ => true
  end.

Section Alone.

Variable rng : Type.
Variable next_random : rng -> F64.float * rng.
Variable next_below : Z -> rng -> Z * rng.

(** The accesses of a thread that nothing interrupts, on the state [st]:
    the computation of the sampling engine above. *)
Fixpoint exec {A : Type} (p : t A) (st : state rng) : state rng * result A :=
  match p with
  | Ret a => (st, Ok a)
  | Throw e => (st, Raise e)
  | Random k =>
      let '(u, g') := next_random (gen st) in
      exec (k u) (mkState (image st) g')
  | RandBelow n k =>
      let '(i, g') := next_below n (gen st) in
      exec (k i) (mkState (image st) g')
  | Width k => exec (k (FractalImage.width (image st))) st
  | Height k => exec (k (FractalImage.height (image st))) st
  | AddHit x y color k =>
      let '(img, res) := FractalImage.add_hit (image st) x y color in
      match res with
      | Ok u => exec (k u) (mkState img (gen st))
      | Raise e => (mkState img (gen st), Raise e)
      end
  end.

End Alone.

(** What a thread may still add to the image: at most [n] hits, each of a
    colour with channels from 0 to 254, whatever floats in [0, 1) and
    indices it draws and whatever sizes it reads; and its value satisfies
    [Q] when it returns. *)
Fixpoint adds {A : Type} (Q : A -> Prop) (n : Z) (p : t A) : Prop :=
  match p with
  | Ret a => 0 <= n /\ Q a
  | Throw _ => 0 <= n
  | Random k =>
      forall u, F64.valid u = true -> F64.in_unit_interval u = true ->
                adds Q n (k u)
  | RandBelow _ k => forall i, adds Q n (k i)
  | Width k | Height k => forall w, adds Q n (k w)
  | AddHit _ _ color k => color_within 254 color /\ adds Q (n - 1) (k tt)
  end.

End Worker.

(** ** main.py: the parallel driver over such workers

    The driver is the one of the pool above; a future is now the thread
    behind it.  A step of a worker is one access; the index draw leaves the
    generator in any state and returns any index, since the draws of the
    other threads fall between its calls. *)

Module Threads.

Section Pool.

Variables libm_sin libm_cos : F64.float -> F64.float.
Variable rng : Type.
Variable next_random : rng -> F64.float * rng.
Variable next_below : Z -> rng -> Z * rng.

Variable world : Rect.t.
Variable transformations : list (Point.t -> result Point.t).
Variables iter_per_sample symmetry : Z.

Record pool : Type :=
  mkPool { shared : state rng; threads : list (Worker.t unit); pc : driver;
           samples_per_thread : Z }.

(** One access of a thread: the shared state and the thread after it. *)
Inductive access : state rng -> Worker.t unit -> state rng -> Worker.t unit
                   -> Prop :=
| access_random s k :
    access s (Worker.Random k)
      (mkState (image s) (snd (next_random (gen s))))
      (k (fst (next_random (gen s))))
| access_randbelow s n k i g' :
    access s (Worker.RandBelow n k) (mkState (image s) g') (k i)
| access_width s k :
    access s (Worker.Width k) s (k (FractalImage.width (image s)))
| access_height s k :
    access s (Worker.Height k) s (k (FractalImage.height (image s)))
| access_add_hit s x y color k :
    access s (Worker.AddHit x y color k)
      (mkState (fst (FractalImage.add_hit (image s) x y color)) (gen s))
      (match snd (FractalImage.add_hit (image s) x y color) with
       | Ok u => k u
       | Raise e => Worker.Throw e
       end).

(** [executor.submit(generate_fractal, ..., samples_per_thread, ...)] *)
Definition submit (samples_per_thread : Z) : Worker.t unit :=
  Worker.generate_fractal libm_sin libm_cos world transformations
    samples_per_thread iter_per_sample symmetry.

Inductive step : pool -> pool -> Prop :=
| step_work p i t s' t' :
    nth_error (threads p) i = Some t ->
    access (shared p) t s' t' ->
    step p (mkPool s' (store (threads p) i t') (pc p) (samples_per_thread p))
| step_submit p k :
    pc p = Submitting (S k) ->
    step p
      (mkPool (shared p) (threads p ++ [submit (samples_per_thread p)])
              (Submitting k) (samples_per_thread p))
| step_submitted p :
    pc p = Submitting O ->
    step p (mkPool (shared p) (threads p) (Joining O) (samples_per_thread p))
| step_result p i u :
    pc p = Joining i ->
    nth_error (threads p) i = Some (Worker.Ret u) ->
    step p (mkPool (shared p) (threads p) (Joining (S i)) (samples_per_thread p))
| step_result_raises p i e :
    pc p = Joining i ->
    nth_error (threads p) i = Some (Worker.Throw e) ->
    step p
      (mkPool (shared p) (threads p) (Exiting (Raise e)) (samples_per_thread p))
| step_joined p i :
    pc p = Joining i ->
    nth_error (threads p) i = None ->
    step p (mkPool (shared p) (threads p) (Exiting (Ok tt)) (samples_per_thread p))
| step_exit p o :
    pc p = Exiting o ->
    existsb Worker.is_running (threads p) = false ->
    step p (mkPool (shared p) (threads p) (Done o) (samples_per_thread p)).

(** Zero or more steps. *)
Inductive steps : pool -> pool -> Prop :=
| steps_refl p : steps p p
| steps_step p q r : step p q -> steps q r -> steps p r.

(** The pool when [parallel_generate_fractal] starts on the state [s]. *)
Definition parallel_generate_fractal (samples num_threads : Z) (s : state rng)
  : pool :=
  if num_threads =? 0 then mkPool s [] (Done (Raise ZeroDivisionError)) 0
  else
    let samples_per_thread := samples / num_threads in
    if num_threads <? 0 then
      mkPool s [] (Done (Raise ValueError)) samples_per_thread
    else mkPool s [] (Submitting (Z.to_nat num_threads)) samples_per_thread.

(** The steps as functions, to run a schedule; the index draw is the one
    of a thread that nothing interrupts. *)
Definition work_at (i : nat) (p : pool) : option pool :=
  match nth_error (threads p) i with
  | Some t =>
      let next s' t' :=
        Some (mkPool s' (store (threads p) i t') (pc p) (samples_per_thread p))
      in
      let s := shared p in
      match t with
      | Worker.Ret _ | Worker.Throw _ => None
      | Worker.Random k =>
          next (mkState (image s) (snd (next_random (gen s))))
               (k (fst (next_random (gen s))))
      | Worker.RandBelow n k =>
          next (mkState (image s) (snd (next_below n (gen s))))
               (k (fst (next_below n (gen s))))
      | Worker.Width k => next s (k (FractalImage.width (image s)))
      | Worker.Height k => next s (k (FractalImage.height (image s)))
      | Worker.AddHit x y color k =>
          next (mkState (fst (FractalImage.add_hit (image s) x y color)) (gen s))
               (match snd (FractalImage.add_hit (image s) x y color) with
                | Ok u => k u
                | Raise e => Worker.Throw e
                end)
      end
  | None => None
  end.

Definition drive (p : pool) : option pool :=
  let next d := Some (mkPool (shared p) (threads p) d (samples_per_thread p)) in
  match pc p with
  | Submitting (S k) =>
      Some (mkPool (shared p) (threads p ++ [submit (samples_per_thread p)])
              (Submitting k) (samples_per_thread p))
  | Submitting O => next (Joining O)
  | Joining i =>
      match nth_error (threads p) i with
      | None => next (Exiting (Ok tt))
      | Some (Worker.Ret _) => next (Joining (S i))
      | Some (Worker.Throw e) => next (Exiting (Raise e))
      | Some _ => None
      end
  | Exiting o =>
      if existsb Worker.is_running (threads p) then None else next (Done o)
  | Done _ => None
  end.

Fixpoint run (schedule : list action) (p : pool) : option pool :=
  match schedule with
  | [] => Some p
  | a :: rest =>
      match (match a with Work i => work_at i p | Drive => drive p end) with
      | Some q => run rest q
      | None => None
      end
  end.

(** What the statement the driver is at says about the number of threads
    submitted. *)
Definition submitted (n : nat) (ts : list (Worker.t unit)) (d : driver)
  : Prop :=
  match d with
  | Submitting k => (length ts + k = n)%nat
  | _ => length ts = n
  end.

End Pool.

End Threads.

Arguments Threads.mkPool {rng} shared threads pc samples_per_thread.
Arguments Threads.shared {rng} p.
Arguments Threads.threads {rng} p.
Arguments Threads.pc {rng} p.
Arguments Threads.samples_per_thread {rng} p.

(** [main] after [user_input] answered with multithreading: the pool of
    threads it starts. *)
Definition main_threads {rng : Type} (width height samples num_threads : Z)
    (g : rng) : Threads.pool rng :=
  Threads.parallel_generate_fractal rng samples num_threads
    (mkState (FractalImage.init width height) g).

(** What the threads of a pool may still add to the image: thread by
    thread, a number of hits of colours with channels from 0 to 254. *)
Definition budgets (bs : list Z) (ts : list (Worker.t unit)) : Prop :=
  Forall2 (fun b t => Worker.adds (fun _ => True) b t) bs ts.

Definition total (bs : list Z) : Z := fold_right Z.add 0 bs.

(** The image of a pool started on [s0], where a thread gets to add
    [per_thread] hits at most: what the threads have added and what they
    may still add stays within what they were given. *)
Definition within_budget {rng : Type} (s0 : state rng) (per_thread : Z)
    (p : Threads.pool rng) : Prop :=
  exists bs,
    budgets bs (Threads.threads p) /\
    grows (Z.of_nat (length (Threads.threads p)) * per_thread - total bs)
      s0 (Threads.shared p).

(** * Properties
    ** Rounding to binary64 *)

Module F64Facts.

Import F64.


Lemma pow2_pos (k : Z) : 0 <= k -> 0 < 2 ^ k.
Proof. intros; apply Z.pow_pos_nonneg; lia. Qed.

Lemma pow2_add (x y : Z) : 0 <= x -> 0 <= y -> 2 ^ (x + y) = 2 ^ x * 2 ^ y.
Proof. intros; apply Z.pow_add_r; lia. Qed.

Lemma pow2_le (x y : Z) : 0 <= x <= y -> 2 ^ x <= 2 ^ y.
Proof. intros; apply Z.pow_le_mono_r; lia. Qed.

Lemma pow2_lt (x y : Z) : 0 <= x < y -> 2 ^ x < 2 ^ y.
Proof. intros; apply Z.pow_lt_mono_r; lia. Qed.

(** [scaled] keeps the fraction: with both sides brought over the common
    power [2^K], [n / dn] is [a / (b * 2^e)]. *)
Lemma scaled_cross (a b e K : Z) :
  0 <= K -> 0 <= K + e ->
  let '(n, dn) := scaled a b e in
  dn = b * 2 ^ Z.max 0 e /\ n * (b * 2 ^ (K + e)) = a * 2 ^ K * dn.
Proof.
  intros HK HKe. unfold scaled.
  destruct (Z.leb_spec 0 e) as [He|He].
  - rewrite Z.max_r by lia. split; [reflexivity|].
    rewrite (pow2_add K e) by lia. ring.
  - rewrite Z.max_l by lia. rewrite Z.pow_0_r. split; [ring|].
    replace K with ((K + e) + (- e)) at 2 by ring.
    rewrite (pow2_add (K + e) (- e)) by lia. ring.
Qed.

Lemma scaled_den_pos (a b e : Z) : 0 < b -> 0 < snd (scaled a b e).
Proof.
  intros Hb. unfold scaled. destruct (Z.leb_spec 0 e); simpl; [|lia].
  pose proof (pow2_pos e ltac:(lia)). nia.
Qed.

Lemma scaled_lt (a b e K c : Z) :
  0 < b -> 0 <= K -> 0 <= K + e ->
  (fst (scaled a b e) < c * snd (scaled a b e)
   <-> a * 2 ^ K < c * (b * 2 ^ (K + e))).
Proof.
  intros Hb HK HKe.
  pose proof (scaled_cross a b e K HK HKe) as H.
  pose proof (scaled_den_pos a b e Hb) as Hd.
  destruct (scaled a b e) as [n dn]; simpl in *. destruct H as [_ H].
  pose proof (pow2_pos (K + e) HKe) as Hp.
  assert (0 < b * 2 ^ (K + e)) as Hq by nia.
  split; intros Hlt.
  - apply (Z.mul_lt_mono_pos_r dn); [lia|].
    rewrite <- H. nia.
  - apply (Z.mul_lt_mono_pos_r (b * 2 ^ (K + e))); [lia|].
    rewrite H. nia.
Qed.

Lemma scaled_le (a b e K c : Z) :
  0 < b -> 0 <= K -> 0 <= K + e ->
  (c * snd (scaled a b e) <= fst (scaled a b e)
   <-> c * (b * 2 ^ (K + e)) <= a * 2 ^ K).
Proof.
  intros Hb HK HKe.
  pose proof (scaled_lt a b e K c Hb HK HKe). lia.
Qed.

Lemma div_lt_iff (n dn c : Z) : 0 < dn -> (n / dn < c <-> n < c * dn).
Proof.
  intros Hd. split; intros H.
  - destruct (Z.lt_ge_cases n (c * dn)) as [|Hge]; [assumption|].
    apply (Z.div_le_lower_bound n dn c) in Hd; lia.
  - apply Z.div_lt_upper_bound; lia.
Qed.

(** The quantum exponent at the common power [2^K]. *)
Definition in_binade (a b e K : Z) : Prop :=
  a * 2 ^ K < 2 ^ 53 * (b * 2 ^ (K + e)) /\
  (emin < e -> 2 ^ 52 * (b * 2 ^ (K + e)) <= a * 2 ^ K).

Lemma quantum_in_binade (a b K : Z) :
  0 < a -> 0 < b -> 0 <= K -> 0 <= K + quantum a b ->
  0 <= K + (Z.log2 a - Z.log2 b - 53) ->
  emin <= quantum a b /\ in_binade a b (quantum a b) K.
Proof.
  intros Ha Hb HK HKq HKd. unfold quantum, in_binade in *.
  set (d := Z.log2 a - Z.log2 b - 52) in *.
  pose proof (Z.log2_spec a Ha) as [Hla1 Hla2].
  pose proof (Z.log2_spec b Hb) as [Hlb1 Hlb2].
  pose proof (Z.log2_nonneg a) as Hla0. pose proof (Z.log2_nonneg b) as Hlb0.
  rewrite Z.pow_succ_r in Hla2, Hlb2 by lia.
  assert (2 ^ Z.log2 b * 2 ^ (K + (d - 1)) * 2 ^ 53 = 2 ^ Z.log2 a * 2 ^ K) as Hpow.
  { rewrite <- !pow2_add by lia. f_equal. unfold d. ring. }
  assert (2 ^ (K + d) = 2 * 2 ^ (K + (d - 1))) as Hstep.
  { replace (K + d) with (Z.succ (K + (d - 1))) by ring.
    apply Z.pow_succ_r. lia. }
  pose proof (pow2_pos (K + (d - 1)) ltac:(lia)) as HP.
  pose proof (pow2_pos K HK) as HPK.
  pose proof (pow2_pos (Z.log2 a) Hla0) as HPa.
  pose proof (pow2_pos (Z.log2 b) Hlb0) as HPb.
  set (P := 2 ^ (K + (d - 1))) in *.
  assert (2 ^ Z.log2 b * P <= b * P) as HbP by nia.
  assert (b * P < 2 * 2 ^ Z.log2 b * P) as HbP' by nia.
  assert (2 ^ Z.log2 a * 2 ^ K <= a * 2 ^ K) as HaK by nia.
  assert (a * 2 ^ K < 2 * 2 ^ Z.log2 a * 2 ^ K) as HaK' by nia.
  change (2 ^ 53) with 9007199254740992 in *.
  change (2 ^ 52) with 4503599627370496 in *.
  assert (a * 2 ^ K < 9007199254740992 * (b * (2 * P))) as Hhi by lia.
  assert (4503599627370496 * (b * P) < a * 2 ^ K) as Hlo by lia.
  pose proof (scaled_lt a b d K (2 ^ 52) Hb HK ltac:(lia)) as Hc.
  pose proof (scaled_den_pos a b d Hb) as Hdn.
  destruct (scaled a b d) as [n dn]; cbn [fst snd] in Hc, Hdn.
  rewrite <- (div_lt_iff n dn _ Hdn) in Hc.
  rewrite Hstep in Hc.
  destruct (Z.ltb_spec (n / dn) 4503599627370496) as [Hq|Hq].
  - (* the quotient at [d] is short of 53 bits: one exponent lower *)
    apply Hc in Hq.
    destruct (Z.max_spec emin (d - 1)) as [[Hm ->]|[Hm ->]].
    + split; [lia|]. split; [fold P|intros _; fold P].
      * lia.
      * lia.
    + split; [lia|]. split; [|lia].
      rewrite Z.max_l in HKq by lia.
      assert (2 ^ (K + (d - 1)) <= 2 ^ (K + emin)) by (apply pow2_le; lia).
      fold P in H. nia.
  - assert (~ a * 2 ^ K < 2 ^ 52 * (b * (2 * P))) as Hge by (intros X; apply Hc in X; lia).
    destruct (Z.max_spec emin d) as [[Hm ->]|[Hm ->]].
    + split; [lia|]. rewrite Hstep. split; [|intros _]; nia.
    + split; [lia|]. split; [|lia].
      rewrite Z.max_l in HKq by lia.
      assert (2 ^ (K + d) <= 2 ^ (K + emin)) by (apply pow2_le; lia).
      rewrite Hstep in H. nia.
Qed.

Lemma scaled_lt2 (a b e K k c : Z) :
  0 < b -> 0 <= K -> 0 <= K + e ->
  (k * fst (scaled a b e) < c * snd (scaled a b e)
   <-> k * (a * 2 ^ K) < c * (b * 2 ^ (K + e))).
Proof.
  intros Hb HK HKe.
  pose proof (scaled_cross a b e K HK HKe) as H.
  pose proof (scaled_den_pos a b e Hb) as Hd.
  destruct (scaled a b e) as [n dn]; cbn [fst snd] in *. destruct H as [_ H].
  pose proof (pow2_pos (K + e) HKe) as Hp.
  assert (0 < b * 2 ^ (K + e)) as Hq by nia.
  split; intros Hlt.
  - apply (Z.mul_lt_mono_pos_r dn); [lia|].
    replace (k * (a * 2 ^ K) * dn) with (k * (a * 2 ^ K * dn)) by ring.
    rewrite <- H. nia.
  - apply (Z.mul_lt_mono_pos_r (b * 2 ^ (K + e))); [lia|].
    replace (k * n * (b * 2 ^ (K + e))) with (k * (n * (b * 2 ^ (K + e)))) by ring.
    rewrite H. nia.
Qed.

Lemma quantum_ge_emin (a b : Z) : emin <= quantum a b.
Proof.
  unfold quantum. destruct (scaled a b _). apply Z.le_max_l.
Qed.

(** In a binade the quotient has at most 53 bits, and exactly 53 above the
    subnormal range. *)
Lemma quantum_quotient (a b : Z) :
  0 < a -> 0 < b ->
  let e := quantum a b in
  let n := fst (scaled a b e) in
  let dn := snd (scaled a b e) in
  emin <= e /\ 0 < dn /\ n < 2 ^ 53 * dn /\ (emin < e -> 2 ^ 52 * dn <= n).
Proof.
  intros Ha Hb e n dn.
  set (K := Z.abs (Z.log2 a - Z.log2 b - 53) + Z.abs e + Z.abs emin).
  assert (emin <= e) as He by apply quantum_ge_emin.
  destruct (quantum_in_binade a b K Ha Hb) as [_ [Hhi Hlo]]; try (unfold K; fold e; lia).
  fold e in Hhi, Hlo.
  split; [assumption|]. split; [apply scaled_den_pos; assumption|].
  split.
  - apply (scaled_lt a b e K (2 ^ 53) Hb); unfold K; try lia. exact Hhi.
  - intros Hlt. apply (scaled_le a b e K (2 ^ 52) Hb); unfold K; try lia. auto.
Qed.

Lemma nearest_even_spec (n dn : Z) :
  0 < dn ->
  (nearest_even n dn = n / dn /\ 2 * (n mod dn) <= dn) \/
  (nearest_even n dn = n / dn + 1 /\ dn <= 2 * (n mod dn)).
Proof.
  intros Hd. unfold nearest_even.
  destruct (Z.compare_spec (2 * (n mod dn)) dn).
  - destruct (Z.even (n / dn)); [left|right]; split; lia.
  - left; split; lia.
  - right; split; lia.
Qed.

Lemma nearest_even_lt (n dn : Z) :
  2 * (n mod dn) < dn -> nearest_even n dn = n / dn.
Proof.
  intros H. unfold nearest_even.
  destruct (Z.compare_spec (2 * (n mod dn)) dn); lia.
Qed.

(** What [normalize] returns for a mantissa of at most 53 bits, or [2^53]. *)
Lemma normalize_cases (s : bool) (m e : Z) :
  0 <= m <= 2 ^ 53 ->
  (m = 0 /\ normalize s m e = S754_zero s) \/
  (exists p, 0 < m < 2 ^ 53 /\ m = Z.pos p /\
     normalize s m e
     = if e <=? emax - prec then S754_finite s p e else S754_infinity s) \/
  (m = 2 ^ 53 /\
     normalize s m e
     = if e + 1 <=? emax - prec then S754_finite s 4503599627370496 (e + 1)
       else S754_infinity s).
Proof.
  intros Hm. unfold normalize. change (2 ^ prec) with (2 ^ 53).
  destruct (Z.eqb_spec m (2 ^ 53)) as [->|Hne].
  - right; right. split; reflexivity.
  - destruct m as [|p|p]; [left; auto| |lia].
    right; left. exists p. repeat split; lia.
Qed.

Lemma round_ratio_unfold (s : bool) (a b : Z) :
  0 < a ->
  round_ratio s a b
  = normalize s (nearest_even (fst (scaled a b (quantum a b)))
                              (snd (scaled a b (quantum a b)))) (quantum a b).
Proof.
  intros Ha. unfold round_ratio.
  destruct (Z.eqb_spec a 0); [lia|].
  destruct (scaled a b (quantum a b)); reflexivity.
Qed.

(** The rounded mantissa, before normalisation. *)
Lemma rounded_mantissa (a b : Z) :
  0 < a -> 0 < b ->
  let e := quantum a b in
  let n := fst (scaled a b e) in
  let dn := snd (scaled a b e) in
  let m := nearest_even n dn in
  0 <= n / dn < 2 ^ 53 /\ n / dn <= m <= n / dn + 1 /\ m <= 2 ^ 53 /\
  (emin < e -> 2 ^ 52 <= n / dn).
Proof.
  intros Ha Hb e n dn m.
  destruct (quantum_quotient a b Ha Hb) as (He & Hdn & Hhi & Hlo).
  fold e in He, Hhi, Hlo. fold n dn in Hdn, Hhi, Hlo.
  assert (0 <= n) as Hn.
  { unfold n, scaled. destruct (0 <=? e); cbn [fst];
      [lia | pose proof (pow2_pos (- e)); nia]. }
  assert (0 <= n / dn) by (apply Z.div_pos; lia).
  assert (n / dn < 2 ^ 53) by (apply div_lt_iff; lia).
  assert (n / dn <= m <= n / dn + 1) as Hm.
  { unfold m. destruct (nearest_even_spec n dn Hdn) as [[-> _]|[-> _]]; lia. }
  repeat split; try lia.
  intros Hlt. apply Z.div_le_lower_bound; [lia|]. specialize (Hlo Hlt). lia.
Qed.

(** A fraction below the midpoint that follows the 53-bit number [M * 2^E]
    rounds to at most [M * 2^E]. *)
Lemma round_ratio_below (s : bool) (a b M E K : Z) :
  0 < a -> 0 < b ->
  2 ^ 52 <= M < 2 ^ 53 -> emin <= E <= emax - prec ->
  0 <= K -> 0 <= K + emin -> 0 <= K + (Z.log2 a - Z.log2 b - 53) ->
  2 * (a * 2 ^ K) < (2 * M + 1) * (b * 2 ^ (K + E)) ->
  round_ratio s a b = S754_zero s \/
  exists m e, round_ratio s a b = S754_finite s m e /\ emin <= e <= E /\
              Z.pos m * 2 ^ (K + e) <= M * 2 ^ (K + E).
Proof.
  intros Ha Hb HM HE HK HKm HKd Hmid.
  rewrite (round_ratio_unfold s a b Ha).
  pose proof (quantum_ge_emin a b) as He.
  destruct (quantum_in_binade a b K Ha Hb HK ltac:(lia) HKd) as [_ [Hhi Hlo]].
  pose proof (rounded_mantissa a b Ha Hb) as Hrm. cbv zeta in Hrm.
  pose proof (scaled_lt2 a b (quantum a b) K 2 (2 * M + 1) Hb HK ltac:(lia)) as Hsc.
  pose proof (scaled_den_pos a b (quantum a b) Hb) as Hdn.
  set (e := quantum a b) in *.
  set (n := fst (scaled a b e)) in *. set (dn := snd (scaled a b e)) in *.
  destruct Hrm as (Hq & Hm & Hm53 & _).
  pose proof (pow2_pos (K + e) ltac:(lia)) as HPe.
  pose proof (pow2_pos (K + E) ltac:(lia)) as HPE.
  pose proof (pow2_pos K HK) as HPK.
  change (2 ^ 53) with 9007199254740992 in *.
  change (2 ^ 52) with 4503599627370496 in *.
  (* the quantum is no larger than [E] *)
  assert (e <= E) as HeE.
  { destruct (Z.le_gt_cases e E) as [|Hgt]; [assumption|exfalso].
    specialize (Hlo ltac:(lia)).
    assert (2 * 2 ^ (K + E) <= 2 ^ (K + e)).
    { rewrite <- Z.pow_succ_r by lia. apply pow2_le. lia. }
    nia. }
  (* the rounded mantissa is no larger than [M * 2^(E - e)] *)
  assert (nearest_even n dn * 2 ^ (K + e) <= M * 2 ^ (K + E)) as Hbound.
  { destruct (Z.eq_dec e E) as [Heq|Hne].
    - rewrite <- Heq in *.
      apply Hsc in Hmid.
      pose proof (Z.div_mod n dn ltac:(lia)) as Hdm.
      pose proof (Z.mod_pos_bound n dn Hdn) as Hr.
      assert (n / dn <= M) by nia.
      destruct (Z.eq_dec (n / dn) M) as [HqM|HqM].
      + rewrite nearest_even_lt by nia. nia.
      + assert (nearest_even n dn <= M) by lia. nia.
    - assert (2 * 2 ^ (K + e) <= 2 ^ (K + E)).
      { rewrite <- Z.pow_succ_r by lia. apply pow2_le. lia. }
      nia. }
  destruct (normalize_cases s (nearest_even n dn) e ltac:(lia))
    as [[_ ->]|[(p & Hp & Hpe & ->)|[Hm' ->]]].
  - left; reflexivity.
  - right. exists p, e. destruct (Z.leb_spec e (emax - prec)); [|lia].
    rewrite <- Hpe. repeat split; auto.
  - right. assert (e < E) as Hlt.
    { destruct (Z.eq_dec e E) as [Heq|]; [|lia]. rewrite Heq in *. nia. }
    exists 4503599627370496%positive, (e + 1).
    destruct (Z.leb_spec (e + 1) (emax - prec)); [|lia].
    split; [reflexivity|]. split; [unfold e in *; lia|].
    replace (K + (e + 1)) with (Z.succ (K + e)) by ring.
    rewrite Z.pow_succ_r by lia. rewrite Hm' in Hbound. lia.
Qed.

Lemma shiftl_neg_exp (m e : Z) : e <= 0 -> Z.shiftl m e = m / 2 ^ (- e).
Proof.
  intros He. destruct (Z.eq_dec e 0) as [->|Hne].
  - rewrite Z.shiftl_0_r. simpl. now rewrite Z.div_1_r.
  - apply Z.shiftl_div_pow2. lia.
Qed.

(** [int] of a fraction that rounds to at most [M * 2^E], [E <= 0]. *)
Lemma to_int_round_ratio_le (a b M E : Z) :
  0 <= a -> 0 < b ->
  2 ^ 52 <= M < 2 ^ 53 -> emin <= E <= 0 ->
  2 * (a * 2 ^ (- E)) < (2 * M + 1) * b ->
  exists v, to_int (round_ratio false a b) = Ok v /\ 0 <= v <= M / 2 ^ (- E) /\
            is_inf (round_ratio false a b) = false.
Proof.
  intros Ha Hb HM HE Hmid.
  assert (0 <= M / 2 ^ (- E)) as Hnn.
  { apply Z.div_pos; [lia|apply pow2_pos; lia]. }
  destruct (Z.eq_dec a 0) as [->|Hne].
  { exists 0. simpl. repeat split; lia. }
  set (K := Z.abs (Z.log2 a - Z.log2 b - 53) + 1074).
  assert (emin = -1074) as Hemin by reflexivity.
  assert (emax - prec = 971) as Hemax by reflexivity.
  destruct (round_ratio_below false a b M E K) as [Hz|(m & e & Hf & [Hee HeE] & Hle)];
    try (unfold K; lia).
  { replace (K + E) with ((K + E) + 0) by ring.
    replace K with ((K + E) + (- E)) at 1 by ring.
    rewrite (pow2_add (K + E) (- E)) by (unfold K; lia).
    pose proof (pow2_pos (K + E) ltac:(unfold K; lia)).
    rewrite Z.add_0_r. nia. }
  - rewrite Hz. exists 0. simpl. repeat split; lia.
  - rewrite Hf. exists (Z.shiftl (Z.pos m) e). cbn [to_int signed is_inf].
    split; [reflexivity|]. split; [|reflexivity].
    rewrite shiftl_neg_exp by lia.
    pose proof (pow2_pos (- e) ltac:(lia)) as HPe.
    split; [apply Z.div_pos; lia|].
    assert (Z.pos m <= M * 2 ^ (E - e)) as Hm.
    { replace (K + E) with ((K + e) + (E - e)) in Hle by ring.
      rewrite (pow2_add (K + e) (E - e)) in Hle by (unfold K; lia).
      pose proof (pow2_pos (K + e) ltac:(unfold K; lia)).
      pose proof (pow2_pos (E - e) ltac:(lia)). nia. }
    replace (- e) with ((- E) + (E - e)) by ring.
    rewrite (pow2_add (- E) (E - e)) by lia.
    pose proof (pow2_pos (- E) ltac:(lia)) as HPE.
    pose proof (pow2_pos (E - e) ltac:(lia)) as HPj.
    rewrite <- (Z.div_mul_cancel_r M (2 ^ (- E)) (2 ^ (E - e))) by lia.
    apply Z.div_le_mono; [nia|lia].
Qed.

(** A quotient of at most 255 stays within [0, 255] through the float
    division and the truncation. *)
Lemma truediv_to_int_255 (a b : Z) :
  0 <= a -> 0 < b -> a <= 255 * b ->
  exists v, (q <- int_truediv a b ;; to_int q) = Ok v /\ 0 <= v <= 255.
Proof.
  intros Ha Hb Hab. unfold int_truediv.
  destruct (Z.eqb_spec b 0); [lia|].
  destruct (Z.ltb_spec a 0); [lia|]. destruct (Z.ltb_spec b 0); [lia|].
  rewrite Z.abs_eq by lia. rewrite Z.abs_eq by lia. cbn [xorb].
  assert (2 ^ 52 <= 8972014882652160 < 2 ^ 53) as HM by (cbv; intuition congruence).
  assert (emin <= -45 <= 0) as HE by (cbv; intuition congruence).
  assert (2 * (a * 2 ^ (- -45)) < (2 * 8972014882652160 + 1) * b) as Hmid.
  { change (2 ^ (- -45)) with 35184372088832. lia. }
  destruct (to_int_round_ratio_le a b 8972014882652160 (-45) Ha Hb HM HE Hmid)
    as (v & Hv & Hb255 & Hinf).
  rewrite Hinf. cbn [bind]. exists v. split; [assumption|].
  change (8972014882652160 / 2 ^ (- -45)) with 255 in Hb255. lia.
Qed.

Lemma div_succ_same (q t : Z) :
  0 < t -> (q + 1) mod t <> 0 -> (q + 1) / t = q / t.
Proof.
  intros Ht Hnd.
  pose proof (Z.div_mod q t ltac:(lia)) as Hq.
  pose proof (Z.mod_pos_bound q t Ht) as Hr.
  destruct (Z.eq_dec (q mod t) (t - 1)) as [Heq|Hne].
  - exfalso. apply Hnd.
    replace (q + 1) with ((q / t + 1) * t) by lia.
    apply Z.mod_mul. lia.
  - symmetry. apply (Z.div_unique (q + 1) t (q / t) (q mod t + 1)); lia.
Qed.

(** Below [2^53] the rounding of the quotient never reaches the next
    integer: truncating the float gives the integer quotient. *)
Lemma to_int_round_ratio_exact (a b : Z) :
  0 <= a < 2 ^ 53 -> 0 < b ->
  to_int (round_ratio false a b) = Ok (a / b) /\
  is_inf (round_ratio false a b) = false.
Proof.
  intros Ha Hb.
  destruct (Z.eq_dec a 0) as [->|Hne].
  { rewrite Z.div_0_l by lia. split; reflexivity. }
  assert (0 < a) as Ha' by lia.
  rewrite (round_ratio_unfold false a b Ha').
  pose proof (quantum_quotient a b Ha' Hb) as Hqq.
  pose proof (rounded_mantissa a b Ha' Hb) as Hrm.
  cbv zeta in Hqq, Hrm.
  destruct Hqq as (He & Hdn & Hhi & Hlo). destruct Hrm as (Hq & Hm & Hm53 & Hq52).
  pose proof (nearest_even_spec (fst (scaled a b (quantum a b))) _ Hdn) as Hne2.
  assert (emin = -1074) as Hemin by reflexivity.
  assert (emax - prec = 971) as Hemax by reflexivity.
  set (e := quantum a b) in *.
  unfold scaled in *.
  destruct (Z.leb_spec 0 e) as [He0|He0]; cbn [fst snd] in *.
  - (* a quantum of at least one: the quotient is [a] itself, [b] is one *)
    pose proof (pow2_pos e He0) as HP.
    specialize (Hlo ltac:(lia)).
    change (2 ^ 52) with 4503599627370496 in *.
    change (2 ^ 53) with 9007199254740992 in *.
    assert (b * 2 ^ e = 1) as Hb1 by nia.
    assert (b = 1) as -> by nia.
    assert (e = 0) as He00.
    { destruct (Z.eq_dec e 0); [assumption|exfalso].
      assert (2 ^ 1 <= 2 ^ e) by (apply pow2_le; lia).
      change (2 ^ 1) with 2 in *. lia. }
    rewrite He00 in *. change (1 * 2 ^ 0) with 1 in *.
    rewrite Z.div_1_r in *.
    rewrite nearest_even_lt by (rewrite Z.mod_1_r; lia).
    rewrite Z.div_1_r.
    destruct (normalize_cases false a 0 ltac:(lia))
      as [[? _]|[(p & Hp & Hpe & ->)|[Hm' _]]]; try lia.
    change (0 <=? emax - prec) with true. cbn [to_int signed is_inf].
    rewrite Z.shiftl_0_r, Hpe. split; reflexivity.
  - (* a fractional quantum [2^-k] *)
    set (k := - e) in *.
    pose proof (pow2_pos k ltac:(unfold k; lia)) as HP.
    set (q := a * 2 ^ k / b) in *.
    set (m := nearest_even (a * 2 ^ k) b) in *.
    assert (q / 2 ^ k = a / b) as Hqab.
    { unfold q. rewrite Z.div_div by lia.
      rewrite Z.div_mul_cancel_r by lia. reflexivity. }
    assert (m / 2 ^ k = a / b) as Hmab.
    { destruct Hne2 as [[Hmq _]|[Hmq Hr]]; fold m q in Hmq.
      - rewrite Hmq. assumption.
      - rewrite Hmq, <- Hqab. apply div_succ_same; [lia|].
        intros Hdiv. apply Z.mod_divide in Hdiv; [|lia].
        destruct Hdiv as [t Ht].
        pose proof (Z.div_mod (a * 2 ^ k) b ltac:(lia)) as Hdm.
        pose proof (Z.mod_pos_bound (a * 2 ^ k) b Hb) as Hrb.
        fold q in Hdm.
        assert (1 <= t) as Ht1 by nia.
        assert (a < t * b) as Hatb by nia.
        assert (2 * 2 ^ k <= b) as Hb2.
        { assert (2 * (a * 2 ^ k) >= (2 * q + 1) * b) as H1 by nia.
          assert (2 * q + 1 = 2 * t * 2 ^ k - 1) as H2 by lia.
          rewrite H2 in H1.
          assert ((a + 1) * 2 ^ k <= t * b * 2 ^ k) as H3 by nia.
          nia. }
        change (2 ^ 52) with 4503599627370496 in *.
        change (2 ^ 53) with 9007199254740992 in *.
        destruct (Z.eq_dec e emin) as [Hee|Hee].
        + assert (2 ^ 53 <= 2 ^ k) by (apply pow2_le; unfold k; lia).
          change (2 ^ 53) with 9007199254740992 in *. nia.
        + specialize (Hq52 ltac:(lia)). specialize (Hlo ltac:(lia)). nia. }
    destruct (normalize_cases false m e ltac:(lia))
      as [[Hm0 ->]|[(p & Hp & Hpe & ->)|[Hm' ->]]].
    + split; [|reflexivity]. cbn. rewrite <- Hmab, Hm0.
      now rewrite Z.div_0_l by lia.
    + destruct (Z.leb_spec e (emax - prec)); [|lia].
      split; [|reflexivity]. cbn [to_int signed].
      rewrite shiftl_neg_exp by lia. fold k. rewrite <- Hpe, Hmab. reflexivity.
    + destruct (Z.leb_spec (e + 1) (emax - prec)); [|lia].
      split; [|reflexivity]. cbn [to_int signed].
      rewrite shiftl_neg_exp by lia. rewrite <- Hmab, Hm'.
      f_equal.
      replace k with (Z.succ (- (e + 1))) by (unfold k; lia).
      rewrite Z.pow_succ_r by lia.
      change (2 ^ 53) with (4503599627370496 * 2).
      rewrite (Z.mul_comm 2).
      rewrite Z.div_mul_cancel_r; [reflexivity| |lia].
      pose proof (pow2_pos (- (e + 1)) ltac:(lia)). lia.
Qed.

Lemma truediv_to_int_exact (a b : Z) :
  0 <= a < 2 ^ 53 -> 0 < b ->
  (q <- int_truediv a b ;; to_int q) = Ok (a / b).
Proof.
  intros Ha Hb. unfold int_truediv.
  destruct (Z.eqb_spec b 0); [lia|].
  destruct (Z.ltb_spec a 0); [lia|]. destruct (Z.ltb_spec b 0); [lia|].
  rewrite Z.abs_eq by lia. rewrite Z.abs_eq by lia. cbn [xorb].
  destruct (to_int_round_ratio_exact a b Ha Hb) as [Hv Hinf].
  rewrite Hinf. cbn [bind]. assumption.
Qed.

(** *** The quantum is unique, and representable numbers round to
    themselves *)

Lemma in_binade_unique (a b e1 e2 K : Z) :
  0 < a -> 0 < b -> emin <= e1 -> emin <= e2 -> 0 <= K + emin ->
  in_binade a b e1 K -> in_binade a b e2 K -> e1 = e2.
Proof.
  intros Ha Hb He1 He2 HK [Hhi1 Hlo1] [Hhi2 Hlo2].
  pose proof (pow2_pos (K + e1) ltac:(lia)) as HP1.
  pose proof (pow2_pos (K + e2) ltac:(lia)) as HP2.
  change (2 ^ 53) with (2 * 2 ^ 52) in *.
  change (2 ^ 52) with 4503599627370496 in *.
  destruct (Z.lt_trichotomy e1 e2) as [Hlt|[Heq|Hgt]]; [exfalso|assumption|exfalso].
  - specialize (Hlo2 ltac:(lia)).
    assert (2 * 2 ^ (K + e1) <= 2 ^ (K + e2)).
    { rewrite <- Z.pow_succ_r by lia. apply pow2_le. lia. }
    nia.
  - specialize (Hlo1 ltac:(lia)).
    assert (2 * 2 ^ (K + e2) <= 2 ^ (K + e1)).
    { rewrite <- Z.pow_succ_r by lia. apply pow2_le. lia. }
    nia.
Qed.

(** The fraction [a / b] whose value is the number [m * 2^e] of the
    format rounds to that number. *)
Lemma round_ratio_exact (s : bool) (a b : Z) (m : positive) (e K : Z) :
  0 < a -> 0 < b -> valid (S754_finite s m e) = true ->
  0 <= K -> 0 <= K + emin -> 0 <= K + (Z.log2 a - Z.log2 b - 53) ->
  a * 2 ^ K = Z.pos m * (b * 2 ^ (K + e)) ->
  round_ratio s a b = S754_finite s m e.
Proof.
  intros Ha Hb Hv HK HKm HKd Hval.
  cbn [valid] in Hv.
  apply andb_prop in Hv as [Hv Hnorm]. apply andb_prop in Hv as [Hv Hemax].
  apply andb_prop in Hv as [Hm53 Hemin].
  apply Z.ltb_lt in Hm53. apply Z.leb_le in Hemin, Hemax.
  change (2 ^ prec) with (2 ^ 53) in Hm53.
  change (2 ^ (prec - 1)) with (2 ^ 52) in Hnorm.
  pose proof (pow2_pos (K + e) ltac:(lia)) as HPe.
  assert (0 < b * 2 ^ (K + e)) as HX by nia.
  assert (quantum a b = e) as Hq.
  { pose proof (quantum_ge_emin a b) as Hge.
    destruct (quantum_in_binade a b K Ha Hb HK ltac:(lia) HKd) as [_ Hin].
    apply (in_binade_unique a b (quantum a b) e K); try assumption.
    split.
    - rewrite Hval. apply Z.mul_lt_mono_pos_r; assumption.
    - intros Hlt. rewrite Hval. apply Z.mul_le_mono_nonneg_r; [lia|].
      apply orb_prop in Hnorm as [Hn|Hn];
        [apply Z.eqb_eq in Hn; lia|apply Z.leb_le in Hn; assumption]. }
  rewrite (round_ratio_unfold s a b Ha), Hq.
  pose proof (scaled_cross a b e K HK ltac:(lia)) as Hsc.
  pose proof (scaled_den_pos a b e Hb) as Hdn.
  destruct (scaled a b e) as [n dn]; cbn [fst snd] in *.
  destruct Hsc as [_ Hsc].
  assert (n = Z.pos m * dn) as Hn.
  { apply (Z.mul_reg_r _ _ (b * 2 ^ (K + e))); [lia|].
    rewrite Hsc, Hval. ring. }
  rewrite nearest_even_lt by (rewrite Hn, Z.mod_mul by lia; lia).
  rewrite Hn, Z.div_mul by lia.
  destruct (normalize_cases s (Z.pos m) e ltac:(lia))
    as [[? _]|[(p & _ & Hp & ->)|[? _]]]; try lia.
  destruct (Z.leb_spec e (emax - prec)); [|lia].
  now injection Hp as <-.
Qed.

Lemma round_dyadic_exact (s : bool) (m : positive) (e k : Z) :
  valid (S754_finite s m e) = true -> 0 <= k ->
  round_dyadic s (Z.pos m * 2 ^ k) (e - k) = S754_finite s m e.
Proof.
  intros Hv Hk. unfold round_dyadic.
  pose proof (pow2_pos k Hk) as HPk.
  assert (emin = -1074) as Hemin by reflexivity.
  destruct (Z.leb_spec 0 (e - k)) as [He|He].
  - pose proof (pow2_pos (e - k) He) as HPe.
    set (a := Z.pos m * 2 ^ k * 2 ^ (e - k)).
    assert (0 < a) as Ha by (unfold a; nia).
    set (K := Z.abs (Z.log2 a - Z.log2 1 - 53) + 1074).
    apply (round_ratio_exact s a 1 m e K); try assumption; try (unfold K; lia).
    unfold a. replace (K + e) with (k + (e - k) + K) by ring.
    rewrite !pow2_add by (unfold K; lia). ring.
  - pose proof (pow2_pos (- (e - k)) ltac:(lia)) as HPe.
    set (a := Z.pos m * 2 ^ k). set (b := 2 ^ (- (e - k))).
    assert (0 < a) as Ha by (unfold a; nia).
    set (K := Z.abs (Z.log2 a - Z.log2 b - 53) + Z.abs e + 1074).
    apply (round_ratio_exact s a b m e K); try assumption; try (unfold K; lia).
    unfold a, b.
    replace (2 ^ (- (e - k)) * 2 ^ (K + e)) with (2 ^ k * 2 ^ K); [ring|].
    rewrite <- !pow2_add by (unfold K; lia). f_equal. ring.
Qed.

(** *** Rounding stays in the format *)

Lemma round_ratio_valid (s : bool) (a b : Z) :
  0 <= a -> 0 < b -> valid (round_ratio s a b) = true.
Proof.
  intros Ha Hb. destruct (Z.eq_dec a 0) as [->|Hne]; [reflexivity|].
  assert (0 < a) as Ha' by lia.
  rewrite (round_ratio_unfold s a b Ha').
  pose proof (quantum_ge_emin a b) as He.
  pose proof (rounded_mantissa a b Ha' Hb) as Hrm. cbv zeta in Hrm.
  destruct Hrm as (Hq & Hm & Hm53 & Hq52).
  set (e := quantum a b) in *.
  set (m := nearest_even _ _) in *.
  assert (emin = -1074) as Hemin by reflexivity.
  assert (emax - prec = 971) as Hemax by reflexivity.
  destruct (normalize_cases s m e ltac:(lia))
    as [[_ ->]|[(p & Hp & Hpe & ->)|[Hm' ->]]]; [reflexivity| |].
  - destruct (Z.leb_spec e (emax - prec)); [|reflexivity].
    cbn [valid]. rewrite <- Hpe.
    change (2 ^ prec) with (2 ^ 53). change (2 ^ (prec - 1)) with (2 ^ 52).
    rewrite !andb_true_iff, orb_true_iff, !Z.leb_le, Z.ltb_lt, Z.eqb_eq.
    repeat split; lia.
  - destruct (Z.leb_spec (e + 1) (emax - prec)); [|reflexivity].
    cbn [valid].
    rewrite !andb_true_iff, orb_true_iff, !Z.leb_le, Z.ltb_lt, Z.eqb_eq.
    repeat split; try lia; try reflexivity. right. cbv. congruence.
Qed.

Lemma round_dyadic_valid (s : bool) (m e : Z) :
  0 <= m -> valid (round_dyadic s m e) = true.
Proof.
  intros Hm. unfold round_dyadic. destruct (Z.leb_spec 0 e).
  - apply round_ratio_valid; [|lia]. pose proof (pow2_pos e); nia.
  - apply round_ratio_valid; [lia|]. apply pow2_pos. lia.
Qed.

Lemma neg_valid (x : float) : valid x = true -> valid (neg x) = true.
Proof. destruct x; auto. Qed.

Lemma abs_valid (x : float) : valid x = true -> valid (abs x) = true.
Proof. destruct x; auto. Qed.

Lemma mul_valid (x y : float) : valid (mul x y) = true.
Proof.
  destruct x, y; try reflexivity. cbn [mul].
  apply round_dyadic_valid. lia.
Qed.

Lemma div_valid (x y : float) : valid (div x y) = true.
Proof.
  destruct x as [| | |sx mx ex], y as [| | |sy my ey]; try reflexivity.
  cbn [div].
  pose proof (pow2_pos (Z.max 0 (ex - ey)) ltac:(lia)).
  pose proof (pow2_pos (Z.max 0 (ey - ex)) ltac:(lia)).
  apply round_ratio_valid; nia.
Qed.

Lemma add_valid (x y : float) :
  valid x = true -> valid y = true -> valid (add x y) = true.
Proof.
  intros Hx Hy.
  destruct x as [sx|sx| |sx mx ex], y as [sy|sy| |sy my ey];
    try reflexivity; try assumption.
  - cbn [add]. destruct (Bool.eqb sx sy); reflexivity.
  - cbn [add]. apply round_dyadic_valid. lia.
Qed.

Lemma sub_valid (x y : float) :
  valid x = true -> valid y = true -> valid (sub x y) = true.
Proof.
  intros Hx Hy. apply add_valid; [assumption|now apply neg_valid].
Qed.

Lemma of_int_valid (z : Z) (f : float) : of_int z = Ok f -> valid f = true.
Proof.
  unfold of_int. destruct (is_inf _); [discriminate|].
  intros H. injection H as <-. apply round_ratio_valid; lia.
Qed.

Lemma int_truediv_valid (a b : Z) (f : float) :
  int_truediv a b = Ok f -> valid f = true.
Proof.
  unfold int_truediv. destruct (Z.eqb_spec b 0); [discriminate|].
  destruct (is_inf _); [discriminate|].
  intros H. injection H as <-. apply round_ratio_valid; lia.
Qed.

Lemma square_valid (x f : float) : square x = Ok f -> valid f = true.
Proof.
  unfold square. destruct (_ && _); [discriminate|].
  intros H. injection H as <-. apply mul_valid.
Qed.

(** *** Multiplying by one and by zero, adding a zero *)

Lemma mul_one (x : float) : valid x = true -> mul x f_one = x.
Proof.
  intros Hv. destruct x as [s|s| |s m e]; try reflexivity.
  - cbn. now destruct s.
  - cbn. now destruct s.
  - cbn [mul f_one]. rewrite xorb_false_r.
    change (Z.pos m * 4503599627370496) with (Z.pos m * 2 ^ 52).
    replace (e + -52) with (e - 52) by ring.
    apply round_dyadic_exact; [assumption|lia].
Qed.

End F64Facts.

(** ** The float model against the hardware floats *)

Example probes_valid : forallb F64.valid probes = true.
Proof. vm_compute. reflexivity. Qed.

Example probes_roundtrip :
  forallb (fun x => same_float x (Prim2SF (SF2Prim x))) probes = true.
Proof. vm_compute. reflexivity. Qed.

Example mul_agrees : agree F64.mul PrimFloat.mul = true.
Proof. vm_compute. reflexivity. Qed.

Example div_agrees : agree F64.div PrimFloat.div = true.
Proof. vm_compute. reflexivity. Qed.

Example add_agrees : agree F64.add PrimFloat.add = true.
Proof. vm_compute. reflexivity. Qed.

Example sub_agrees : agree F64.sub PrimFloat.sub = true.
Proof. vm_compute. reflexivity. Qed.

Example eqb_agrees :
  forallb (fun x =>
    forallb (fun y =>
      Bool.eqb (F64.eqb x y) (PrimFloat.eqb (SF2Prim x) (SF2Prim y))) probes)
    probes = true.
Proof. vm_compute. reflexivity. Qed.

Example int_truediv_agrees :
  forallb (fun '(a, b) =>
    match F64.int_truediv a b with
    | Ok q => same_float q
                (Prim2SF (PrimFloat.div (SF2Prim (F64.round_ratio (a <? 0) (Z.abs a) 1))
                                        (SF2Prim (F64.round_ratio (b <? 0) (Z.abs b) 1))))
    | Raise _ => false
    end)
    [(1, 3); (-7, 2); (255, 256); (0, -5); (10, 4); (9007199254740991, 7);
     (65025, 255); (-1, 9007199254740991)] = true.
Proof. vm_compute. reflexivity. Qed.

(** ** pixel.py: the accumulator *)

Section PixelFacts.

Import Pixel.

Lemma mixed_exact (old hits c w : Z) :
  0 <= old * hits + c * w < 2 ^ 53 -> 0 < hits + w ->
  mixed old hits c w = Ok ((old * hits + c * w) / (hits + w)).
Proof.
  intros Hn Hd. unfold mixed. now apply F64Facts.truediv_to_int_exact.
Qed.

Lemma mixed_in_range (old hits c w : Z) :
  0 <= old <= 255 -> 0 <= c <= 255 -> 0 <= hits -> 0 <= w -> 0 < hits + w ->
  exists v, mixed old hits c w = Ok v /\ 0 <= v <= 255.
Proof.
  intros Ho Hc Hh Hw Hd. unfold mixed.
  apply F64Facts.truediv_to_int_255; nia.
Qed.

Lemma mixed_zero_division (old hits c w : Z) :
  hits + w = 0 -> mixed old hits c w = Raise ZeroDivisionError.
Proof.
  intros H. unfold mixed, F64.int_truediv. rewrite H. reflexivity.
Qed.

(** With a total weight of zero the first assignment raises and the pixel
    is left as it was. *)
Lemma mix_color_zero_division (self : t) (color : Z * Z * Z) (weight : Z) :
  hit_count self + weight = 0 ->
  mix_color self color weight = (self, Raise ZeroDivisionError).
Proof.
  intros H. unfold mix_color. destruct color as [[c0 c1] c2].
  now rewrite mixed_zero_division.
Qed.

(** The call returns on a pixel in range for a colour in range and a
    weight that is not negative, the total weight being positive; the
    channels stay in range and the count goes up by one. *)
Lemma mix_color_in_range (self : t) (color : Z * Z * Z) (weight : Z) :
  in_range self -> 0 <= hit_count self -> color_ok color ->
  0 <= weight -> 0 < hit_count self + weight ->
  exists self', mix_color self color weight = (self', Ok tt) /\
                in_range self' /\ hit_count self' = hit_count self + 1.
Proof.
  intros (Hr & Hg & Hb) Hh Hc Hw Hd. destruct color as [[c0 c1] c2].
  destruct Hc as (H0 & H1 & H2). unfold mix_color.
  destruct (mixed_in_range (r self) (hit_count self) c0 weight)
    as (v0 & -> & Hv0); try assumption.
  cbn [set_r g hit_count].
  destruct (mixed_in_range (g self) (hit_count self) c1 weight)
    as (v1 & -> & Hv1); try assumption.
  cbn [set_g set_r b hit_count].
  destruct (mixed_in_range (b self) (hit_count self) c2 weight)
    as (v2 & -> & Hv2); try assumption.
  eexists. split; [reflexivity|].
  unfold in_range. cbn. repeat split; lia.
Qed.

Lemma mix_each_in_range (colors : list (Z * Z * Z)) :
  Forall color_ok colors ->
  forall self, in_range self -> 0 <= hit_count self ->
  exists self', mix_each self colors = (self', Ok tt) /\ in_range self' /\
                hit_count self' = hit_count self + Z.of_nat (length colors).
Proof.
  induction 1 as [|c cs Hc Hcs IH]; intros self Hin Hh.
  - exists self. cbn. repeat split; try apply Hin. lia.
  - destruct (mix_color_in_range self c 1 Hin Hh Hc) as (p & Hp & Hpin & Hph);
      try lia.
    destruct (IH p Hpin ltac:(lia)) as (q & Hq & Hqin & Hqh).
    exists q. cbn [mix_each]. rewrite Hp. split; [assumption|].
    split; [assumption|]. cbn [length]. lia.
Qed.

(** C1, as amended.  On a pixel whose channels and count are not negative,
    for a colour and a weight that are not negative, the total weight being
    positive and each numerator below [2^53], [mix_color] sets each channel
    to the floor of [(old * hit_count + new * weight) / (hit_count + weight)]
    and adds exactly one to the count, whatever the weight. *)
Theorem mix_color_floor (self : t) (c0 c1 c2 weight : Z) :
  0 <= r self -> 0 <= g self -> 0 <= b self -> 0 <= hit_count self ->
  0 <= c0 -> 0 <= c1 -> 0 <= c2 -> 0 <= weight ->
  0 < hit_count self + weight ->
  r self * hit_count self + c0 * weight < 2 ^ 53 ->
  g self * hit_count self + c1 * weight < 2 ^ 53 ->
  b self * hit_count self + c2 * weight < 2 ^ 53 ->
  mix_color self (c0, c1, c2) weight
  = (Spec.mix self (c0, c1, c2) weight, Ok tt).
Proof.
  intros Hr Hg Hb Hh H0 H1 H2 Hw Hd Hn0 Hn1 Hn2.
  unfold mix_color, Spec.mix.
  rewrite mixed_exact; [|split; [nia|assumption]|assumption].
  cbn [set_r g hit_count].
  rewrite mixed_exact; [|split; [nia|assumption]|assumption].
  cbn [set_g set_r b hit_count].
  rewrite mixed_exact; [|split; [nia|assumption]|assumption].
  reflexivity.
Qed.

Lemma mix_color_floor_witness :
  mix_color (mk 10 20 255 1) (11, 21, 0) 3
  = (Spec.mix (mk 10 20 255 1) (11, 21, 0) 3, Ok tt).
Proof.
  apply mix_color_floor; cbn; lia.
Defined.

(** C1 as stated fails: on a fresh pixel a weight of zero ends in
    [ZeroDivisionError], and nothing is set or counted. *)
Lemma mix_color_floor_counterexample :
  ~ (forall self color weight,
       mix_color self color weight = (Spec.mix self color weight, Ok tt)).
Proof.
  intros H. specialize (H init (0, 0, 0) 0). discriminate H.
Qed.

(** [int] truncates toward zero: with a negative weight the quotient can be
    negative, and the channel is one above the floor. *)
Example mix_color_negative_weight :
  mix_color (mk 0 0 0 3) (7, 0, 0) (-1) = (mk (-3) 0 0 4, Ok tt) /\
  Spec.mix (mk 0 0 0 3) (7, 0, 0) (-1) = mk (-4) 0 0 4.
Proof. vm_compute. split; reflexivity. Qed.

(** The quotient goes through a float: past [2^53] it is rounded before it
    is truncated, here up to the next integer. *)
Example mix_color_large_count :
  mix_color (mk 255 0 0 (2 ^ 47)) (254, 0, 0) 1 = (mk 255 0 0 (2 ^ 47 + 1), Ok tt) /\
  Spec.mix (mk 255 0 0 (2 ^ 47)) (254, 0, 0) 1 = mk 254 0 0 (2 ^ 47 + 1).
Proof. vm_compute. split; reflexivity. Qed.

(** C4.  From the zero-initialised pixel, after every call of a sequence of
    [mix_color] calls with the default weight and colours within [0, 255],
    the call has returned, the channels are integers within [0, 255], and
    the count is the number of calls made: each call adds exactly one. *)
Theorem mix_color_keeps_range (colors : list (Z * Z * Z)) (k : nat) :
  Forall color_ok colors ->
  exists self, mix_each init (firstn k colors) = (self, Ok tt) /\
               in_range self /\
               hit_count self = Z.of_nat (Nat.min k (length colors)).
Proof.
  intros Hc.
  destruct (mix_each_in_range (firstn k colors)) with (self := init)
    as (p & Hp & Hin & Hh).
  - rewrite <- (firstn_skipn k colors) in Hc.
    apply Forall_app in Hc. apply Hc.
  - unfold in_range. cbn. lia.
  - cbn. lia.
  - exists p. rewrite length_firstn in Hh. cbn in Hh. auto.
Qed.

Lemma mix_color_keeps_range_witness :
  exists self,
    mix_each init (firstn 2 [(255, 0, 7); (0, 255, 8); (1, 2, 3)]) = (self, Ok tt) /\
    in_range self /\
    hit_count self = Z.of_nat (Nat.min 2 (length [(255, 0, 7); (0, 255, 8); (1, 2, 3)])).
Proof.
  apply mix_color_keeps_range.
  repeat constructor; cbn; lia.
Defined.

(** C8, as amended.  On a pixel with channels within [0, 255] and a count
    that is not negative, for a colour within [0, 255] and a weight that is
    not negative, the total weight being positive, [mix_color] returns. *)
Theorem mix_color_returns (self : t) (color : Z * Z * Z) (weight : Z) :
  in_range self -> 0 <= hit_count self -> color_ok color ->
  0 <= weight -> 0 < hit_count self + weight ->
  snd (mix_color self color weight) = Ok tt.
Proof.
  intros Hin Hh Hc Hw Hd.
  destruct (mix_color_in_range self color weight Hin Hh Hc Hw Hd)
    as (p & -> & _). reflexivity.
Qed.

Lemma mix_color_returns_witness :
  snd (mix_color (mk 255 0 17 4) (0, 255, 30) 0) = Ok tt.
Proof.
  apply mix_color_returns; unfold in_range, color_ok; cbn; lia.
Defined.

(** C8 as stated fails: the interface accepts the weight zero, and on a
    fresh pixel the call raises [ZeroDivisionError]. *)
Lemma mix_color_returns_counterexample :
  ~ (forall self color weight,
       0 <= hit_count self -> color_ok color ->
       returns (snd (mix_color self color weight))).
Proof.
  intros H.
  destruct (H init (0, 0, 0) 0) as [u Hu]; [cbn; lia|cbn; lia|].
  discriminate Hu.
Qed.

(** A negative weight can also cancel a large count, and a channel can be
    out of range: the quotient then overflows the float. *)
Example mix_color_overflow :
  snd (mix_color (mk 255 0 0 (2 ^ 1100)) (0, 0, 0) (1 - 2 ^ 1100))
  = Raise OverflowError /\
  snd (mix_color (mk (2 ^ 1100) 0 0 1) (0, 0, 0) 1) = Raise OverflowError.
Proof. vm_compute. split; reflexivity. Qed.

End PixelFacts.

(** ** Python lists *)

Section SequenceFacts.

Context {A : Type}.

Lemma getitem_in_bounds (l : list A) (i : Z) :
  0 <= i < len l ->
  exists a, nth_error l (Z.to_nat i) = Some a /\ getitem l i = Ok a.
Proof.
  intros Hi. unfold getitem, position.
  destruct (Z.ltb_spec i 0); [lia|].
  destruct (Z.leb_spec 0 i); [|lia]. destruct (Z.ltb_spec i (len l)); [|lia].
  cbn [andb bind].
  destruct (nth_error l (Z.to_nat i)) as [a|] eqn:Hn.
  - exists a. auto.
  - apply nth_error_None in Hn. unfold len in Hi. lia.
Qed.

Lemma length_store (l : list A) (k : nat) (a : A) :
  length (store l k a) = length l.
Proof.
  revert k. induction l as [|x l IH]; intros [|k]; cbn; auto.
Qed.

Lemma nth_error_store_same (l : list A) (k : nat) (a : A) :
  (k < length l)%nat -> nth_error (store l k a) k = Some a.
Proof.
  revert k. induction l as [|x l IH]; intros [|k] Hk; cbn in *; try lia; auto.
  apply IH. lia.
Qed.

Lemma nth_error_store_other (l : list A) (k j : nat) (a : A) :
  j <> k -> nth_error (store l k a) j = nth_error l j.
Proof.
  revert k j. induction l as [|x l IH]; intros [|k] [|j] Hne; cbn; auto.
  contradiction.
Qed.

End SequenceFacts.

(** ** fractal_image.py: the image buffer *)

Section ImageFacts.

Import FractalImage.

Lemma contains_true (self : t) (x y : Z) :
  contains self x y = true <-> (0 <= x < width self /\ 0 <= y < height self).
Proof.
  unfold contains. rewrite !andb_true_iff, !Z.leb_le, !Z.ltb_lt. tauto.
Qed.

Lemma contains_false (self : t) (x y : Z) :
  contains self x y = false <-> ~ (0 <= x < width self /\ 0 <= y < height self).
Proof.
  rewrite <- contains_true. destruct (contains self x y); split; intros H;
    congruence.
Qed.

(** C6.  For all integers [x] and [y], negative and arbitrarily large ones
    included, [contains(x, y)] is true exactly when [0 <= x < width] and
    [0 <= y < height]. *)
Theorem contains_iff (self : t) (x y : Z) :
  contains self x y = true <-> (0 <= x < width self /\ 0 <= y < height self).
Proof.
  unfold contains. split.
  - intros H. apply andb_prop in H as [Hx Hy].
    apply andb_prop in Hx as [Hx0 Hxw]. apply andb_prop in Hy as [Hy0 Hyh].
    apply Z.leb_le in Hx0, Hy0. apply Z.ltb_lt in Hxw, Hyh. lia.
  - intros [[Hx0 Hxw] [Hy0 Hyh]].
    apply Z.leb_le in Hx0, Hy0. apply Z.ltb_lt in Hxw, Hyh.
    now rewrite Hx0, Hxw, Hy0, Hyh.
Qed.

(** Outside the raster [add_hit] returns and the image is the same object
    with the same pixels, whatever the shape of the image. *)
Lemma add_hit_outside (self : t) (x y : Z) (color : Z * Z * Z) :
  ~ (0 <= x < width self /\ 0 <= y < height self) ->
  add_hit self x y color = (self, Ok tt).
Proof.
  intros H. apply contains_false in H. unfold add_hit. now rewrite H.
Qed.

Lemma init_well_formed (w h : Z) :
  0 <= w -> 0 <= h -> well_formed (init w h).
Proof.
  intros Hw Hh. unfold well_formed, init. cbn.
  repeat split; try assumption.
  - apply repeat_length.
  - apply Forall_forall. intros row Hin. apply repeat_spec in Hin.
    subst row. apply repeat_length.
Qed.

(** C3.  On an image of the shape the constructor builds, [add_hit] at a
    coordinate pair outside the raster, negative values included, returns
    without an exception and leaves the image as it was; inside the raster
    it calls [mix_color] with the colour on the pixel of column [x] in row
    [y]: that pixel becomes what [mix_color] makes of it, the call ends as
    [mix_color] does, and every other pixel and the dimensions stay. *)
Theorem add_hit_spec (self : t) (x y : Z) (color : Z * Z * Z) :
  well_formed self ->
  if contains self x y then
    exists pixel,
      pixel_at self (Z.to_nat x) (Z.to_nat y) = Some pixel /\
      let self' := fst (add_hit self x y color) in
      snd (add_hit self x y color) = snd (Pixel.mix_color pixel color 1) /\
      pixel_at self' (Z.to_nat x) (Z.to_nat y)
      = Some (fst (Pixel.mix_color pixel color 1)) /\
      (forall i j, (i, j) <> (Z.to_nat x, Z.to_nat y) ->
                   pixel_at self' i j = pixel_at self i j) /\
      width self' = width self /\ height self' = height self /\
      well_formed self'
  else add_hit self x y color = (self, Ok tt).
Proof.
  intros (Hw & Hh & Hlen & Hrows).
  destruct (contains self x y) eqn:Hc.
  2:{ unfold add_hit. now rewrite Hc. }
  apply contains_true in Hc as [Hx Hy].
  unfold add_hit.
  rewrite (proj2 (contains_true self x y)) by auto.
  destruct (getitem_in_bounds (data self) y) as (row & Hrow & ->).
  { unfold len. lia. }
  assert (length row = Z.to_nat (width self)) as Hrl.
  { rewrite Forall_forall in Hrows. apply Hrows.
    eapply nth_error_In; eassumption. }
  destruct (getitem_in_bounds row x) as (pixel & Hpix & ->).
  { unfold len. lia. }
  exists pixel. unfold pixel_at at 1. rewrite Hrow. split; [assumption|].
  destruct (Pixel.mix_color pixel color 1) as [pixel' res].
  cbn [fst snd]. split; [reflexivity|].
  unfold pixel_at, set_data. cbn [data width height].
  split.
  { rewrite nth_error_store_same by lia.
    apply nth_error_store_same. lia. }
  split.
  { intros i j Hij.
    destruct (Nat.eq_dec j (Z.to_nat y)) as [->|Hj].
    - rewrite nth_error_store_same by lia. rewrite Hrow.
      apply nth_error_store_other. congruence.
    - now rewrite nth_error_store_other by assumption. }
  repeat split; try assumption.
  - cbn. now rewrite length_store.
  - cbn [data width]. apply Forall_forall. intros l Hin.
    apply In_nth_error in Hin as [j Hj].
    destruct (Nat.eq_dec j (Z.to_nat y)) as [->|Hne].
    + rewrite nth_error_store_same in Hj by lia.
      injection Hj as <-. now rewrite length_store.
    + rewrite nth_error_store_other in Hj by assumption.
      rewrite Forall_forall in Hrows. apply Hrows.
      eapply nth_error_In; eassumption.
Qed.

Lemma add_hit_spec_witness :
  (if contains (init 3 2) 2 1 then
     exists pixel,
       pixel_at (init 3 2) (Z.to_nat 2) (Z.to_nat 1) = Some pixel /\
       let self' := fst (add_hit (init 3 2) 2 1 (9, 8, 7)) in
       snd (add_hit (init 3 2) 2 1 (9, 8, 7))
       = snd (Pixel.mix_color pixel (9, 8, 7) 1) /\
       pixel_at self' (Z.to_nat 2) (Z.to_nat 1)
       = Some (fst (Pixel.mix_color pixel (9, 8, 7) 1)) /\
       (forall i j, (i, j) <> (Z.to_nat 2, Z.to_nat 1) ->
                    pixel_at self' i j = pixel_at (init 3 2) i j) /\
       width self' = width (init 3 2) /\ height self' = height (init 3 2) /\
       well_formed self'
   else add_hit (init 3 2) 2 1 (9, 8, 7) = (init 3 2, Ok tt)) /\
  (if contains (init 3 2) (-1) 1 then
     exists pixel,
       pixel_at (init 3 2) (Z.to_nat (-1)) (Z.to_nat 1) = Some pixel /\
       let self' := fst (add_hit (init 3 2) (-1) 1 (9, 8, 7)) in
       snd (add_hit (init 3 2) (-1) 1 (9, 8, 7))
       = snd (Pixel.mix_color pixel (9, 8, 7) 1) /\
       pixel_at self' (Z.to_nat (-1)) (Z.to_nat 1)
       = Some (fst (Pixel.mix_color pixel (9, 8, 7) 1)) /\
       (forall i j, (i, j) <> (Z.to_nat (-1), Z.to_nat 1) ->
                    pixel_at self' i j = pixel_at (init 3 2) i j) /\
       width self' = width (init 3 2) /\ height self' = height (init 3 2) /\
       well_formed self'
   else add_hit (init 3 2) (-1) 1 (9, 8, 7) = (init 3 2, Ok tt)).
Proof.
  split; apply add_hit_spec; apply init_well_formed; lia.
Defined.

Example add_hit_examples :
  add_hit (init 2 1) 1 0 (9, 8, 7)
  = (mk 2 1 [[Pixel.init; Pixel.mk 9 8 7 1]], Ok tt) /\
  add_hit (init 2 1) (-1) 0 (9, 8, 7) = (init 2 1, Ok tt) /\
  add_hit (init 2 1) 0 (-1) (9, 8, 7) = (init 2 1, Ok tt) /\
  add_hit (init 2 1) 2 0 (9, 8, 7) = (init 2 1, Ok tt) /\
  add_hit (init 2 1) 0 1 (9, 8, 7) = (init 2 1, Ok tt).
Proof. vm_compute. repeat split. Qed.

End ImageFacts.

(** ** main.py: the transformations *)

Section TransformFacts.

(** C7, as amended.  [spherical] applied to a point whose two coordinates
    are zero (the int [0] or a float zero of either sign) returns the point
    [(0, 0)] through its zero-radius branch: it does not divide and raises
    nothing. *)
Theorem spherical_origin (x y : Num.t) :
  Num.is_zero x = true -> Num.is_zero y = true ->
  spherical (Point.mk x y) = Ok (Point.mk (Num.Int 0) (Num.Int 0)).
Proof.
  intros Hx Hy. unfold spherical. cbn [Point.x Point.y].
  destruct x as [x|[sx| | |]], y as [y|[sy| | |]]; cbn in Hx, Hy;
    try discriminate;
    repeat match goal with
           | H : (_ =? 0) = true |- _ => apply Z.eqb_eq in H; subst
           end;
    reflexivity.
Qed.

Lemma spherical_origin_witness :
  spherical (Point.mk (Num.Float f_zero) (Num.Float (S754_zero true)))
  = Ok (Point.mk (Num.Int 0) (Num.Int 0)).
Proof.
  apply spherical_origin; reflexivity.
Defined.

(** C7 as stated fails in its general half: [spherical] has no fallback
    away from the origin.  On the finite point [(1e200, 0.0)] the square
    overflows and the call ends in [OverflowError] instead of returning a
    point. *)
Lemma spherical_defined_counterexample :
  ~ (forall p, Point.defined p = true ->
               exists q, spherical p = Ok q /\ Point.defined q = true).
Proof.
  intros H.
  destruct (H (Point.mk (Num.Float f_1e200) (Num.Float f_zero)))
    as (q & Hq & _); [reflexivity|].
  vm_compute in Hq. discriminate Hq.
Qed.

(** An infinite coordinate comes back as NaN, and [linear] and [diamond]
    hand a NaN on: no transform replaces an undefined value by a fixed
    point. *)
Example transforms_propagate :
  spherical (Point.mk (Num.Float (S754_infinity false)) (Num.Float f_zero))
  = Ok (Point.mk (Num.Float S754_nan) (Num.Float f_zero)) /\
  linear (Point.mk (Num.Float S754_nan) (Num.Float f_zero))
  = Ok (Point.mk (Num.Float S754_nan) (Num.Float f_zero)) /\
  diamond (Point.mk (Num.Float S754_nan) (Num.Float (S754_infinity true)))
  = Ok (Point.mk (Num.Float S754_nan) (Num.Float (S754_infinity false))).
Proof. vm_compute. repeat split. Qed.

(** [sinusoidal] raises on an infinite coordinate whenever the libm sine of
    an infinity is NaN, as IEEE 754 has it. *)
Lemma sinusoidal_infinite (libm_sin : F64.float -> F64.float) (s : bool) (y : Num.t) :
  libm_sin (S754_infinity s) = S754_nan ->
  sinusoidal libm_sin (Point.mk (Num.Float (S754_infinity s)) y)
  = Raise ValueError.
Proof.
  intros H. unfold sinusoidal, sin, Num.math_1. cbn. now rewrite H.
Qed.

End TransformFacts.

(** ** main.py: the coordinate mapping *)

Section MappingFacts.

(** [int] and the floor agree on a float that is not negative. *)
Lemma to_int_floor_nonnegative (m : positive) (e : Z) :
  F64.to_int (S754_finite false m e) = Spec.floor (S754_finite false m e).
Proof. reflexivity. Qed.

(** C2, at the failing input.  With the world rectangle of [main] and an
    8 by 8 image, the point [(-1.75, 0.0)] lies left of the world:
    [(px - worldX) / worldWidth * imageWidth] is [-2/3], which [int]
    truncates to column 0, so the code returns the pixel [(0, 4)]; with the
    floor of the claim the column is [-1] and the point is dropped. *)
Theorem map_to_pixel_truncates :
  map_to_pixel main_world
    (Point.mk (Num.Float f_minus_1_75) (Num.Float f_zero))
    (FractalImage.init 8 8) = Ok (Some (0, 4)) /\
  Spec.map_to_pixel main_world
    (Point.mk (Num.Float f_minus_1_75) (Num.Float f_zero))
    (FractalImage.init 8 8) = Ok None /\
  pixel_index (Num.Float f_minus_1_75) (Rect.x main_world)
    (Rect.width main_world) 8 = Ok 0 /\
  Spec.pixel_index (Num.Float f_minus_1_75) (Rect.x main_world)
    (Rect.width main_world) 8 = Ok (-1).
Proof. vm_compute. repeat split. Qed.

(** Inside the world the two agree, as on the centre of the world. *)
Example map_to_pixel_centre :
  map_to_pixel main_world (Point.mk (Num.Float f_zero) (Num.Float f_zero))
    (FractalImage.init 8 8) = Ok (Some (4, 4)) /\
  Spec.map_to_pixel main_world (Point.mk (Num.Float f_zero) (Num.Float f_zero))
    (FractalImage.init 8 8) = Ok (Some (4, 4)).
Proof. vm_compute. split; reflexivity. Qed.

End MappingFacts.

(** ** main.py: the colour of a hit *)

Section ColourFacts.

Import F64 F64Facts.

(** C9, what the code does.  For every draw [u] of [random.random()], a
    float with [0 <= u < 1], the channel [int(255 * u)] is an integer from
    0 to 254: the value 255 is never produced. *)
Theorem channel_below_255 (u : F64.float) :
  valid u = true -> in_unit_interval u = true ->
  exists c, channel_of (Num.Float u) = Ok c /\ 0 <= c <= 254.
Proof.
  intros Hv Hu. unfold channel_of, Num.mul, Num.arith.
  change (Num.to_float (Num.Int 255))
    with (Ok (S754_finite false 8972014882652160 (-45)) : result float).
  cbn [bind Num.to_float].
  destruct u as [s| | |[|] m e]; try discriminate.
  - exists 0. cbn. split; [reflexivity|lia].
  - cbn [valid in_unit_interval] in Hv, Hu.
    apply andb_prop in Hu as [He Hm1].
    apply Z.ltb_lt in He, Hm1.
    apply andb_prop in Hv as [Hv _]. apply andb_prop in Hv as [Hv _].
    apply andb_prop in Hv as [Hm53 Hemin].
    apply Z.ltb_lt in Hm53. apply Z.leb_le in Hemin.
    change (2 ^ prec) with 9007199254740992 in Hm53.
    cbn [F64.mul xorb Num.to_int]. unfold round_dyadic.
    destruct (Z.leb_spec 0 (-45 + e)); [lia|].
    pose proof (pow2_pos (- e) ltac:(lia)) as HP.
    assert (2 ^ (- (-45 + e)) = 35184372088832 * 2 ^ (- e)) as Hp45.
    { replace (- (-45 + e)) with (45 + - e) by ring.
      rewrite pow2_add by lia. reflexivity. }
    assert (2 ^ (- e) <= 9007199254740992 \/ 18014398509481984 <= 2 ^ (- e)) as Hcase.
    { destruct (Z.le_gt_cases (- e) 53).
      - left. change 9007199254740992 with (2 ^ 53). apply pow2_le. lia.
      - right. change 18014398509481984 with (2 ^ 54). apply pow2_le. lia. }
    assert (2 ^ 52 <= 8972014882652159 < 2 ^ 53) as HM by (cbv; intuition congruence).
    assert (emin <= -45 <= 0) as HE by (cbv; intuition congruence).
    assert (2 * (8972014882652160 * Z.pos m * 2 ^ (- -45))
            < (2 * 8972014882652159 + 1) * 2 ^ (- (-45 + e))) as Hmid.
    { rewrite Hp45. change (2 ^ (- -45)) with 35184372088832.
      destruct Hcase; lia. }
    destruct (to_int_round_ratio_le (8972014882652160 * Z.pos m)
                (2 ^ (- (-45 + e))) 8972014882652159 (-45)
                ltac:(lia) ltac:(lia) HM HE Hmid)
      as (v & Hvv & Hb & _).
    exists v. split; [assumption|].
    change (8972014882652159 / 2 ^ (- -45)) with 254 in Hb. lia.
Qed.

Lemma channel_below_255_witness :
  exists c, channel_of (Num.Float f_below_one) = Ok c /\ 0 <= c <= 254.
Proof.
  apply channel_below_255; reflexivity.
Defined.

(** The largest draw, [1 - 2^-53], gives 254, and the draw needed for 255
    would be [1.0], which [random.random()] never returns. *)
Example channel_extremes :
  channel_of (Num.Float f_below_one) = Ok 254 /\
  channel_of (Num.Float f_zero) = Ok 0 /\
  channel_of (Num.Float f_one) = Ok 255 /\
  in_unit_interval f_one = false.
Proof. vm_compute. repeat split. Qed.

End ColourFacts.

(** ** main.py: the parallel driver *)

Section StoreFacts.

Context {A : Type}.

Lemma Forall_store (P : A -> Prop) (l : list A) (k : nat) (a : A) :
  Forall P l -> P a -> Forall P (store l k a).
Proof.
  intros Hl Ha. revert k.
  induction Hl as [|x l Hx Hl IH]; intros [|k]; cbn; auto.
Qed.

Lemma firstn_store_ge (l : list A) (i k : nat) (a : A) :
  (i <= k)%nat -> firstn i (store l k a) = firstn i l.
Proof.
  revert i k. induction l as [|x l IH]; intros [|i] [|k] Hik; cbn;
    try reflexivity; try lia.
  f_equal. apply IH. lia.
Qed.

Lemma firstn_succ_nth_error (l : list A) (i : nat) (a : A) :
  nth_error l i = Some a -> firstn (S i) l = firstn i l ++ [a].
Proof.
  revert i. induction l as [|x l IH]; intros [|i] H; cbn in *;
    try discriminate.
  - now injection H as ->.
  - f_equal. now apply IH.
Qed.

Lemma nth_error_firstn_lt (l : list A) (i j : nat) :
  (j < i)%nat -> nth_error (firstn i l) j = nth_error l j.
Proof.
  revert i j. induction l as [|x l IH]; intros [|i] [|j] H; cbn;
    try reflexivity; try lia.
  apply IH. lia.
Qed.

End StoreFacts.

Section DriverFacts.

Variables libm_sin libm_cos : F64.float -> F64.float.
Variable rng : Type.
Variable next_random : rng -> F64.float * rng.
Variable next_below : Z -> rng -> Z * rng.
Variable world : Rect.t.
Variable transformations : list (Point.t -> result Point.t).
Variables iter_per_sample symmetry : Z.
Variable per_thread : Z.

Local Abbreviation pwork :=
  (work libm_sin libm_cos rng next_random next_below
     world transformations iter_per_sample symmetry).
Local Abbreviation pstep :=
  (step libm_sin libm_cos rng next_random next_below
     world transformations iter_per_sample symmetry).
Local Abbreviation psteps :=
  (steps libm_sin libm_cos rng next_random next_below
     world transformations iter_per_sample symmetry).
Local Abbreviation psample :=
  (sample libm_sin libm_cos rng next_random next_below
     world transformations iter_per_sample symmetry).

Lemma steps_trans (p q r : pool rng) :
  psteps p q -> psteps q r -> psteps p r.
Proof.
  induction 1; intros; [assumption|].
  eapply steps_step; eauto.
Qed.

(** *** One worker step *)

Lemma work_ok (s : state rng) (f : future) :
  future_ok per_thread f ->
  future_ok per_thread (snd (pwork s f)).
Proof.
  intros [Ha Hs]. unfold work.
  destruct (status f) as [[|todo]| |e] eqn:Hst.
  - split; cbn; [assumption|lia].
  - destruct (psample s) as [s' [u|e]]; split; cbn; try assumption; lia.
  - cbn [snd]. split; [assumption|]. now rewrite Hst.
  - cbn [snd]. split; [assumption|]. now rewrite Hst.
Qed.

Lemma work_cost (s : state rng) (f : future) :
  is_running f = true ->
  (future_cost (snd (pwork s f)) < future_cost f)%nat.
Proof.
  unfold is_running, work, future_cost.
  destruct (status f) as [[|todo]| |e]; try discriminate; intros _.
  - cbn. lia.
  - destruct (psample s) as [s' [u|e]]; cbn; lia.
Qed.

Lemma running_not_finished (f : future) :
  is_running f = true -> is_finished f = false.
Proof.
  unfold is_running, is_finished. destruct (status f); congruence.
Qed.

Lemma cost_store (fs : list future) (i : nat) (f f' : future) :
  nth_error fs i = Some f ->
  (fold_right (fun f n => future_cost f + n) O (store fs i f') + future_cost f
   = fold_right (fun f n => future_cost f + n) O fs + future_cost f')%nat.
Proof.
  revert i. induction fs as [|x fs IH]; intros [|i] H; cbn in *;
    try discriminate.
  - injection H as ->. lia.
  - specialize (IH i H). lia.
Qed.

Lemma finished_prefix (fs : list future) (i j : nat) (f : future) :
  forallb is_finished (firstn i fs) = true ->
  nth_error fs j = Some f -> is_running f = true -> (i <= j)%nat.
Proof.
  intros Hall Hj Hrun.
  destruct (Nat.le_gt_cases i j) as [|Hlt]; [assumption|exfalso].
  rewrite forallb_forall in Hall.
  rewrite <- (nth_error_firstn_lt fs i j Hlt) in Hj.
  apply nth_error_In in Hj. apply Hall in Hj.
  rewrite running_not_finished in Hj by assumption. discriminate.
Qed.

Lemma all_finished_none_running (fs : list future) (i : nat) (f : future) :
  forallb is_finished fs = true ->
  nth_error fs i = Some f -> is_running f = true -> False.
Proof.
  intros Hall Hi Hrun. rewrite forallb_forall in Hall.
  apply nth_error_In in Hi. apply Hall in Hi.
  rewrite running_not_finished in Hi by assumption. discriminate.
Qed.

Lemma none_running (fs : list future) (i : nat) (f : future) :
  existsb is_running fs = false ->
  nth_error fs i = Some f -> is_running f = true -> False.
Proof.
  intros Hnone Hi Hrun. apply nth_error_In in Hi.
  assert (existsb is_running fs = true) as H.
  { apply existsb_exists. eauto. }
  congruence.
Qed.

Lemma all_finished_not_running (fs : list future) :
  forallb is_finished fs = true -> existsb is_running fs = false.
Proof.
  intros Hall. destruct (existsb is_running fs) eqn:Hex; [|reflexivity].
  apply existsb_exists in Hex as (f & Hin & Hrun).
  rewrite forallb_forall in Hall. apply Hall in Hin.
  rewrite running_not_finished in Hin by assumption. discriminate.
Qed.

(** *** The invariant *)

Lemma step_ok (n : nat) (p q : pool rng) :
  pstep p q -> pool_ok per_thread n p -> pool_ok per_thread n q.
Proof.
  intros Hstep (Hspt & Hfs & Hd).
  destruct Hstep as [p i f Hi Hrun|p k Hpc|p Hpc|p i f Hpc Hi Hst
                    |p i f e Hpc Hi Hst|p i Hpc Hi|p o Hpc Hnone];
    (split; [assumption|]); split; cbn [futures pc samples_per_thread];
    try assumption.
  - apply Forall_store; [assumption|]. apply work_ok.
    rewrite Forall_forall in Hfs. apply Hfs. eapply nth_error_In; eassumption.
  - unfold driver_ok in *.
    destruct (pc p) as [k|j|[u|e]|[u|e]]; rewrite ?length_store.
    + assumption.
    + destruct Hd as (Hl & Hj & Hall). repeat split; try assumption.
      rewrite firstn_store_ge; [assumption|].
      eapply finished_prefix; eassumption.
    + exfalso. eapply all_finished_none_running; try eassumption. apply Hd.
    + assumption.
    + exfalso. eapply all_finished_none_running; try eassumption. apply Hd.
    + exfalso. eapply none_running; try eassumption. apply Hd.
  - apply Forall_app. split; [assumption|]. constructor; [|constructor].
    rewrite Hspt. split; cbn; [reflexivity|lia].
  - rewrite Hpc in Hd. cbn [driver_ok] in *. rewrite length_app. cbn. lia.
  - rewrite Hpc in Hd. cbn [driver_ok] in *. repeat split; try lia.
  - rewrite Hpc in Hd. cbn [driver_ok] in *. destruct Hd as (Hl & Hj & Hall).
    assert (i < length (futures p))%nat by (apply nth_error_Some; congruence).
    repeat split; try lia.
    rewrite (firstn_succ_nth_error _ _ _ Hi), forallb_app, Hall. cbn.
    unfold is_finished. now rewrite Hst.
  - rewrite Hpc in Hd. cbn [driver_ok] in *. apply Hd.
  - rewrite Hpc in Hd. cbn [driver_ok] in *. destruct Hd as (Hl & Hj & Hall).
    apply nth_error_None in Hi.
    split; [assumption|]. rewrite firstn_all2 in Hall by assumption. assumption.
  - rewrite Hpc in Hd. cbn [driver_ok] in *. destruct o as [u|e]; [assumption|].
    split; assumption.
Qed.

Lemma steps_ok (n : nat) (p q : pool rng) :
  psteps p q -> pool_ok per_thread n p -> pool_ok per_thread n q.
Proof.
  induction 1; intros; [assumption|]. eauto using step_ok.
Qed.

(** *** Every run ends, and it ends with the driver done *)

Lemma step_cost (p q : pool rng) :
  pstep p q ->
  (pool_cost q < pool_cost p)%nat.
Proof.
  intros Hstep. unfold pool_cost.
  destruct Hstep as [p i f Hi Hrun|p k Hpc|p Hpc|p i f Hpc Hi Hst
                    |p i f e Hpc Hi Hst|p i Hpc Hi|p o Hpc Hnone];
    cbn [futures pc samples_per_thread]; rewrite ?Hpc; cbn [driver_cost].
  - rewrite length_store.
    pose proof (cost_store (futures p) i f (snd (pwork (shared p) f)) Hi).
    pose proof (work_cost (shared p) f Hrun). lia.
  - rewrite fold_right_app, length_app. cbn [fold_right length future_cost submit status].
    assert (forall (fs : list future) c,
              fold_right (fun f n => future_cost f + n) c fs
              = fold_right (fun f n => future_cost f + n) O fs + c)%nat as Hacc.
    { induction fs as [|x fs IH]; intros c; cbn; [reflexivity|].
      rewrite IH. lia. }
    rewrite Hacc. cbn [Nat.mul]. lia.
  - lia.
  - assert (i < length (futures p))%nat by (apply nth_error_Some; congruence).
    lia.
  - lia.
  - lia.
  - lia.
Qed.

Lemma step_available (p : pool rng) :
  (forall o, pc p <> Done o) -> exists q, pstep p q.
Proof.
  intros Hnd. destruct (pc p) as [[|k]|i|o|o] eqn:Hpc.
  - eexists. now apply step_submitted.
  - eexists. eapply step_submit. eassumption.
  - destruct (nth_error (futures p) i) as [f|] eqn:Hi.
    + destruct (status f) as [todo| |e] eqn:Hst.
      * eexists. eapply step_work with (i := i) (f := f); [eassumption|].
        unfold is_running. now rewrite Hst.
      * eexists. eapply step_result; eassumption.
      * eexists. eapply step_result_raises; eassumption.
    + eexists. eapply step_joined; eassumption.
  - destruct (existsb is_running (futures p)) eqn:Hex.
    + apply existsb_exists in Hex as (f & Hin & Hrun).
      apply In_nth_error in Hin as [i Hi].
      eexists. eapply step_work with (i := i) (f := f); eassumption.
    + eexists. eapply step_exit; eassumption.
  - exfalso. now apply (Hnd o).
Qed.

Lemma steps_to_done (p : pool rng) :
  exists q o, psteps p q /\ pc q = Done o.
Proof.
  remember (pool_cost p) as c eqn:Hc.
  revert p Hc. induction c as [c IH] using lt_wf_ind. intros p Hc.
  destruct (pc p) as [k|i|o|o] eqn:Hpc;
    try (destruct (step_available p) as [q Hq]; [rewrite Hpc; discriminate|];
         pose proof (step_cost p q Hq) as Hlt;
         destruct (IH (pool_cost q) ltac:(lia) q eq_refl)
           as (r & o' & Hr & Ho');
         exists r, o'; split; [eapply steps_step; eassumption|assumption]).
  exists p, o. split; [constructor|assumption].
Qed.

Lemma step_well_founded : well_founded (fun q p : pool rng => pstep p q).
Proof.
  apply (Wf_nat.well_founded_lt_compat _ (pool_cost)).
  intros q p. apply step_cost.
Qed.

(** *** A worker alone runs [generate_fractal] *)

Lemma work_alone_idle (fuel : nat) (s : state rng) (f : future) :
  is_running f = false ->
  work_alone libm_sin libm_cos rng next_random next_below
    world transformations iter_per_sample symmetry fuel s f = (s, f).
Proof.
  intros Hf. induction fuel as [|fuel IH]; cbn [work_alone]; [reflexivity|].
  unfold work, is_running in *.
  destruct (status f); try discriminate; assumption.
Qed.

(** The steps of one future, taken in a row, are the loop of
    [generate_fractal]: same final state, and the future is finished when
    the loop returns and failed with the exception the loop raises. *)
Lemma work_alone_generate (todo : nat) :
  forall (i : Z) (s : state rng) (done : nat),
  exists f',
    work_alone libm_sin libm_cos rng next_random next_below
      world transformations iter_per_sample symmetry (S todo) s
      (mkFuture per_thread done (Running todo))
    = (fst (for_range rng todo i (fun _ _ => psample) tt s), f') /\
    status f'
    = match snd (for_range rng todo i (fun _ _ => psample) tt s) with
      | Ok _ => Finished
      | Raise e => Failed e
      end.
Proof.
  induction todo as [|todo IH]; intros i s done.
  - eexists. split; reflexivity.
  - cbn [for_range]. unfold mbind.
    remember (S todo) as fuel eqn:Hfuel.
    cbn [work_alone]. subst fuel.
    unfold work at 1. cbn [status assigned processed].
    destruct (psample s) as [s1 [[]|e]].
    + destruct (IH (i + 1) s1 (S done)) as (f' & Hf' & Hst).
      exists f'. split; assumption.
    + rewrite work_alone_idle by reflexivity.
      eexists. split; reflexivity.
Qed.

End DriverFacts.

Section ParallelDriver.

Variables libm_sin libm_cos : F64.float -> F64.float.
Variable rng : Type.
Variable next_random : rng -> F64.float * rng.
Variable next_below : Z -> rng -> Z * rng.
Variable world : Rect.t.
Variable transformations : list (Point.t -> result Point.t).
Variables iter_per_sample symmetry : Z.

Local Abbreviation pstep :=
  (step libm_sin libm_cos rng next_random next_below
     world transformations iter_per_sample symmetry).
Local Abbreviation psteps :=
  (steps libm_sin libm_cos rng next_random next_below
     world transformations iter_per_sample symmetry).

Lemma start_ok (samples num_threads : Z) (s : state rng) :
  0 <= samples -> 1 <= num_threads ->
  pool_ok (samples / num_threads) (Z.to_nat num_threads)
    (parallel_generate_fractal rng samples num_threads s).
Proof.
  intros Hs Hn. unfold parallel_generate_fractal.
  destruct (Z.eqb_spec num_threads 0); [lia|].
  destruct (Z.ltb_spec num_threads 0); [lia|].
  repeat split. constructor.
Qed.

Lemma total_all_finished (per_thread : Z) (fs : list future) :
  Forall (future_ok per_thread) fs -> forallb is_finished fs = true ->
  fold_right (fun f n => (processed f + n)%nat) O fs
  = (length fs * Z.to_nat per_thread)%nat.
Proof.
  induction 1 as [|f fs [_ Hf] Hfs IH]; cbn; [reflexivity|].
  intros Hall. apply andb_prop in Hall as [Hfin Hall].
  rewrite (IH Hall). unfold is_finished in Hfin.
  destruct (status f); try discriminate. lia.
Qed.


End ParallelDriver.


(** *** Running a schedule *)

Section ScheduleFacts.

Variables libm_sin libm_cos : F64.float -> F64.float.
Variable rng : Type.
Variable next_random : rng -> F64.float * rng.
Variable next_below : Z -> rng -> Z * rng.
Variable world : Rect.t.
Variable transformations : list (Point.t -> result Point.t).
Variables iter_per_sample symmetry : Z.

Local Abbreviation pstep :=
  (step libm_sin libm_cos rng next_random next_below
     world transformations iter_per_sample symmetry).
Local Abbreviation psteps :=
  (steps libm_sin libm_cos rng next_random next_below
     world transformations iter_per_sample symmetry).
Local Abbreviation pwork_at :=
  (work_at libm_sin libm_cos rng next_random next_below
     world transformations iter_per_sample symmetry).
Local Abbreviation prun :=
  (run libm_sin libm_cos rng next_random next_below
     world transformations iter_per_sample symmetry).

Lemma drive_step (p q : pool rng) : drive rng p = Some q -> pstep p q.
Proof.
  unfold drive. destruct (pc p) as [[|k]|i|o|o] eqn:Hpc.
  - intros H. injection H as <-. now apply step_submitted.
  - intros H. injection H as <-. eapply step_submit. eassumption.
  - destruct (nth_error (futures p) i) as [f|] eqn:Hi.
    + destruct (status f) as [todo| |e] eqn:Hst; [discriminate| |];
        intros H; injection H as <-.
      * eapply step_result; eassumption.
      * eapply step_result_raises; eassumption.
    + intros H. injection H as <-. eapply step_joined; eassumption.
  - destruct (existsb is_running (futures p)) eqn:Hex; [discriminate|].
    intros H. injection H as <-. eapply step_exit; eassumption.
  - discriminate.
Qed.

Lemma work_at_step (i : nat) (p q : pool rng) :
  pwork_at i p = Some q -> pstep p q.
Proof.
  unfold work_at. destruct (nth_error (futures p) i) as [f|] eqn:Hi;
    [|discriminate].
  destruct (is_running f) eqn:Hrun; [|discriminate].
  intros H. injection H as <-. eapply step_work; eassumption.
Qed.

(** Every step is a step of the driver or of a worker. *)
Lemma step_action (p q : pool rng) :
  pstep p q -> drive rng p = Some q \/ exists i, pwork_at i p = Some q.
Proof.
  intros Hstep.
  destruct Hstep as [p i f Hi Hrun|p k Hpc|p Hpc|p i f Hpc Hi Hst
                    |p i f e Hpc Hi Hst|p i Hpc Hi|p o Hpc Hnone].
  - right. exists i. unfold work_at. now rewrite Hi, Hrun.
  - left. unfold drive. now rewrite Hpc.
  - left. unfold drive. now rewrite Hpc.
  - left. unfold drive. now rewrite Hpc, Hi, Hst.
  - left. unfold drive. now rewrite Hpc, Hi, Hst.
  - left. unfold drive. now rewrite Hpc, Hi.
  - left. unfold drive. now rewrite Hpc, Hnone.
Qed.

Lemma run_steps (schedule : list action) :
  forall p q, prun schedule p = Some q -> psteps p q.
Proof.
  induction schedule as [|a rest IH]; intros p q; cbn [run].
  - intros H. injection H as <-. constructor.
  - destruct a as [i|].
    + destruct (pwork_at i p) as [r|] eqn:Hr; [|discriminate].
      intros H. eapply steps_step; [eapply work_at_step; eassumption|auto].
    + destruct (drive rng p) as [r|] eqn:Hr; [|discriminate].
      intros H. eapply steps_step; [eapply drive_step; eassumption|auto].
Qed.

End ScheduleFacts.

(** One complete run, the two workers interleaved: two samples asked of two
    workers, one each, both processed, and the driver returns. *)
Example parallel_generate_fractal_run :
  exists p,
    steps (fun _ => S754_zero false) (fun _ => f_one) nat
      (fun g => (S754_finite false 4503599627370496 (-53), S g))
      (fun n g => (Z.of_nat g mod n, S g)) main_world [linear] 1 1
      (parallel_generate_fractal nat 2 2 (mkState (FractalImage.init 2 2) O)) p /\
    pc p = Done (Ok tt) /\ total_processed p = 2%nat /\
    futures p = [mkFuture 1 1 Finished; mkFuture 1 1 Finished] /\
    FractalImage.pixel_at (image (shared p)) 1 1 = Some (Pixel.mk 127 127 127 2).
Proof.
  destruct (run (fun _ => S754_zero false) (fun _ => f_one) nat
              (fun g => (S754_finite false 4503599627370496 (-53), S g))
              (fun n g => (Z.of_nat g mod n, S g)) main_world [linear] 1 1
              [Drive; Drive; Drive; Work 1; Work 0; Work 0; Drive; Work 1;
               Drive; Drive; Drive]%nat
              (parallel_generate_fractal nat 2 2
                 (mkState (FractalImage.init 2 2) O))) as [p|] eqn:Hrun.
  - exists p. split; [eapply run_steps; eassumption|].
    vm_compute in Hrun. injection Hrun as <-. vm_compute. repeat split.
  - vm_compute in Hrun. discriminate Hrun.
Qed.

(** ** Numbers stay well formed *)

Section NumFacts.

Import F64Facts.

Lemma to_float_valid (a : Num.t) (f : F64.float) :
  valid_num a = true -> Num.to_float a = Ok f -> F64.valid f = true.
Proof.
  destruct a as [z|g]; cbn.
  - intros _. apply of_int_valid.
  - intros Hv H. now injection H as <-.
Qed.

Lemma arith_valid (iop : Z -> Z -> Z)
    (fop : F64.float -> F64.float -> F64.float) (a b c : Num.t) :
  (forall x y, F64.valid x = true -> F64.valid y = true ->
               F64.valid (fop x y) = true) ->
  valid_num a = true -> valid_num b = true ->
  Num.arith iop fop a b = Ok c -> valid_num c = true.
Proof.
  intros Hop Ha Hb. unfold Num.arith.
  assert (forall c, (x <- Num.to_float a ;; y <- Num.to_float b ;;
                     Ok (Num.Float (fop x y))) = Ok c ->
                    valid_num c = true) as Hmixed.
  { intros c'. destruct (Num.to_float a) as [x|] eqn:Hx; [|discriminate].
    destruct (Num.to_float b) as [y|] eqn:Hy; [|discriminate].
    cbn. intros H. injection H as <-. cbn.
    eauto using to_float_valid. }
  destruct a as [x|x], b as [y|y]; try apply Hmixed.
  intros H. now injection H as <-.
Qed.

Lemma add_valid_num (a b c : Num.t) :
  valid_num a = true -> valid_num b = true -> Num.add a b = Ok c ->
  valid_num c = true.
Proof. apply arith_valid. apply add_valid. Qed.

Lemma sub_valid_num (a b c : Num.t) :
  valid_num a = true -> valid_num b = true -> Num.sub a b = Ok c ->
  valid_num c = true.
Proof. apply arith_valid. apply sub_valid. Qed.

Lemma mul_valid_num (a b c : Num.t) :
  valid_num a = true -> valid_num b = true -> Num.mul a b = Ok c ->
  valid_num c = true.
Proof. apply arith_valid. intros. apply mul_valid. Qed.

Lemma truediv_valid_num (a b c : Num.t) :
  Num.truediv a b = Ok c -> valid_num c = true.
Proof.
  unfold Num.truediv.
  assert (forall c, (x <- Num.to_float a ;; y <- Num.to_float b ;;
                     if F64.is_zero y then Raise ZeroDivisionError
                     else Ok (Num.Float (F64.div x y))) = Ok c ->
                    valid_num c = true) as Hmixed.
  { intros c'. destruct (Num.to_float a) as [x|]; [|discriminate].
    destruct (Num.to_float b) as [y|]; [|discriminate].
    cbn. destruct (F64.is_zero y); [discriminate|].
    intros H. injection H as <-. apply div_valid. }
  destruct a as [x|x], b as [y|y]; try apply Hmixed.
  destruct (F64.int_truediv x y) as [q|] eqn:Hq; [|discriminate].
  cbn. intros H. injection H as <-. cbn. eauto using int_truediv_valid.
Qed.

Lemma square_valid_num (a c : Num.t) :
  Num.square a = Ok c -> valid_num c = true.
Proof.
  destruct a as [x|x]; cbn.
  - intros H. now injection H as <-.
  - destruct (F64.square x) as [q|] eqn:Hq; [|discriminate].
    cbn. intros H. injection H as <-. cbn. eauto using square_valid.
Qed.

Lemma abs_valid_num (a : Num.t) :
  valid_num a = true -> valid_num (Num.abs a) = true.
Proof. destruct a; cbn; auto using abs_valid. Qed.

Lemma math_1_valid (f : F64.float -> F64.float) (a c : Num.t) :
  (forall x, F64.valid (f x) = true) ->
  Num.math_1 f a = Ok c -> valid_num c = true.
Proof.
  intros Hf. unfold Num.math_1.
  destruct (Num.to_float a) as [x|]; [|discriminate]. cbn.
  destruct (_ && _); [discriminate|]. destruct (_ && _); [discriminate|].
  intros H. injection H as <-. apply Hf.
Qed.

End NumFacts.

(** ** The transformations return well-formed points *)

Section TransformsValid.

Ltac valid_step :=
  match goal with
  | H : bind ?c _ = Ok _ |- _ =>
      let v := fresh "v" in
      let Hv := fresh "Hv" in
      destruct c as [v|] eqn:Hv; [cbn [bind] in H|discriminate H]
  | H : (if ?b then _ else _) = Ok _ |- _ => destruct b
  | H : Ok _ = Ok _ |- _ => injection H as <-
  end.

Lemma valid_point_intro (x y : Num.t) :
  valid_num x = true -> valid_num y = true ->
  valid_point (Point.mk x y) = true.
Proof. intros Hx Hy. unfold valid_point. cbn. now rewrite Hx, Hy. Qed.

Lemma valid_point_elim (p : Point.t) :
  valid_point p = true ->
  valid_num (Point.x p) = true /\ valid_num (Point.y p) = true.
Proof. intros H. now apply andb_prop in H. Qed.

Lemma linear_valid : preserves_valid linear.
Proof. intros p q Hp H. now injection H as <-. Qed.

Lemma diamond_valid : preserves_valid diamond.
Proof.
  intros p q Hp H. apply valid_point_elim in Hp as [Hx Hy].
  injection H as <-. apply valid_point_intro; now apply abs_valid_num.
Qed.

Lemma spherical_valid : preserves_valid spherical.
Proof.
  intros p q Hp H. unfold spherical in H.
  repeat valid_step; try reflexivity.
  apply valid_point_intro; eapply truediv_valid_num; eassumption.
Qed.

Variables libm_sin libm_cos : F64.float -> F64.float.
Hypothesis sin_valid : forall x, F64.valid (libm_sin x) = true.
Hypothesis cos_valid : forall x, F64.valid (libm_cos x) = true.

Ltac trig_valid :=
  first [ eapply (math_1_valid libm_sin); [exact sin_valid|eassumption]
        | eapply (math_1_valid libm_cos); [exact cos_valid|eassumption] ].

Lemma sinusoidal_valid : preserves_valid (sinusoidal libm_sin).
Proof.
  intros p q Hp H. unfold sinusoidal, sin in H.
  repeat valid_step.
  apply valid_point_intro; trig_valid.
Qed.

Lemma fish_valid : preserves_valid (fish libm_sin).
Proof.
  intros p q Hp H. apply valid_point_elim in Hp as [Hx Hy].
  unfold fish, sin in H. repeat valid_step.
  apply valid_point_intro; (eapply add_valid_num; [| |eassumption]);
    try assumption; trig_valid.
Qed.

Lemma swirl_valid : preserves_valid (swirl libm_sin libm_cos).
Proof.
  intros p q Hp H. apply valid_point_elim in Hp as [Hx Hy].
  unfold swirl, sin, cos in H. repeat valid_step.
  apply valid_point_intro.
  - eapply sub_valid_num; [| |eassumption];
      (eapply mul_valid_num; [| |eassumption]); try assumption; trig_valid.
  - eapply add_valid_num; [| |eassumption];
      (eapply mul_valid_num; [| |eassumption]); try assumption; trig_valid.
Qed.

Lemma TRANSFORMATIONS_valid :
  Forall preserves_valid (TRANSFORMATIONS libm_sin libm_cos).
Proof.
  repeat constructor; auto using linear_valid, diamond_valid, spherical_valid,
    sinusoidal_valid, fish_valid, swirl_valid.
Qed.

End TransformsValid.

(** ** main.py: the rotation at symmetry 1 *)

Section RotationFloats.

Import F64.

Lemma eqb_refl (x : float) : is_finite x = true -> eqb x x = true.
Proof.
  destruct x as [s| | |s m e]; try discriminate; intros _; [reflexivity|].
  cbn [eqb]. now rewrite Bool.eqb_reflx, Z.eqb_refl.
Qed.

Lemma eqb_zeros (x y : float) :
  is_zero x = true -> is_zero y = true -> eqb x y = true.
Proof. destruct x, y; try discriminate; reflexivity. Qed.

(** [x * 1.0 - y * 0.0] *)
Lemma turned_first (x y : float) :
  valid x = true ->
  let x' := sub (mul x f_one) (mul y (S754_zero false)) in
  if is_finite y then
    (is_zero x = false -> x' = x) /\ (is_zero x = true -> is_zero x' = true)
  else x' = S754_nan.
Proof.
  intros Hv. cbv zeta. rewrite (F64Facts.mul_one x Hv).
  destruct y as [sy|sy| |sy my ey], x as [sx|sx| |sx mx ex]; cbn;
    try (split; [reflexivity || discriminate|reflexivity || discriminate]);
    try reflexivity.
Qed.

(** [x * 0.0 + y * 1.0] *)
Lemma turned_second (x y : float) :
  valid y = true ->
  let y' := add (mul x (S754_zero false)) (mul y f_one) in
  if is_finite x then
    (is_zero y = false -> y' = y) /\ (is_zero y = true -> is_zero y' = true)
  else y' = S754_nan.
Proof.
  intros Hv. cbv zeta. rewrite (F64Facts.mul_one y Hv).
  destruct x as [sx|sx| |sx mx ex], y as [sy|sy| |sy my ey]; cbn;
    try (split; [reflexivity || discriminate|reflexivity || discriminate]);
    try reflexivity.
Qed.

End RotationFloats.

Section MappingFloats.

Lemma mul_float_r (a : Num.t) (k : F64.float) :
  Num.mul a (Num.Float k)
  = (f <- Num.to_float a ;; Ok (Num.Float (F64.mul f k))).
Proof. destruct a; reflexivity. Qed.

Lemma sub_float_r (a : Num.t) (k : F64.float) :
  Num.sub a (Num.Float k)
  = (f <- Num.to_float a ;; Ok (Num.Float (F64.sub f k))).
Proof. destruct a; reflexivity. Qed.

(** Against a float origin the coordinate is converted first. *)
Lemma pixel_index_to_float (a : Num.t) (o : F64.float) (extent : Num.t)
    (size : Z) :
  pixel_index a (Num.Float o) extent size
  = (f <- Num.to_float a ;; pixel_index (Num.Float f) (Num.Float o) extent size).
Proof.
  unfold pixel_index. rewrite sub_float_r.
  destruct (Num.to_float a); reflexivity.
Qed.

(** The index of a float coordinate against a float origin, in floats. *)
Lemma pixel_index_float (x o : F64.float) (extent : Num.t) (size : Z) :
  pixel_index (Num.Float x) (Num.Float o) extent size
  = (w <- Num.to_float extent ;;
     if F64.is_zero w then Raise ZeroDivisionError
     else n <- F64.of_int size ;;
          F64.to_int (F64.mul (F64.div (F64.sub x o) w) n)).
Proof.
  unfold pixel_index, Num.truediv, Num.mul, Num.sub, Num.arith.
  cbn [Num.to_float bind].
  destruct (Num.to_float extent) as [w|e]; [|reflexivity]. cbn [bind].
  destruct (F64.is_zero w); [reflexivity|]. cbn [bind].
  destruct (F64.of_int size) as [n|e]; reflexivity.
Qed.

Lemma sub_alike (x y o : F64.float) :
  alike x y -> alike (F64.sub x o) (F64.sub y o).
Proof.
  intros [->|[Hx Hy]]; [now left|].
  destruct x as [sx| | |]; try discriminate.
  destruct y as [sy| | |]; try discriminate.
  destruct o as [so|so| |so mo eo]; cbn; try (now left).
  right. split; reflexivity.
Qed.

Lemma div_alike (x y w : F64.float) :
  alike x y -> alike (F64.div x w) (F64.div y w).
Proof.
  intros [->|[Hx Hy]]; [now left|].
  destruct x as [sx| | |]; try discriminate.
  destruct y as [sy| | |]; try discriminate.
  destruct w as [sw|sw| |sw mw ew]; cbn; try (now left);
    right; split; reflexivity.
Qed.

Lemma mul_alike (x y n : F64.float) :
  alike x y -> alike (F64.mul x n) (F64.mul y n).
Proof.
  intros [->|[Hx Hy]]; [now left|].
  destruct x as [sx| | |]; try discriminate.
  destruct y as [sy| | |]; try discriminate.
  destruct n as [sn|sn| |sn mn en]; cbn; try (now left);
    right; split; reflexivity.
Qed.

Lemma to_int_alike (x y : F64.float) :
  alike x y -> F64.to_int x = F64.to_int y.
Proof.
  intros [->|[Hx Hy]]; [reflexivity|].
  destruct x; try discriminate. destruct y; try discriminate. reflexivity.
Qed.

(** Two coordinates that are alike map to the same pixel index. *)
Lemma pixel_index_alike (x y o : F64.float) (extent : Num.t) (size : Z) :
  alike x y ->
  pixel_index (Num.Float x) (Num.Float o) extent size
  = pixel_index (Num.Float y) (Num.Float o) extent size.
Proof.
  intros H. rewrite !pixel_index_float.
  destruct (Num.to_float extent) as [w|e]; [|reflexivity]. cbn [bind].
  destruct (F64.is_zero w); [reflexivity|].
  destruct (F64.of_int size) as [n|e]; [|reflexivity]. cbn [bind].
  apply to_int_alike, mul_alike, div_alike, sub_alike, H.
Qed.

Lemma sub_wild (x o : F64.float) : wild x -> wild (F64.sub x o).
Proof.
  unfold wild. destruct x as [sx|sx| |sx mx ex]; try discriminate; intros _;
    destruct o as [so|so| |so mo eo]; cbn; try reflexivity.
  destruct (Bool.eqb sx (negb so)); reflexivity.
Qed.

Lemma div_wild (x w : F64.float) :
  wild x -> F64.is_zero w = false -> wild (F64.div x w).
Proof.
  unfold wild. destruct x as [sx|sx| |sx mx ex]; try discriminate; intros _;
    destruct w as [sw|sw| |sw mw ew]; cbn; try reflexivity; discriminate.
Qed.

Lemma mul_wild (x n : F64.float) : wild x -> wild (F64.mul x n).
Proof.
  unfold wild. destruct x as [sx|sx| |sx mx ex]; try discriminate; intros _;
    destruct n as [sn|sn| |sn mn en]; cbn; reflexivity.
Qed.

Lemma to_int_wild (x : F64.float) : wild x -> exists e, F64.to_int x = Raise e.
Proof.
  unfold wild. destruct x; try discriminate; cbn; eauto.
Qed.

(** A NaN or infinite coordinate has no pixel index: [int] raises, unless
    something raised before it. *)
Lemma pixel_index_not_finite (x o : F64.float) (extent : Num.t) (size : Z) :
  F64.is_finite x = false ->
  exists e, pixel_index (Num.Float x) (Num.Float o) extent size = Raise e.
Proof.
  intros Hx. rewrite pixel_index_float.
  destruct (Num.to_float extent) as [w|e]; [|cbn; eauto]. cbn [bind].
  destruct (F64.is_zero w) eqn:Hw; [eauto|].
  destruct (F64.of_int size) as [n|e]; [|cbn; eauto]. cbn [bind].
  apply to_int_wild, mul_wild, div_wild; [apply sub_wild; exact Hx|exact Hw].
Qed.

End MappingFloats.

Section SymmetryOne.

Variables libm_sin libm_cos : F64.float -> F64.float.
Variable rng : Type.
Variable next_random : rng -> F64.float * rng.
Variable next_below : Z -> rng -> Z * rng.

(** What C and IEEE 754 fix for the two libm functions at zero. *)
Hypothesis cos_zero : libm_cos (S754_zero false) = f_one.
Hypothesis sin_zero : libm_sin (S754_zero false) = S754_zero false.

Local Abbreviation rot := (rotated libm_sin libm_cos).

(** With [s = 0] and [symmetry = 1] the angle is [0.0], its cosine [1.0]
    and its sine [0.0]. *)
Lemma rotated_zero_angle (p : Point.t) :
  rot p 0 1
  = (fx <- Num.to_float (Point.x p) ;;
     fy <- Num.to_float (Point.y p) ;;
     Ok (Point.mk
           (Num.Float (F64.sub (F64.mul fx f_one) (F64.mul fy (S754_zero false))))
           (Num.Float (F64.add (F64.mul fx (S754_zero false)) (F64.mul fy f_one))))).
Proof.
  unfold rotated.
  change (Num.mul (Num.Int 2) (Num.Float pi))
    with (Ok (Num.Float (S754_finite false 7074237752028440 (-50))) : result Num.t).
  cbn [bind].
  change (Num.mul (Num.Float (S754_finite false 7074237752028440 (-50)))
            (Num.Int 0))
    with (Ok (Num.Float (S754_zero false)) : result Num.t).
  cbn [bind].
  change (Num.truediv (Num.Float (S754_zero false)) (Num.Int 1))
    with (Ok (Num.Float (S754_zero false)) : result Num.t).
  cbn [bind].
  assert (cos libm_cos (Num.Float (S754_zero false)) = Ok (Num.Float f_one)) as ->.
  { unfold cos, Num.math_1. cbn [Num.to_float bind]. now rewrite cos_zero. }
  assert (sin libm_sin (Num.Float (S754_zero false))
          = Ok (Num.Float (S754_zero false))) as ->.
  { unfold sin, Num.math_1. cbn [Num.to_float bind]. now rewrite sin_zero. }
  cbn [bind]. rewrite !mul_float_r.
  destruct (Num.to_float (Point.x p)) as [fx|e]; [|reflexivity].
  destruct (Num.to_float (Point.y p)) as [fy|e]; reflexivity.
Qed.

Lemma alike_of_turned (x x' : F64.float) :
  (F64.is_zero x = false -> x' = x) ->
  (F64.is_zero x = true -> F64.is_zero x' = true) ->
  alike x' x.
Proof.
  intros H1 H2. destruct (F64.is_zero x) eqn:Hz; [right|left]; auto.
Qed.

(** The pixel of the rotated point is the pixel of the point; when a
    coordinate is not a finite number, both mappings raise. *)
Lemma map_rotated (world : Rect.t) (p : Point.t) (img : FractalImage.t) :
  float_origin world = true -> valid_point p = true ->
  match rot p 0 1 with
  | Ok r => same_result (map_to_pixel world r img) (map_to_pixel world p img)
  | Raise _ => exists e, map_to_pixel world p img = Raise e
  end.
Proof.
  intros Ho Hp. unfold float_origin in Ho.
  apply valid_point_elim in Hp as [Hvx Hvy].
  rewrite rotated_zero_angle. unfold map_to_pixel.
  destruct (Rect.x world) as [|ox]; [discriminate|].
  destruct (Rect.y world) as [|oy]; [discriminate|].
  rewrite (pixel_index_to_float (Point.x p)), (pixel_index_to_float (Point.y p)).
  destruct (Num.to_float (Point.x p)) as [fx|e] eqn:Hx; cbn [bind];
    [|eauto].
  destruct (Num.to_float (Point.y p)) as [fy|e] eqn:Hy; cbn [bind].
  2:{ destruct (pixel_index (Num.Float fx) _ _ _); cbn [bind]; eauto. }
  cbn [Point.x Point.y].
  pose proof (turned_first fx fy (to_float_valid _ _ Hvx Hx)) as H1.
  pose proof (turned_second fx fy (to_float_valid _ _ Hvy Hy)) as H2.
  cbv zeta in H1, H2.
  set (x' := F64.sub _ _) in *. set (y' := F64.add _ _) in *.
  destruct (F64.is_finite fy) eqn:Hfy.
  - destruct H1 as [H1 H1'].
    rewrite (pixel_index_alike x' fx) by now apply alike_of_turned.
    destruct (F64.is_finite fx) eqn:Hfx.
    + destruct H2 as [H2 H2'].
      rewrite (pixel_index_alike y' fy) by now apply alike_of_turned.
      left. reflexivity.
    + destruct (pixel_index_not_finite fx ox (Rect.width world)
                  (FractalImage.width img) Hfx) as [e ->].
      left. reflexivity.
  - right. rewrite H1.
    destruct (pixel_index_not_finite S754_nan ox (Rect.width world)
                (FractalImage.width img) eq_refl) as [e1 ->].
    destruct (pixel_index_not_finite fy oy (Rect.height world)
                (FractalImage.height img) Hfy) as [e2 ->].
    destruct (pixel_index (Num.Float fx) _ _ _); cbn [bind]; eauto.
Qed.

Local Abbreviation plot' := (plot rng next_random).
Local Abbreviation plot_rotated' :=
  (plot_rotated libm_sin libm_cos rng next_random).

(** Plotting the rotated copy is plotting the point. *)
Lemma plot_rotated_equivalent (world : Rect.t) (p : Point.t) (st : state rng) :
  float_origin world = true -> valid_point p = true ->
  equivalent (fun _ => True) (plot_rotated' world 1 p 0 st) (plot' world p st).
Proof.
  intros Ho Hp. pose proof (map_rotated world p (image st) Ho Hp) as H.
  unfold plot_rotated, pure, mbind at 1.
  destruct (rot p 0 1) as [r|e].
  - unfold plot, mbind at 1 5.
    destruct H as [->|(e1 & e2 & -> & ->)].
    + destruct (map_to_pixel world p (image st)) as [[[px py]|]|e].
      * match goal with |- equivalent _ ?x ?x =>
          destruct x as [st' [[]|e]] end; split; cbn; auto.
      * split; cbn; auto.
      * split; cbn; auto.
    + split; cbn; auto.
  - destruct H as [e' H]. unfold plot, mbind at 1. rewrite H.
    split; cbn; auto.
Qed.

End SymmetryOne.

(** ** Runs that end alike *)

Section Equivalent.

Variable rng : Type.

Lemma equivalent_refl {A : Type} (P : A -> Prop) (x : state rng * result A) :
  (forall a, snd x = Ok a -> P a) -> equivalent P x x.
Proof.
  intros H. split; [reflexivity|].
  destruct x as [st [a|e]]; cbn in *; auto.
Qed.

Lemma mbind_equivalent {A B : Type} (P : A -> Prop) (Q : B -> Prop)
    (c1 c2 : M rng A) (k1 k2 : A -> M rng B) (st : state rng) :
  equivalent P (c1 st) (c2 st) ->
  (forall a st', P a -> equivalent Q (k1 a st') (k2 a st')) ->
  equivalent Q (mbind rng c1 k1 st) (mbind rng c2 k2 st).
Proof.
  intros [Hst Hres] Hk. unfold mbind.
  destruct (c1 st) as [s1 [a1|e1]], (c2 st) as [s2 [a2|e2]]; cbn in *;
    subst; try contradiction.
  - destruct Hres as [-> Ha]. now apply Hk.
  - split; cbn; auto.
Qed.

Lemma mbind_ret_r {A : Type} (c : M rng A) (st : state rng) :
  mbind rng c (fun a => ret rng a) st = c st.
Proof.
  unfold mbind, ret. destruct (c st) as [st' [a|e]]; reflexivity.
Qed.

Lemma for_range_equivalent {A : Type} (P : A -> Prop)
    (body1 body2 : Z -> A -> M rng A) :
  (forall i a st, P a -> equivalent P (body1 i a st) (body2 i a st)) ->
  forall n i a st,
    P a ->
    equivalent P (for_range rng n i body1 a st) (for_range rng n i body2 a st).
Proof.
  intros Hbody. induction n as [|n IH]; intros i a st Ha; cbn [for_range].
  - split; cbn; auto.
  - eapply mbind_equivalent; [apply Hbody; assumption|].
    intros a' st' Ha'. now apply IH.
Qed.

End Equivalent.

(** ** main.py: the sampling engine at symmetry 1 *)

Section GenerateSymmetryOne.

Variables libm_sin libm_cos : F64.float -> F64.float.
Variable rng : Type.
Variable next_random : rng -> F64.float * rng.
Variable next_below : Z -> rng -> Z * rng.

Hypothesis cos_zero : libm_cos (S754_zero false) = f_one.
Hypothesis sin_zero : libm_sin (S754_zero false) = S754_zero false.
Hypothesis random_valid : forall g, F64.valid (fst (next_random g)) = true.

Variable world : Rect.t.
Variable transformations : list (Point.t -> result Point.t).
Hypothesis world_origin : float_origin world = true.
Hypothesis world_valid : valid_rect world = true.
Hypothesis transformations_valid : Forall preserves_valid transformations.

Lemma choice_in {A : Type} (seq : list A) (st : state rng) (a : A) :
  snd (choice rng next_below seq st) = Ok a -> In a seq.
Proof.
  unfold choice. destruct (len seq =? 0); [discriminate|].
  destruct (next_below (len seq) (gen st)) as [i g']. cbn [snd].
  unfold getitem. destruct (position (len seq) i) as [k|]; [|discriminate].
  cbn [bind]. destruct (nth_error seq k) as [x|] eqn:Hk; [|discriminate].
  intros H. injection H as <-. eapply nth_error_In; eassumption.
Qed.

Lemma uniform_valid (a b c : Num.t) (st : state rng) :
  valid_num a = true -> valid_num b = true ->
  snd (uniform rng next_random a b st) = Ok c -> valid_num c = true.
Proof.
  intros Ha Hb. unfold uniform, mbind, pure, random.
  destruct (Num.sub b a) as [d|] eqn:Hd; [|discriminate].
  pose proof (random_valid (gen st)) as Hu.
  destruct (next_random (gen st)) as [u g']. cbn [fst snd] in *.
  destruct (Num.mul d (Num.Float u)) as [p|] eqn:Hm; [|discriminate].
  cbn [bind]. intros H.
  eapply add_valid_num; [exact Ha| |exact H].
  eapply (mul_valid_num d (Num.Float u)); [|exact Hu|exact Hm].
  eapply sub_valid_num; [exact Hb|exact Ha|exact Hd].
Qed.

Lemma random_point_valid (st : state rng) (p : Point.t) :
  snd (random_point_in_rect rng next_random world st) = Ok p ->
  valid_point p = true.
Proof.
  pose proof world_valid as Hw. unfold valid_rect in Hw.
  apply andb_prop in Hw as [Hw Hh]. apply andb_prop in Hw as [Hw Hwd].
  apply andb_prop in Hw as [Hx Hy].
  unfold random_point_in_rect. unfold mbind at 1, pure at 1.
  destruct (Num.add (Rect.x world) (Rect.width world)) as [bx|] eqn:Hbx;
    [|discriminate].
  unfold mbind at 1.
  destruct (uniform rng next_random (Rect.x world) bx st) as [st1 [x|]] eqn:Hux;
    [|discriminate].
  unfold mbind at 1, pure at 1.
  destruct (Num.add (Rect.y world) (Rect.height world)) as [by_|] eqn:Hby;
    [|discriminate].
  unfold mbind at 1.
  destruct (uniform rng next_random (Rect.y world) by_ st1) as [st2 [y|]] eqn:Huy;
    [|discriminate].
  cbn. intros H. injection H as <-.
  apply valid_point_intro.
  - eapply (uniform_valid (Rect.x world) bx x st); [assumption| |now rewrite Hux].
    eapply add_valid_num; [| |exact Hbx]; assumption.
  - eapply (uniform_valid (Rect.y world) by_ y st1); [assumption| |now rewrite Huy].
    eapply add_valid_num; [| |exact Hby]; assumption.
Qed.

Local Abbreviation iteration1 :=
  (iteration libm_sin libm_cos rng next_random next_below world
     transformations 1).
Local Abbreviation iteration0 :=
  (Spec.iteration rng next_random next_below world transformations).

Lemma iteration_equivalent (p : Point.t) (st : state rng) :
  valid_point p = true ->
  equivalent (fun q => valid_point q = true) (iteration1 p st) (iteration0 p st).
Proof.
  intros Hp. unfold iteration, Spec.iteration.
  eapply (mbind_equivalent rng (fun t => In t transformations)).
  { apply equivalent_refl. apply choice_in. }
  intros transform st1 Hin.
  eapply (mbind_equivalent rng (fun q => valid_point q = true)).
  { apply equivalent_refl. cbn. intros q Hq.
    rewrite Forall_forall in transformations_valid.
    eapply transformations_valid; eassumption. }
  intros q st2 Hq.
  eapply (mbind_equivalent rng (fun _ => True)).
  { unfold range. change (Z.to_nat 1) with 1%nat. cbn [for_range].
    rewrite mbind_ret_r.
    apply plot_rotated_equivalent; assumption. }
  intros [] st3 _. split; cbn; auto.
Qed.

Lemma sample_equivalent (iter_per_sample : Z) (st : state rng) :
  equivalent (fun _ => True)
    (sample libm_sin libm_cos rng next_random next_below world transformations
       iter_per_sample 1 st)
    (Spec.sample rng next_random next_below world transformations
       iter_per_sample st).
Proof.
  unfold sample, Spec.sample.
  eapply (mbind_equivalent rng (fun q => valid_point q = true)).
  { apply equivalent_refl. apply random_point_valid. }
  intros p st1 Hp.
  eapply (mbind_equivalent rng (fun q => valid_point q = true)).
  { unfold range. apply for_range_equivalent; [|assumption].
    intros i q st2 Hq. now apply iteration_equivalent. }
  intros q st2 _. split; cbn; auto.
Qed.

Lemma generate_fractal_equivalent (samples iter_per_sample : Z)
    (st : state rng) :
  equivalent (fun _ => True)
    (generate_fractal libm_sin libm_cos rng next_random next_below world
       transformations samples iter_per_sample 1 st)
    (Spec.generate_fractal rng next_random next_below world transformations
       samples iter_per_sample st).
Proof.
  unfold generate_fractal, Spec.generate_fractal, range.
  apply for_range_equivalent; [|exact I].
  intros i [] st1 _. apply sample_equivalent.
Qed.

(** The rotated copy of a point with finite float coordinates. *)
Lemma rotated_identity (fx fy : F64.float) :
  F64.valid fx = true -> F64.valid fy = true ->
  F64.is_finite fx = true -> F64.is_finite fy = true ->
  exists fx' fy',
    rotated libm_sin libm_cos (Point.mk (Num.Float fx) (Num.Float fy)) 0 1
    = Ok (Point.mk (Num.Float fx') (Num.Float fy')) /\
    F64.eqb fx' fx = true /\ F64.eqb fy' fy = true /\
    (F64.is_zero fx = false -> fx' = fx) /\
    (F64.is_zero fy = false -> fy' = fy).
Proof.
  intros Hvx Hvy Hfx Hfy.
  rewrite (rotated_zero_angle libm_sin libm_cos cos_zero sin_zero).
  cbn [Point.x Point.y Num.to_float bind].
  pose proof (turned_first fx fy Hvx) as H1.
  pose proof (turned_second fx fy Hvy) as H2.
  cbv zeta in H1, H2. rewrite Hfy in H1. rewrite Hfx in H2.
  destruct H1 as [H1 H1'], H2 as [H2 H2'].
  eexists _, _. split; [reflexivity|].
  repeat split; try assumption.
  - destruct (F64.is_zero fx) eqn:Hz.
    + apply eqb_zeros; auto.
    + rewrite H1 by reflexivity. now apply eqb_refl.
  - destruct (F64.is_zero fy) eqn:Hz.
    + apply eqb_zeros; auto.
    + rewrite H2 by reflexivity. now apply eqb_refl.
Qed.

End GenerateSymmetryOne.
Section SymmetryOneExact.

Variables libm_sin libm_cos : F64.float -> F64.float.
Variable rng : Type.
Variable next_random : rng -> F64.float * rng.
Variable next_below : Z -> rng -> Z * rng.

Hypothesis cos_zero : libm_cos (S754_zero false) = f_one.
Hypothesis sin_zero : libm_sin (S754_zero false) = S754_zero false.

Variable world : Rect.t.
Variable transformations : list (Point.t -> result Point.t).
Hypothesis world_origin : float_origin world = true.

Lemma finite_num_elim (a : Num.t) :
  finite_num a = true ->
  exists f, Num.to_float a = Ok f /\ F64.is_finite f = true.
Proof.
  unfold finite_num. destruct (Num.to_float a) as [f|]; [|discriminate].
  intros H. now exists f.
Qed.

(** The rotated copy of a point with finite coordinates: its coordinates
    are those of the point as floats, up to the sign of a zero, and its
    pixel is the pixel of the point. *)
Lemma rotated_finite (p : Point.t) (img : FractalImage.t) :
  valid_point p = true -> finite_point p = true ->
  exists fx fy fx' fy',
    Num.to_float (Point.x p) = Ok fx /\ Num.to_float (Point.y p) = Ok fy /\
    rotated libm_sin libm_cos p 0 1
    = Ok (Point.mk (Num.Float fx') (Num.Float fy')) /\
    F64.eqb fx' fx = true /\ F64.eqb fy' fy = true /\
    (F64.is_zero fx = false -> fx' = fx) /\
    (F64.is_zero fy = false -> fy' = fy) /\
    map_to_pixel world (Point.mk (Num.Float fx') (Num.Float fy')) img
    = map_to_pixel world p img.
Proof.
  intros Hp Hf. apply valid_point_elim in Hp as [Hvx Hvy].
  apply andb_prop in Hf as [Hfx Hfy].
  apply finite_num_elim in Hfx as (fx & Ex & Hfx).
  apply finite_num_elim in Hfy as (fy & Ey & Hfy).
  pose proof (turned_first fx fy (to_float_valid _ _ Hvx Ex)) as H1.
  pose proof (turned_second fx fy (to_float_valid _ _ Hvy Ey)) as H2.
  cbv zeta in H1, H2. rewrite Hfy in H1. rewrite Hfx in H2.
  destruct H1 as [H1 H1'], H2 as [H2 H2'].
  exists fx, fy. eexists _, _.
  split; [exact Ex|]. split; [exact Ey|].
  split.
  { rewrite (rotated_zero_angle libm_sin libm_cos cos_zero sin_zero).
    rewrite Ex, Ey. reflexivity. }
  split.
  { destruct (F64.is_zero fx) eqn:Hz.
    - apply eqb_zeros; auto.
    - rewrite H1 by reflexivity. now apply eqb_refl. }
  split.
  { destruct (F64.is_zero fy) eqn:Hz.
    - apply eqb_zeros; auto.
    - rewrite H2 by reflexivity. now apply eqb_refl. }
  split; [exact H1|]. split; [exact H2|].
  unfold map_to_pixel, float_origin in *.
  destruct (Rect.x world) as [|ox]; [discriminate|].
  destruct (Rect.y world) as [|oy]; [discriminate|].
  cbn [Point.x Point.y].
  rewrite (pixel_index_to_float (Point.x p)), (pixel_index_to_float (Point.y p)).
  rewrite Ex, Ey. cbn [bind].
  rewrite (pixel_index_alike
             (F64.sub (F64.mul fx f_one) (F64.mul fy (S754_zero false))) fx)
    by now apply alike_of_turned.
  rewrite (pixel_index_alike
             (F64.add (F64.mul fx (S754_zero false)) (F64.mul fy f_one)) fy)
    by now apply alike_of_turned.
  reflexivity.
Qed.

Lemma mbind_exact {A B : Type} (c1 c2 : M rng A) (k1 k2 : A -> M rng B)
    (st : state rng) :
  c1 st = c2 st ->
  (forall a st', c2 st = (st', Ok a) -> k1 a st' = k2 a st') ->
  mbind rng c1 k1 st = mbind rng c2 k2 st.
Proof.
  intros Hc Hk. unfold mbind. rewrite Hc.
  destruct (c2 st) as [st' [a|e]]; [now apply Hk|reflexivity].
Qed.

(** Plotting the rotated copy of a point with finite coordinates is
    plotting the point: same state, same result, same exception. *)
Lemma plot_rotated_exact (p : Point.t) (st : state rng) :
  valid_point p = true -> finite_point p = true ->
  plot_rotated libm_sin libm_cos rng next_random world 1 p 0 st
  = plot rng next_random world p st.
Proof.
  intros Hp Hf.
  destruct (rotated_finite p (image st) Hp Hf)
    as (fx & fy & fx' & fy' & _ & _ & R & _ & _ & _ & _ & Hmap).
  unfold plot_rotated, pure. unfold mbind at 1. rewrite R.
  unfold plot. apply mbind_exact; [now rewrite Hmap|reflexivity].
Qed.

Lemma for_range_exact {A : Type} (P : A -> Prop)
    (body1 body2 : Z -> A -> M rng A) :
  (forall i a st, P a -> body1 i a st = body2 i a st) ->
  (forall i a st a', P a -> snd (body2 i a st) = Ok a' -> P a') ->
  forall n i a st,
    P a -> for_range rng n i body1 a st = for_range rng n i body2 a st.
Proof.
  intros Hb Hp. induction n as [|n IH]; intros i a st Ha; cbn [for_range];
    [reflexivity|].
  unfold mbind. rewrite (Hb i a st Ha).
  destruct (body2 i a st) as [st1 [a1|e]] eqn:E; [|reflexivity].
  apply IH. apply (Hp i a st a1 Ha). now rewrite E.
Qed.

Hypothesis transformations_valid : Forall preserves_valid transformations.
Hypothesis transformations_finite : Forall preserves_finite transformations.

Local Abbreviation tame := (fun p => valid_point p = true /\ finite_point p = true).

Lemma iteration_exact (p : Point.t) (st : state rng) :
  tame p ->
  iteration libm_sin libm_cos rng next_random next_below world
    transformations 1 p st
  = Spec.iteration rng next_random next_below world transformations p st.
Proof.
  intros [Hp Hf]. unfold iteration, Spec.iteration.
  apply mbind_exact; [reflexivity|]. intros t st1 C.
  assert (Hin : In t transformations)
    by (apply (choice_in rng next_below transformations st); now rewrite C).
  apply mbind_exact; [reflexivity|]. intros q st2 T.
  unfold pure in T. injection T as <- T.
  rewrite Forall_forall in transformations_valid, transformations_finite.
  pose proof (transformations_valid t Hin p q Hp T) as Hq.
  pose proof (transformations_finite t Hin p q Hp Hf T) as Hfq.
  apply mbind_exact; [|reflexivity].
  unfold range. change (Z.to_nat 1) with 1%nat. cbn [for_range].
  rewrite mbind_ret_r. now apply plot_rotated_exact.
Qed.

Lemma iteration_tame (p q : Point.t) (st : state rng) :
  tame p ->
  snd (Spec.iteration rng next_random next_below world transformations p st)
  = Ok q -> tame q.
Proof.
  intros [Hp Hf]. unfold Spec.iteration. unfold mbind at 1.
  destruct (choice rng next_below transformations st) as [st1 [t|e]] eqn:C;
    [|discriminate].
  assert (Hin : In t transformations)
    by (apply (choice_in rng next_below transformations st); now rewrite C).
  unfold mbind at 1, pure.
  destruct (t p) as [r|e] eqn:T; [|discriminate].
  unfold mbind at 1.
  destruct (plot rng next_random world r st1) as [st2 [[]|e]]; [|discriminate].
  unfold ret. cbn [snd]. intros H. injection H as <-.
  rewrite Forall_forall in transformations_valid, transformations_finite.
  split; [exact (transformations_valid t Hin p r Hp T)
         |exact (transformations_finite t Hin p r Hp Hf T)].
Qed.

Hypothesis start_tame :
  forall st p, snd (random_point_in_rect rng next_random world st) = Ok p ->
               tame p.

Lemma sample_exact (iter_per_sample : Z) (st : state rng) :
  sample libm_sin libm_cos rng next_random next_below world transformations
    iter_per_sample 1 st
  = Spec.sample rng next_random next_below world transformations
      iter_per_sample st.
Proof.
  unfold sample, Spec.sample.
  apply mbind_exact; [reflexivity|]. intros p st1 R.
  assert (Hp : tame p) by (apply (start_tame st); now rewrite R).
  apply mbind_exact; [|reflexivity].
  unfold range. apply (for_range_exact tame); [| |exact Hp].
  - intros i a st' Ha. now apply iteration_exact.
  - intros i a st' a' Ha. now apply iteration_tame.
Qed.

Lemma generate_fractal_exact (samples iter_per_sample : Z) (st : state rng) :
  generate_fractal libm_sin libm_cos rng next_random next_below world
    transformations samples iter_per_sample 1 st
  = Spec.generate_fractal rng next_random next_below world transformations
      samples iter_per_sample st.
Proof.
  unfold generate_fractal, Spec.generate_fractal, range.
  apply (for_range_exact (fun _ => True)); [| |exact I].
  - intros i [] st' _. apply sample_exact.
  - trivial.
Qed.

End SymmetryOneExact.

(** [linear] and [diamond] keep coordinates finite. *)
Lemma linear_finite : preserves_finite linear.
Proof. intros p q _ Hf H. now injection H as <-. Qed.

Lemma abs_finite_num (a : Num.t) : finite_num (Num.abs a) = finite_num a.
Proof.
  destruct a as [z|f]; unfold finite_num; cbn [Num.abs Num.to_float].
  - unfold F64.of_int. replace (Z.abs (Z.abs z)) with (Z.abs z) by lia.
    assert (H : forall s s' a b,
              F64.is_inf (F64.round_ratio s a b)
              = F64.is_inf (F64.round_ratio s' a b) /\
              F64.is_finite (F64.round_ratio s a b)
              = F64.is_finite (F64.round_ratio s' a b)).
    { intros s s' a b. unfold F64.round_ratio.
      destruct (a =? 0); [split; reflexivity|].
      destruct (F64.scaled a b (F64.quantum a b)) as [n dn].
      unfold F64.normalize.
      destruct (F64.nearest_even n dn =? 2 ^ F64.prec).
      - destruct (2 ^ (F64.prec - 1)); [split; reflexivity| |split; reflexivity].
        destruct (_ <=? _); split; reflexivity.
      - destruct (F64.nearest_even n dn); [split; reflexivity| |split; reflexivity].
        destruct (_ <=? _); split; reflexivity. }
    destruct (H (Z.abs z <? 0) (z <? 0) (Z.abs z) 1) as [Hi Hf].
    rewrite Hi. destruct (F64.is_inf (F64.round_ratio (z <? 0) (Z.abs z) 1));
      [reflexivity|exact Hf].
  - destruct f; reflexivity.
Qed.

Lemma diamond_finite : preserves_finite diamond.
Proof.
  intros p q _ Hf H. injection H as <-. unfold finite_point in *.
  cbn [Point.x Point.y]. now rewrite !abs_finite_num.
Qed.




(** The sequential branch of [main] is the loop without the rotation, on
    the world rectangle of [main]. *)
Lemma main_sequential_equivalent
    (libm_sin libm_cos : F64.float -> F64.float) (rng : Type)
    (next_random : rng -> F64.float * rng) (next_below : Z -> rng -> Z * rng)
    (width height samples iter_per_sample : Z)
    (transformations : list (Point.t -> result Point.t)) (g : rng) :
  libm_cos (S754_zero false) = f_one ->
  libm_sin (S754_zero false) = S754_zero false ->
  (forall g, F64.valid (fst (next_random g)) = true) ->
  Forall preserves_valid transformations ->
  equivalent (fun _ => True)
    (main_sequential libm_sin libm_cos rng next_random next_below
       width height samples iter_per_sample transformations g)
    (Spec.generate_fractal rng next_random next_below main_world
       transformations samples iter_per_sample
       (mkState (FractalImage.init width height) g)).
Proof.
  intros Hcos Hsin Hrandom Htrans. unfold main_sequential, main_symmetry.
  now apply generate_fractal_equivalent.
Qed.

(** A zero can come back with the other sign: the copy of [(-0.0, -1.5)] is
    [(0.0, -1.5)], equal to the point as [==] has it. *)
Example rotated_negative_zero :
  rotated (fun _ => S754_zero false) (fun _ => f_one)
    (Point.mk (Num.Float (S754_zero true)) (Num.Float f_minus_1_5)) 0 1
  = Ok (Point.mk (Num.Float (S754_zero false)) (Num.Float f_minus_1_5)) /\
  F64.eqb (S754_zero false) (S754_zero true) = true.
Proof. vm_compute. split; reflexivity. Qed.

(** A coordinate that is not finite ends both loops, not always with the
    same exception: for [(0.0, inf)] the rotated copy has a NaN first
    coordinate, whose [int] is a [ValueError], while the point itself
    overflows [int] at its second coordinate. *)
Example rotated_infinite :
  (r <- rotated (fun _ => S754_zero false) (fun _ => f_one)
         (Point.mk (Num.Float f_zero) (Num.Float (S754_infinity false))) 0 1 ;;
   map_to_pixel main_world r (FractalImage.init 4 4)) = Raise ValueError /\
  map_to_pixel main_world
    (Point.mk (Num.Float f_zero) (Num.Float (S754_infinity false)))
    (FractalImage.init 4 4) = Raise OverflowError.
Proof. vm_compute. split; reflexivity. Qed.

(** The two loops can end with different exceptions: after a
    transformation that returns [(0.0, inf)], a well-formed point, the loop
    with the rotation ends with the [ValueError] of [int(nan)] and the loop
    without it with the [OverflowError] of [int(inf)]. *)
Example generate_fractal_exceptions_differ :
  let to_infinity := fun _ : Point.t =>
    Ok (Point.mk (Num.Float f_zero) (Num.Float (S754_infinity false))) in
  let next_random :=
    fun g : nat => (S754_finite false 4503599627370496 (-53), S g) in
  let next_below := fun (n : Z) (g : nat) => (Z.of_nat g mod n, S g) in
  let st := mkState (FractalImage.init 4 4) O in
  preserves_valid to_infinity /\
  snd (generate_fractal (fun _ => S754_zero false) (fun _ => f_one) nat
         next_random next_below main_world [to_infinity] 1 1 1 st)
  = Raise ValueError /\
  snd (Spec.generate_fractal nat next_random next_below main_world
         [to_infinity] 1 1 st)
  = Raise OverflowError.
Proof.
  split; [intros p q _ H; now injection H as <-|].
  vm_compute. split; reflexivity.
Qed.

(** * Further properties of the code

    ** Rounding from below, and integers *)

Module F64Bounds.

Import F64 F64Facts.

(** A fraction that is at least the number [M * 2^E] of the format rounds
    to at least that number. *)
Lemma round_ratio_above (s : bool) (a b : Z) (M : positive) (E K : Z) :
  0 < a -> 0 < b -> valid (S754_finite s M E) = true ->
  0 <= K -> 0 <= K + emin -> 0 <= K + (Z.log2 a - Z.log2 b - 53) ->
  Z.pos M * (b * 2 ^ (K + E)) <= a * 2 ^ K ->
  round_ratio s a b = S754_infinity s \/
  exists m e, round_ratio s a b = S754_finite s m e /\ E <= e /\
              Z.pos M * 2 ^ (K + E) <= Z.pos m * 2 ^ (K + e).
Proof.
  intros Ha Hb Hv HK HKm HKd Hge.
  cbn [valid] in Hv.
  apply andb_prop in Hv as [Hv Hnorm]. apply andb_prop in Hv as [Hv HEmax].
  apply andb_prop in Hv as [HM53 HEmin].
  apply Z.ltb_lt in HM53. apply Z.leb_le in HEmin, HEmax.
  change (2 ^ prec) with 9007199254740992 in HM53.
  change (2 ^ (prec - 1)) with 4503599627370496 in Hnorm.
  rewrite (round_ratio_unfold s a b Ha).
  pose proof (quantum_ge_emin a b) as He.
  destruct (quantum_in_binade a b K Ha Hb HK ltac:(lia) HKd) as [_ [Hhi Hlo]].
  pose proof (rounded_mantissa a b Ha Hb) as Hrm. cbv zeta in Hrm.
  pose proof (scaled_le a b (quantum a b) K (Z.pos M) Hb HK ltac:(lia)) as Hsc.
  pose proof (scaled_den_pos a b (quantum a b) Hb) as Hdn.
  set (e := quantum a b) in *.
  set (n := fst (scaled a b e)) in *. set (dn := snd (scaled a b e)) in *.
  destruct Hrm as (Hq & Hm & Hm53 & Hq52).
  pose proof (pow2_pos (K + e) ltac:(lia)) as HPe.
  pose proof (pow2_pos (K + E) ltac:(lia)) as HPE.
  change (2 ^ 53) with 9007199254740992 in *.
  change (2 ^ 52) with 4503599627370496 in *.
  assert (E <= e) as HEe.
  { destruct (Z.le_gt_cases E e) as [|Hlt]; [assumption|exfalso].
    assert (2 * 2 ^ (K + e) <= 2 ^ (K + E)).
    { rewrite <- Z.pow_succ_r by lia. apply pow2_le. lia. }
    apply orb_prop in Hnorm as [Hn|Hn];
      [apply Z.eqb_eq in Hn; lia|apply Z.leb_le in Hn].
    assert (2 * (b * 2 ^ (K + e)) <= b * 2 ^ (K + E)) by nia.
    assert (4503599627370496 * (b * 2 ^ (K + E))
            <= Z.pos M * (b * 2 ^ (K + E))) by nia.
    lia. }
  assert (Z.pos M * 2 ^ (K + E) <= nearest_even n dn * 2 ^ (K + e)) as Hbound.
  { destruct (Z.eq_dec e E) as [Heq|Hne].
    - rewrite Heq in *. apply Hsc in Hge.
      assert (Z.pos M <= n / dn) by (apply Z.div_le_lower_bound; lia).
      nia.
    - specialize (Hq52 ltac:(lia)).
      assert (2 * 2 ^ (K + E) <= 2 ^ (K + e)).
      { rewrite <- Z.pow_succ_r by lia. apply pow2_le. lia. }
      nia. }
  destruct (normalize_cases s (nearest_even n dn) e ltac:(lia))
    as [[Hm0 _]|[(p & Hp & Hpe & ->)|[Hm' ->]]].
  - exfalso. rewrite Hm0 in Hbound. nia.
  - destruct (Z.leb_spec e (emax - prec)); [|now left].
    right. exists p, e. rewrite <- Hpe. auto.
  - destruct (Z.leb_spec (e + 1) (emax - prec)); [|now left].
    right. exists 4503599627370496%positive, (e + 1).
    split; [reflexivity|]. split; [lia|].
    replace (K + (e + 1)) with (Z.succ (K + e)) by ring.
    rewrite Z.pow_succ_r by lia. rewrite Hm' in Hbound. lia.
Qed.

(** Every positive integer below [2^53] is a number of the format. *)
Lemma integer_mantissa (N : Z) :
  0 < N < 2 ^ 53 ->
  let k := 52 - Z.log2 N in
  0 <= k <= 52 /\ 2 ^ 52 <= N * 2 ^ k < 2 ^ 53.
Proof.
  intros HN k.
  pose proof (Z.log2_spec N ltac:(lia)) as [Hlo Hhi].
  pose proof (Z.log2_nonneg N) as Hnn.
  assert (Z.log2 N < 53) as Hlog.
  { apply Z.log2_lt_pow2; lia. }
  assert (2 ^ Z.log2 N * 2 ^ k = 2 ^ 52) as Hp.
  { rewrite <- pow2_add by (unfold k; lia). f_equal. unfold k. ring. }
  rewrite Z.pow_succ_r in Hhi by lia.
  pose proof (pow2_pos k ltac:(unfold k; lia)).
  change (2 ^ 53) with (2 * 2 ^ 52). split; [unfold k; lia|]. nia.
Qed.

(** [int] of a fraction between two integers below [2^53] lies between
    them: neither the rounding nor the truncation leaves the interval. *)
Lemma truediv_to_int_between (a b lo hi : Z) :
  0 < b -> 0 <= lo <= hi -> hi < 2 ^ 53 -> lo * b <= a <= hi * b ->
  exists v, (q <- int_truediv a b ;; to_int q) = Ok v /\ lo <= v <= hi.
Proof.
  intros Hb Hlohi Hhi Hab.
  assert (0 <= a) as Ha by nia.
  unfold int_truediv.
  destruct (Z.eqb_spec b 0); [lia|].
  destruct (Z.ltb_spec a 0); [lia|]. destruct (Z.ltb_spec b 0); [lia|].
  rewrite Z.abs_eq by lia. rewrite Z.abs_eq by lia. cbn [xorb].
  assert (emin = -1074) as Hemin by reflexivity.
  assert (emax - prec = 971) as Hemax by reflexivity.
  (* from above *)
  assert (exists v, to_int (round_ratio false a b) = Ok v /\ 0 <= v <= hi /\
                    is_inf (round_ratio false a b) = false) as (v & Hv & Hvhi & Hinf).
  { destruct (Z.eq_dec hi 0) as [->|Hne].
    - assert (a = 0) as -> by lia. exists 0. cbn. repeat split; lia.
    - destruct (integer_mantissa hi ltac:(lia)) as [Hk HM].
      set (k := 52 - Z.log2 hi) in *.
      pose proof (pow2_pos k ltac:(lia)) as HPk.
      destruct (to_int_round_ratio_le a b (hi * 2 ^ k) (- k) Ha Hb HM)
        as (v & Hv & Hle & Hinf); [lia| |].
      + rewrite Z.opp_involutive. nia.
      + exists v. rewrite Z.opp_involutive, Z.div_mul in Hle by lia. auto. }
  rewrite Hinf. cbn [bind]. exists v. split; [assumption|]. split; [|lia].
  (* from below *)
  destruct (Z.eq_dec lo 0) as [->|Hne]; [lia|].
  assert (0 < a) as Ha' by nia.
  destruct (integer_mantissa lo ltac:(lia)) as [Hk HM].
  set (k := 52 - Z.log2 lo) in *.
  pose proof (pow2_pos k ltac:(lia)) as HPk.
  destruct (lo * 2 ^ k) as [|M|M] eqn:HMeq; try lia.
  set (K := Z.abs (Z.log2 a - Z.log2 b - 53) + 1074).
  destruct (round_ratio_above false a b M (- k) K Ha' Hb)
    as [Hi|(m & e & Hf & He & Hge)]; try (unfold K; lia).
  { cbn [valid]. change (2 ^ prec) with (2 ^ 53).
    change (2 ^ (prec - 1)) with (2 ^ 52).
    rewrite !andb_true_iff, orb_true_iff, !Z.leb_le, Z.ltb_lt, Z.eqb_eq. lia. }
  { rewrite <- HMeq.
    replace K with ((K + - k) + k) at 2 by ring.
    rewrite (pow2_add (K + - k) k) by (unfold K; lia).
    pose proof (pow2_pos (K + - k) ltac:(unfold K; lia)). nia. }
  { rewrite Hi in Hinf. discriminate. }
  rewrite Hf in Hv. cbn [to_int signed] in Hv. injection Hv as <-.
  rewrite <- HMeq in Hge.
  assert (lo * 2 ^ K <= Z.pos m * 2 ^ (K + e)) as Hge'.
  { replace K with ((K + - k) + k) at 1 by ring.
    rewrite (pow2_add (K + - k) k) by (unfold K; lia). lia. }
  pose proof (pow2_pos K ltac:(unfold K; lia)) as HPK.
  destruct (Z.le_gt_cases 0 e) as [He0|He0].
  - rewrite Z.shiftl_mul_pow2 by lia.
    rewrite (pow2_add K e) in Hge' by (unfold K; lia).
    pose proof (pow2_pos e He0). nia.
  - rewrite shiftl_neg_exp by lia.
    apply Z.div_le_lower_bound; [apply pow2_pos; lia|].
    replace K with ((K + e) + - e) in Hge' at 1 by ring.
    rewrite (pow2_add (K + e) (- e)) in Hge' by (unfold K; lia).
    pose proof (pow2_pos (K + e) ltac:(unfold K; lia)).
    pose proof (pow2_pos (- e) ltac:(lia)). nia.
Qed.

End F64Bounds.

(** ** pixel.py: what a hit does to a channel *)

Section PixelMean.

Import Pixel.

(** A channel moves to a value between the one it had and the one of the
    colour. *)
Lemma mixed_between (old hits c weight : Z) :
  0 <= old < 2 ^ 53 -> 0 <= c < 2 ^ 53 ->
  0 <= hits -> 0 <= weight -> 0 < hits + weight ->
  exists v, mixed old hits c weight = Ok v /\
            Z.min old c <= v <= Z.max old c.
Proof.
  intros Ho Hc Hh Hw Hpos. unfold mixed.
  apply F64Bounds.truediv_to_int_between; try lia.
  destruct (Z.le_ge_cases old c).
  - rewrite Z.min_l, Z.max_r by lia. nia.
  - rewrite Z.min_r, Z.max_l by lia. nia.
Qed.

(** X2: a call [mix_color(color, weight)] with a weight that is not
    negative, on a pixel with a non-negative count (not both zero) and
    channels below 2^53, returns, leaves each channel between its old value
    and the channel of the colour, and adds one to the count, whatever the
    weight. *)
Theorem mix_color_between (self : t) (c0 c1 c2 weight : Z) :
  0 <= hit_count self -> 0 <= weight -> 0 < hit_count self + weight ->
  0 <= r self < 2 ^ 53 -> 0 <= g self < 2 ^ 53 -> 0 <= b self < 2 ^ 53 ->
  0 <= c0 < 2 ^ 53 -> 0 <= c1 < 2 ^ 53 -> 0 <= c2 < 2 ^ 53 ->
  exists self',
    mix_color self (c0, c1, c2) weight = (self', Ok tt) /\
    hit_count self' = hit_count self + 1 /\
    Z.min (r self) c0 <= r self' <= Z.max (r self) c0 /\
    Z.min (g self) c1 <= g self' <= Z.max (g self) c1 /\
    Z.min (b self) c2 <= b self' <= Z.max (b self) c2.
Proof.
  intros Hh Hw Hpos Hr Hg Hb H0 H1 H2.
  destruct (mixed_between (r self) (hit_count self) c0 weight Hr H0 Hh Hw Hpos)
    as (v0 & E0 & B0).
  destruct (mixed_between (g self) (hit_count self) c1 weight Hg H1 Hh Hw Hpos)
    as (v1 & E1 & B1).
  destruct (mixed_between (b self) (hit_count self) c2 weight Hb H2 Hh Hw Hpos)
    as (v2 & E2 & B2).
  exists (mk v0 v1 v2 (hit_count self + 1)).
  unfold mix_color. rewrite E0.
  cbn [set_r set_g set_b r g b hit_count]. rewrite E1.
  cbn [set_r set_g set_b r g b hit_count]. rewrite E2.
  cbn [set_r set_g set_b set_hit_count r g b hit_count].
  repeat split; lia.
Qed.

Lemma mix_color_between_witness :
  exists self',
    mix_color (mk 200 10 0 3) (100, 10, 255) 2 = (self', Ok tt) /\
    hit_count self' = 3 + 1 /\
    Z.min 200 100 <= r self' <= Z.max 200 100 /\
    Z.min 10 10 <= g self' <= Z.max 10 10 /\
    Z.min 0 255 <= b self' <= Z.max 0 255.
Proof.
  apply (mix_color_between (mk 200 10 0 3) 100 10 255 2); cbn; lia.
Defined.

(** On a count of zero the weighted mean is the colour. *)
Lemma mixed_first (old c : Z) : 0 <= c < 2 ^ 53 -> mixed old 0 c 1 = Ok c.
Proof.
  intros Hc. rewrite mixed_exact by lia.
  f_equal. replace (old * 0 + c * 1) with c by lia.
  replace (0 + 1) with 1 by lia. apply Z.div_1_r.
Qed.

(** X1: the first hit of a pixel, with the default weight, stores the
    colour as it is. *)
Theorem mix_color_first_hit (self : t) (c0 c1 c2 : Z) :
  hit_count self = 0 ->
  0 <= c0 < 2 ^ 53 -> 0 <= c1 < 2 ^ 53 -> 0 <= c2 < 2 ^ 53 ->
  mix_color self (c0, c1, c2) 1 = (mk c0 c1 c2 1, Ok tt).
Proof.
  intros Hh H0 H1 H2.
  destruct self as [r0 g0 b0 h0]. cbn [hit_count] in Hh. subst h0.
  unfold mix_color. cbn [set_r set_g set_b set_hit_count r g b hit_count].
  rewrite !mixed_first by assumption. reflexivity.
Qed.

Lemma mix_color_first_hit_witness :
  mix_color init (12, 0, 254) 1 = (mk 12 0 254 1, Ok tt).
Proof.
  apply (mix_color_first_hit init 12 0 254); cbn; try reflexivity; lia.
Defined.

End PixelMean.

(** ** fractal_image.py: hits add up *)

Section ImageHits.

Import FractalImage.

Lemma row_hits_store (row : list Pixel.t) (k : nat) (p p' : Pixel.t) :
  nth_error row k = Some p ->
  row_hits (store row k p') =
  row_hits row - Pixel.hit_count p + Pixel.hit_count p'.
Proof.
  revert k. induction row as [|q row IH]; intros [|k] H; cbn in *;
    try discriminate.
  - injection H as ->. unfold row_hits. lia.
  - change (fold_right _ 0 (store row k p')) with (row_hits (store row k p')).
    rewrite (IH k H). unfold row_hits. lia.
Qed.

Lemma data_hits_store (d : list (list Pixel.t)) (k : nat)
    (row row' : list Pixel.t) :
  nth_error d k = Some row ->
  fold_right (fun row n => row_hits row + n) 0 (store d k row') =
  fold_right (fun row n => row_hits row + n) 0 d - row_hits row + row_hits row'.
Proof.
  revert k. induction d as [|q d IH]; intros [|k] H; cbn in *;
    try discriminate.
  - injection H as ->. lia.
  - rewrite (IH k H). lia.
Qed.

Lemma Forall_nth_error {A : Type} (P : A -> Prop) (l : list A) (k : nat)
    (a : A) :
  Forall P l -> nth_error l k = Some a -> P a.
Proof.
  intros F H. rewrite Forall_forall in F. apply F.
  eapply nth_error_In; eassumption.
Qed.

(** A call inside the raster mixes the colour into the pixel at row [y],
    column [x], and into no other. *)
Lemma add_hit_inside (self : t) (x y : Z) (color : Z * Z * Z) :
  well_formed self -> contains self x y = true ->
  exists row pixel,
    nth_error (data self) (Z.to_nat y) = Some row /\
    nth_error row (Z.to_nat x) = Some pixel /\
    add_hit self x y color =
    (set_data (store (data self) (Z.to_nat y)
                 (store row (Z.to_nat x)
                    (fst (Pixel.mix_color pixel color 1)))) self,
     snd (Pixel.mix_color pixel color 1)).
Proof.
  intros (Hw & Hh & Hl & Hr) Hc. apply contains_true in Hc.
  destruct Hc as [Hx Hy].
  destruct (getitem_in_bounds (data self) y) as (row & Nr & Gr).
  { unfold len. rewrite Hl. lia. }
  assert (Lr : length row = Z.to_nat (width self)).
  { exact (Forall_nth_error _ _ _ _ Hr Nr). }
  destruct (getitem_in_bounds row x) as (pixel & Np & Gp).
  { unfold len. rewrite Lr. lia. }
  exists row, pixel. repeat split; try assumption.
  unfold add_hit.
  replace (contains self x y) with true
    by (symmetry; apply contains_true; lia).
  rewrite Gr, Gp. destruct (Pixel.mix_color pixel color 1). reflexivity.
Qed.

Lemma mix_color_within (bound : Z) (p : Pixel.t) (color : Z * Z * Z) :
  bound < 2 ^ 53 -> pixel_ok bound p -> color_within bound color ->
  exists p', Pixel.mix_color p color 1 = (p', Ok tt) /\ pixel_ok bound p' /\
             Pixel.hit_count p' = Pixel.hit_count p + 1.
Proof.
  intros Hb (Hr & Hg & Hbl & Hh) Hc. destruct color as [[c0 c1] c2].
  destruct Hc as (H0 & H1 & H2).
  destruct (mixed_between (Pixel.r p) (Pixel.hit_count p) c0 1)
    as (v0 & E0 & B0); try lia.
  destruct (mixed_between (Pixel.g p) (Pixel.hit_count p) c1 1)
    as (v1 & E1 & B1); try lia.
  destruct (mixed_between (Pixel.b p) (Pixel.hit_count p) c2 1)
    as (v2 & E2 & B2); try lia.
  exists (Pixel.mk v0 v1 v2 (Pixel.hit_count p + 1)).
  unfold Pixel.mix_color. rewrite E0.
  cbn [Pixel.set_r Pixel.set_g Pixel.set_b Pixel.r Pixel.g Pixel.b
       Pixel.hit_count]. rewrite E1.
  cbn [Pixel.set_r Pixel.set_g Pixel.set_b Pixel.r Pixel.g Pixel.b
       Pixel.hit_count]. rewrite E2.
  cbn [Pixel.set_r Pixel.set_g Pixel.set_b Pixel.set_hit_count
       Pixel.r Pixel.g Pixel.b Pixel.hit_count].
  split; [reflexivity|]. split; [|reflexivity].
  unfold pixel_ok. cbn [Pixel.r Pixel.g Pixel.b Pixel.hit_count]. lia.
Qed.

(** One call: it returns, the image keeps its shape and its bound, and the
    hits grow by one exactly when the coordinates are inside. *)
Lemma add_hit_ok (bound : Z) (self : t) (x y : Z) (color : Z * Z * Z) :
  bound < 2 ^ 53 -> image_ok bound self -> color_within bound color ->
  exists self',
    add_hit self x y color = (self', Ok tt) /\ image_ok bound self' /\
    width self' = width self /\ height self' = height self /\
    hit_total self' = hit_total self + (if contains self x y then 1 else 0).
Proof.
  intros Hb [Hwf Hpx] Hc. destruct (contains self x y) eqn:C.
  - destruct (add_hit_inside self x y color Hwf C) as (row & pixel & Nr & Np & E).
    assert (Prow : Forall (pixel_ok bound) row)
      by exact (Forall_nth_error _ _ _ _ Hpx Nr).
    assert (Ppx : pixel_ok bound pixel)
      by exact (Forall_nth_error _ _ _ _ Prow Np).
    destruct (mix_color_within bound pixel color Hb Ppx Hc) as (p' & M & Pp' & Hh).
    rewrite M in E. cbn [fst snd] in E.
    eexists. split; [exact E|].
    destruct Hwf as (Hw & Hht & Hl & Hr).
    repeat split; cbn [set_data width height data]; try assumption.
    + rewrite length_store. exact Hl.
    + apply Forall_store; [exact Hr|]. rewrite length_store.
      exact (Forall_nth_error _ _ _ _ Hr Nr).
    + apply Forall_store; [exact Hpx|]. apply Forall_store; assumption.
    + unfold hit_total. cbn [data set_data].
      rewrite (data_hits_store _ _ row _ Nr).
      rewrite (row_hits_store _ _ pixel _ Np). lia.
  - exists self. rewrite add_hit_outside by (apply contains_false; exact C).
    split; [reflexivity|]. split; [split; assumption|].
    repeat split; lia.
Qed.

(** X3: a series of calls [add_hit] with colours within a bound on an
    image within that bound: every call returns, the image keeps its shape
    and its bound, and the hits counted grow by the number of calls that
    fall inside the raster. *)
Theorem add_hits_counts (bound : Z) (hits : list (Z * Z * (Z * Z * Z))) :
  bound < 2 ^ 53 ->
  Forall (fun '(_, _, color) => color_within bound color) hits ->
  forall self, image_ok bound self ->
  exists self',
    add_hits self hits = (self', Ok tt) /\ image_ok bound self' /\
    width self' = width self /\ height self' = height self /\
    hit_total self' = hit_total self + hits_inside self hits.
Proof.
  intros Hb F. induction F as [|[[x y] color] hits Hc F IH]; intros self Hs.
  - exists self. unfold hits_inside, len. cbn. repeat split; try apply Hs; lia.
  - destruct (add_hit_ok bound self x y color Hb Hs Hc)
      as (s1 & E1 & Ok1 & W1 & H1 & T1).
    destruct (IH s1 Ok1) as (s2 & E2 & Ok2 & W2 & H2 & T2).
    exists s2. cbn [add_hits]. rewrite E1.
    split; [exact E2|]. split; [exact Ok2|].
    split; [congruence|]. split; [congruence|].
    rewrite T2, T1.
    assert (Same : hits_inside s1 hits = hits_inside self hits).
    { unfold hits_inside. f_equal. apply filter_ext.
      intros [[x' y'] c']. unfold contains. rewrite W1, H1. reflexivity. }
    rewrite Same. unfold hits_inside, len. cbn [filter].
    destruct (contains self x y); cbn [length]; lia.
Qed.

Lemma add_hits_counts_witness :
  exists self',
    add_hits (init 2 2)
      [(0, 0, (10, 20, 30)); (5, 0, (1, 2, 3)); (0, 0, (30, 20, 10))] =
    (self', Ok tt) /\ image_ok 255 self' /\
    width self' = 2 /\ height self' = 2 /\ hit_total self' = 0 + 2.
Proof.
  apply (add_hits_counts 255
           [(0, 0, (10, 20, 30)); (5, 0, (1, 2, 3)); (0, 0, (30, 20, 10))]).
  - reflexivity.
  - repeat constructor; cbn; lia.
  - split; [apply init_well_formed; lia|].
    repeat constructor; cbn; lia.
Defined.

End ImageHits.

(** ** main.py: the engine keeps the image in shape *)

Section ChannelRange.

Import F64 F64Facts.

(** A draw of [random.random()] gives a channel from 0 to 254. *)
Lemma channel_of_unit_interval (u : F64.float) :
  valid u = true -> in_unit_interval u = true ->
  exists c, channel_of (Num.Float u) = Ok c /\ 0 <= c <= 254.
Proof.
  intros Hv Hu. unfold channel_of, Num.mul, Num.arith.
  change (Num.to_float (Num.Int 255))
    with (Ok (S754_finite false 8972014882652160 (-45)) : result float).
  cbn [bind Num.to_float].
  destruct u as [s| | |[|] m e]; try discriminate.
  - exists 0. cbn. split; [reflexivity|lia].
  - cbn [valid in_unit_interval] in Hv, Hu.
    apply andb_prop in Hu as [He Hm1].
    apply Z.ltb_lt in He, Hm1.
    apply andb_prop in Hv as [Hv _]. apply andb_prop in Hv as [Hv _].
    apply andb_prop in Hv as [Hm53 Hemin].
    apply Z.ltb_lt in Hm53. apply Z.leb_le in Hemin.
    change (2 ^ prec) with 9007199254740992 in Hm53.
    cbn [F64.mul xorb Num.to_int]. unfold round_dyadic.
    destruct (Z.leb_spec 0 (-45 + e)); [lia|].
    pose proof (pow2_pos (- e) ltac:(lia)) as HP.
    assert (2 ^ (- (-45 + e)) = 35184372088832 * 2 ^ (- e)) as Hp45.
    { replace (- (-45 + e)) with (45 + - e) by ring.
      rewrite pow2_add by lia. reflexivity. }
    assert (2 ^ (- e) <= 9007199254740992 \/ 18014398509481984 <= 2 ^ (- e))
      as Hcase.
    { destruct (Z.le_gt_cases (- e) 53).
      - left. change 9007199254740992 with (2 ^ 53). apply pow2_le. lia.
      - right. change 18014398509481984 with (2 ^ 54). apply pow2_le. lia. }
    assert (2 ^ 52 <= 8972014882652159 < 2 ^ 53) as HM
      by (cbv; intuition congruence).
    assert (emin <= -45 <= 0) as HE by (cbv; intuition congruence).
    assert (2 * (8972014882652160 * Z.pos m * 2 ^ (- -45))
            < (2 * 8972014882652159 + 1) * 2 ^ (- (-45 + e))) as Hmid.
    { rewrite Hp45. change (2 ^ (- -45)) with 35184372088832.
      destruct Hcase; lia. }
    destruct (to_int_round_ratio_le (8972014882652160 * Z.pos m)
                (2 ^ (- (-45 + e))) 8972014882652159 (-45)
                ltac:(lia) ltac:(lia) HM HE Hmid)
      as (v & Hvv & Hb & _).
    exists v. split; [assumption|].
    change (8972014882652159 / 2 ^ (- -45)) with 254 in Hb. lia.
Qed.

End ChannelRange.

Section EngineKeeps.

Variable rng : Type.
Variable next_random : rng -> F64.float * rng.
Variable next_below : Z -> rng -> Z * rng.

Lemma keeps_ret {A : Type} (a : A) : keeps_image (ret rng a).
Proof. intros st. reflexivity. Qed.

Lemma keeps_pure {A : Type} (x : result A) : keeps_image (pure rng x).
Proof. intros st. reflexivity. Qed.

Lemma keeps_random : keeps_image (random rng next_random).
Proof.
  intros st. unfold random. destruct (next_random (gen st)). reflexivity.
Qed.

Lemma keeps_choice {A : Type} (seq : list A) :
  keeps_image (choice rng next_below seq).
Proof.
  intros st. unfold choice. destruct (len seq =? 0); [reflexivity|].
  destruct (next_below (len seq) (gen st)). reflexivity.
Qed.

Lemma keeps_bind {A B : Type} (c : M rng A) (k : A -> M rng B) :
  keeps_image c -> (forall a, keeps_image (k a)) ->
  keeps_image (mbind rng c k).
Proof.
  intros Hc Hk st. unfold mbind. specialize (Hc st).
  destruct (c st) as [st1 [a|e]]; cbn [fst] in *; [|exact Hc].
  rewrite (Hk a st1). exact Hc.
Qed.

Lemma keeps_uniform (a b : Num.t) : keeps_image (uniform rng next_random a b).
Proof.
  unfold uniform. apply keeps_bind; [apply keeps_pure|]. intros d.
  apply keeps_bind; [apply keeps_random|]. intros u. apply keeps_pure.
Qed.

Lemma keeps_random_point (rect : Rect.t) :
  keeps_image (random_point_in_rect rng next_random rect).
Proof.
  unfold random_point_in_rect.
  apply keeps_bind; [apply keeps_pure|]. intros bx.
  apply keeps_bind; [apply keeps_uniform|]. intros x.
  apply keeps_bind; [apply keeps_pure|]. intros by_.
  apply keeps_bind; [apply keeps_uniform|]. intros y. apply keeps_ret.
Qed.

Lemma adds_of_keeps {A : Type} (c : M rng A) :
  keeps_image c -> adds_at_most 0 (fun _ => True) c.
Proof.
  intros H st Hst. split; [|trivial]. specialize (H st).
  unfold grows. rewrite H. split; [exact Hst|]. repeat split; lia.
Qed.

End EngineKeeps.

Section EngineBounds.

Variables libm_sin libm_cos : F64.float -> F64.float.
Variable rng : Type.
Variable next_random : rng -> F64.float * rng.
Variable next_below : Z -> rng -> Z * rng.

Hypothesis random_valid : forall g, F64.valid (fst (next_random g)) = true.
Hypothesis random_unit :
  forall g, F64.in_unit_interval (fst (next_random g)) = true.

Local Abbreviation any := (fun _ => True).

Lemma grows_refl (st : state rng) :
  image_ok 254 (image st) -> grows 0 st st.
Proof. intros H. unfold grows. split; [exact H|]. repeat split; lia. Qed.

Lemma grows_trans (n1 n2 : Z) (s1 s2 s3 : state rng) :
  grows n1 s1 s2 -> grows n2 s2 s3 -> grows (n1 + n2) s1 s3.
Proof.
  intros (_ & W1 & H1 & B1) (O2 & W2 & H2 & B2). unfold grows.
  split; [exact O2|]. repeat split; try congruence; lia.
Qed.

Lemma adds_weaken {A : Type} (n n' : Z) (Q Q' : A -> Prop) (c : M rng A) :
  n <= n' -> (forall a, Q a -> Q' a) ->
  adds_at_most n Q c -> adds_at_most n' Q' c.
Proof.
  intros Hn HQ H st Hst. destruct (H st Hst) as [(O & W & Hh & B) V].
  split; [|intros a E; apply HQ, V, E].
  unfold grows. split; [exact O|]. repeat split; try assumption; lia.
Qed.

Lemma adds_pure {A : Type} (x : result A) :
  adds_at_most 0 any (pure rng x).
Proof. intros st Hst. split; [apply grows_refl, Hst|trivial]. Qed.

Lemma adds_ret {A : Type} (a : A) : adds_at_most 0 any (ret rng a).
Proof. intros st Hst. split; [apply grows_refl, Hst|trivial]. Qed.

Lemma adds_bind {A B : Type} (n1 n2 : Z) (Q1 : A -> Prop) (Q2 : B -> Prop)
    (c : M rng A) (k : A -> M rng B) :
  adds_at_most n1 Q1 c -> 0 <= n2 ->
  (forall a, Q1 a -> adds_at_most n2 Q2 (k a)) ->
  adds_at_most (n1 + n2) Q2 (mbind rng c k).
Proof.
  intros Hc Hn Hk st Hst. destruct (Hc st Hst) as [G V]. unfold mbind.
  destruct (c st) as [st1 [a|e]]; cbn [fst snd] in *.
  - destruct (Hk a (V a eq_refl) st1 (proj1 G)) as [G2 V2].
    split; [exact (grows_trans _ _ _ _ _ G G2)|exact V2].
  - split; [|discriminate].
    destruct G as (O & W & Hh & Bd). unfold grows.
    split; [exact O|]. repeat split; try assumption; lia.
Qed.

Lemma adds_for_range {A : Type} (k : Z) (body : Z -> A -> M rng A) :
  0 <= k -> (forall i a, adds_at_most k any (body i a)) ->
  forall n i a, adds_at_most (Z.of_nat n * k) any (for_range rng n i body a).
Proof.
  intros Hk Hb. induction n as [|n IH]; intros i a; cbn [for_range].
  - apply adds_ret.
  - apply (adds_weaken (k + Z.of_nat n * k) _ any any); [lia|trivial|].
    apply (adds_bind k (Z.of_nat n * k) any any); [apply Hb|nia|].
    intros a' _. apply IH.
Qed.

Lemma adds_range {A : Type} (k n : Z) (body : Z -> A -> M rng A) (a : A) :
  0 <= k -> (forall i a, adds_at_most k any (body i a)) ->
  adds_at_most (Z.max 0 n * k) any (range rng n body a).
Proof.
  intros Hk Hb. unfold range.
  replace (Z.max 0 n) with (Z.of_nat (Z.to_nat n)) by lia.
  now apply adds_for_range.
Qed.

Lemma adds_random_channel :
  adds_at_most 0 (fun c => 0 <= c <= 254) (random_channel rng next_random).
Proof.
  intros st Hst. unfold random_channel, mbind, random, pure.
  pose proof (random_valid (gen st)) as Hv.
  pose proof (random_unit (gen st)) as Hu.
  destruct (next_random (gen st)) as [u g']. cbn [fst snd] in *.
  split; [apply (grows_refl (mkState (image st) g')), Hst|].
  intros a E.
  destruct (channel_of_unit_interval u Hv Hu) as (c & Ec & Hc). congruence.
Qed.

Lemma adds_add_hit (x y : Z) (color : Z * Z * Z) :
  color_within 254 color -> adds_at_most 1 any (add_hit rng x y color).
Proof.
  intros Hc st Hst. unfold add_hit.
  destruct (add_hit_ok 254 (image st) x y color eq_refl Hst Hc)
    as (img & E & O & W & H & T).
  rewrite E. cbn [fst snd]. split; [|trivial].
  unfold grows. cbn [image]. split; [exact O|].
  repeat split; try assumption;
    destruct (FractalImage.contains (image st) x y); lia.
Qed.

Lemma adds_plot (world : Rect.t) (p : Point.t) :
  adds_at_most 1 any (plot rng next_random world p).
Proof.
  unfold plot.
  apply (adds_bind 0 1 any any); [|lia|].
  { intros st Hst. split; [apply grows_refl, Hst|trivial]. }
  intros [[px py]|] _.
  - eapply (adds_bind 0 1); [apply adds_random_channel|lia|].
    intros c0 H0.
    eapply (adds_bind 0 1); [apply adds_random_channel|lia|].
    intros c1 H1.
    eapply (adds_bind 0 1); [apply adds_random_channel|lia|].
    intros c2 H2.
    apply adds_add_hit. cbn in *. lia.
  - apply (adds_weaken 0 1 any any); [lia|trivial|apply adds_ret].
Qed.

Lemma adds_choice {A : Type} (seq : list A) :
  adds_at_most 0 any (choice rng next_below seq).
Proof.
  intros st Hst. unfold choice. split; [|trivial].
  destruct (len seq =? 0); [apply grows_refl, Hst|].
  destruct (next_below (len seq) (gen st)) as [i g'].
  apply (grows_refl (mkState (image st) g')), Hst.
Qed.

Lemma adds_iteration (world : Rect.t)
    (transformations : list (Point.t -> result Point.t)) (symmetry : Z)
    (point : Point.t) :
  adds_at_most (Z.max 0 symmetry) any
    (iteration libm_sin libm_cos rng next_random next_below world
       transformations symmetry point).
Proof.
  unfold iteration.
  apply (adds_bind 0 (Z.max 0 symmetry) any any); [apply adds_choice|lia|].
  intros transform _.
  apply (adds_bind 0 (Z.max 0 symmetry) any any); [apply adds_pure|lia|].
  intros q _.
  apply (adds_weaken (Z.max 0 symmetry * 1 + 0) _ any any); [lia|trivial|].
  apply (adds_bind _ 0 any any); [|lia|intros; apply adds_ret].
  apply adds_range; [lia|]. intros s _. unfold plot_rotated.
  apply (adds_bind 0 1 any any); [apply adds_pure|lia|].
  intros rp _. apply adds_plot.
Qed.

Lemma adds_sample (world : Rect.t)
    (transformations : list (Point.t -> result Point.t))
    (iter_per_sample symmetry : Z) :
  adds_at_most (Z.max 0 iter_per_sample * Z.max 0 symmetry) any
    (sample libm_sin libm_cos rng next_random next_below world
       transformations iter_per_sample symmetry).
Proof.
  unfold sample.
  apply (adds_bind 0 (Z.max 0 iter_per_sample * Z.max 0 symmetry) any any);
    [|apply Z.mul_nonneg_nonneg; lia|].
  { apply adds_of_keeps, keeps_random_point. }
  intros point _.
  apply (adds_weaken (Z.max 0 iter_per_sample * Z.max 0 symmetry + 0) _ any any);
    [lia|trivial|].
  apply (adds_bind _ 0 any any); [|lia|intros; apply adds_ret].
  apply adds_range; [lia|]. intros i p. apply adds_iteration.
Qed.

Lemma adds_generate_fractal (world : Rect.t)
    (transformations : list (Point.t -> result Point.t))
    (samples iter_per_sample symmetry : Z) :
  adds_at_most
    (Z.max 0 samples * (Z.max 0 iter_per_sample * Z.max 0 symmetry)) any
    (generate_fractal libm_sin libm_cos rng next_random next_below world
       transformations samples iter_per_sample symmetry).
Proof.
  unfold generate_fractal.
  apply adds_range; [apply Z.mul_nonneg_nonneg; lia|].
  intros i a. apply adds_sample.
Qed.

End EngineBounds.

(** X4: whatever the generator draws (floats in [0, 1), as
    [random.random()] returns), [generate_fractal] leaves an image of the
    shape of the constructor with channels from 0 to 254 as such an image,
    of the same size, and adds at most [samples * iter_per_sample *
    symmetry] hits to it; this holds for a run that returns and for one
    that an exception ended. *)
Theorem generate_fractal_bounded
    (libm_sin libm_cos : F64.float -> F64.float) (rng : Type)
    (next_random : rng -> F64.float * rng) (next_below : Z -> rng -> Z * rng)
    (world : Rect.t) (transformations : list (Point.t -> result Point.t))
    (samples iter_per_sample symmetry : Z) (st : state rng) :
  (forall g, F64.valid (fst (next_random g)) = true) ->
  (forall g, F64.in_unit_interval (fst (next_random g)) = true) ->
  image_ok 254 (image st) ->
  let st' := fst (generate_fractal libm_sin libm_cos rng next_random next_below
                    world transformations samples iter_per_sample symmetry st)
  in
  image_ok 254 (image st') /\
  FractalImage.width (image st') = FractalImage.width (image st) /\
  FractalImage.height (image st') = FractalImage.height (image st) /\
  hit_total (image st) <= hit_total (image st')
    <= hit_total (image st)
       + Z.max 0 samples * (Z.max 0 iter_per_sample * Z.max 0 symmetry).
Proof.
  intros Hv Hu Hst.
  exact (proj1 (adds_generate_fractal libm_sin libm_cos rng next_random
                  next_below Hv Hu world transformations samples
                  iter_per_sample symmetry st Hst)).
Qed.

Lemma generate_fractal_bounded_witness :
  let libm_sin := fun _ : F64.float => S754_zero false in
  let libm_cos := fun _ : F64.float => f_one in
  let next_random := fun g : nat => (f_below_one, S g) in
  let next_below := fun (n : Z) (g : nat) => (Z.of_nat g mod n, S g) in
  let st := mkState (FractalImage.init 2 2) O in
  let st' := fst (generate_fractal libm_sin libm_cos nat next_random next_below
                    main_world (TRANSFORMATIONS libm_sin libm_cos) 2 3 1 st)
  in
  image_ok 254 (image st') /\
  FractalImage.width (image st') = 2 /\
  FractalImage.height (image st') = 2 /\
  0 <= hit_total (image st') <= 0 + 2 * (3 * 1).
Proof.
  intros libm_sin libm_cos next_random next_below st.
  apply (generate_fractal_bounded libm_sin libm_cos nat next_random next_below
           main_world (TRANSFORMATIONS libm_sin libm_cos) 2 3 1 st).
  - intros g. reflexivity.
  - intros g. reflexivity.
  - split; [apply init_well_formed; lia|].
    repeat constructor; cbn; lia.
Defined.

(** X5: with no sample, no iteration or no rotational copy to make
    ([samples], [iter_per_sample] or [symmetry] zero or negative) the image
    is left as it was; with no sample nothing at all happens. *)
Theorem generate_fractal_idle
    (libm_sin libm_cos : F64.float -> F64.float) (rng : Type)
    (next_random : rng -> F64.float * rng) (next_below : Z -> rng -> Z * rng)
    (world : Rect.t) (transformations : list (Point.t -> result Point.t))
    (samples iter_per_sample symmetry : Z) (st : state rng) :
  samples <= 0 \/ iter_per_sample <= 0 \/ symmetry <= 0 ->
  let run := generate_fractal libm_sin libm_cos rng next_random next_below
               world transformations samples iter_per_sample symmetry st in
  image (fst run) = image st /\ (samples <= 0 -> run = (st, Ok tt)).
Proof.
  intros H run. split.
  - assert (R0 : forall A n (body : Z -> A -> M rng A) a,
               n <= 0 -> keeps_image (range rng n body a)).
    { intros A n body a Hn. unfold range.
      replace (Z.to_nat n) with O by lia. apply keeps_ret. }
    assert (R : forall A n (body : Z -> A -> M rng A) a,
              (forall i a, keeps_image (body i a)) ->
              keeps_image (range rng n body a)).
    { intros A n body a Hb. unfold range. generalize 0 as i. revert a.
      induction (Z.to_nat n) as [|k IH]; intros a i; cbn [for_range].
      - apply keeps_ret.
      - apply keeps_bind; [apply Hb|]. intros a'. apply IH. }
    subst run. unfold generate_fractal.
    destruct H as [H|H]; [apply R0, H|].
    apply R. intros _ _. unfold sample.
    apply keeps_bind; [apply keeps_random_point|]. intros point.
    apply keeps_bind; [|intros; apply keeps_ret].
    destruct H as [H|H]; [apply R0, H|].
    apply R. intros _ p. unfold iteration.
    apply keeps_bind; [apply keeps_choice|]. intros transform.
    apply keeps_bind; [apply keeps_pure|]. intros q.
    apply keeps_bind; [|intros; apply keeps_ret].
    apply R0, H.
  - intros Hs. subst run. unfold generate_fractal, range.
    replace (Z.to_nat samples) with O by lia. reflexivity.
Qed.

Lemma generate_fractal_idle_witness :
  let libm_sin := fun _ : F64.float => S754_zero false in
  let libm_cos := fun _ : F64.float => f_one in
  let next_random := fun g : nat => (f_below_one, S g) in
  let next_below := fun (n : Z) (g : nat) => (Z.of_nat g mod n, S g) in
  let st := mkState (FractalImage.init 2 2) O in
  let run := generate_fractal libm_sin libm_cos nat next_random next_below
               main_world (TRANSFORMATIONS libm_sin libm_cos) 5 0 1 st in
  image (fst run) = FractalImage.init 2 2 /\ (5 <= 0 -> run = (st, Ok tt)).
Proof.
  intros libm_sin libm_cos next_random next_below st.
  apply (generate_fractal_idle libm_sin libm_cos nat next_random next_below
           main_world (TRANSFORMATIONS libm_sin libm_cos) 5 0 1 st).
  right. left. lia.
Defined.

(** X6: with an empty list of transformations and at least one sample and
    one iteration, [generate_fractal] draws the first start point and is
    ended by the [IndexError] of [random.choice] (or by the exception that
    drawing the point raised); the image is not touched. *)
Theorem generate_fractal_no_transformations
    (libm_sin libm_cos : F64.float -> F64.float) (rng : Type)
    (next_random : rng -> F64.float * rng) (next_below : Z -> rng -> Z * rng)
    (world : Rect.t) (samples iter_per_sample symmetry : Z) (st : state rng) :
  0 < samples -> 0 < iter_per_sample ->
  let start := random_point_in_rect rng next_random world st in
  generate_fractal libm_sin libm_cos rng next_random next_below world []
    samples iter_per_sample symmetry st
  = (fst start, match snd start with
                | Ok _ => Raise IndexError
                | Raise e => Raise e
                end) /\
  image (fst start) = image st.
Proof.
  intros Hs Hi start. split; [|apply keeps_random_point].
  unfold generate_fractal, range.
  destruct (Z.to_nat samples) as [|n] eqn:En; [lia|].
  cbn [for_range]. unfold mbind at 1. unfold sample. unfold mbind at 1.
  subst start. destruct (random_point_in_rect rng next_random world st)
    as [st1 [p|e]]; [|reflexivity].
  cbn [fst snd]. unfold mbind at 1. unfold range.
  destruct (Z.to_nat iter_per_sample) as [|m] eqn:Em; [lia|].
  cbn [for_range]. unfold mbind at 1. unfold iteration. unfold mbind at 1.
  unfold choice. cbn [len length Z.of_nat Z.eqb]. reflexivity.
Qed.

Lemma generate_fractal_no_transformations_witness :
  let libm_sin := fun _ : F64.float => S754_zero false in
  let libm_cos := fun _ : F64.float => f_one in
  let next_random := fun g : nat => (f_below_one, S g) in
  let next_below := fun (n : Z) (g : nat) => (Z.of_nat g mod n, S g) in
  let st := mkState (FractalImage.init 2 2) O in
  generate_fractal libm_sin libm_cos nat next_random next_below main_world []
    4 3 1 st
  = (mkState (FractalImage.init 2 2) 2%nat, Raise IndexError) /\
  FractalImage.init 2 2 = FractalImage.init 2 2.
Proof.
  intros libm_sin libm_cos next_random next_below st.
  apply (generate_fractal_no_transformations libm_sin libm_cos nat next_random
           next_below main_world 4 3 1 st); lia.
Defined.

(** ** main.py: a worker that nothing interrupts *)

Section WorkerAlone.

Variables libm_sin libm_cos : F64.float -> F64.float.
Variable rng : Type.
Variable next_random : rng -> F64.float * rng.
Variable next_below : Z -> rng -> Z * rng.

Local Abbreviation exec := (Worker.exec rng next_random next_below).

Lemma exec_bind {A B : Type} (p : Worker.t A) (k : A -> Worker.t B) :
  forall st,
  exec (Worker.bind p k) st = mbind rng (exec p) (fun a => exec (k a)) st.
Proof.
  induction p as [a|e|h IH|n h IH|h IH|h IH|x y color h IH]; intros st;
    cbn [Worker.bind Worker.exec]; unfold mbind in *; cbn [Worker.exec].
  - reflexivity.
  - reflexivity.
  - destruct (next_random (gen st)) as [u g']. apply IH.
  - destruct (next_below n (gen st)) as [i g']. apply IH.
  - apply IH.
  - apply IH.
  - destruct (FractalImage.add_hit (image st) x y color) as [img [u|e]];
      [apply IH|reflexivity].
Qed.

Lemma exec_pure {A : Type} (x : result A) (st : state rng) :
  exec (Worker.pure x) st = pure rng x st.
Proof. destruct x; reflexivity. Qed.

(** Two computations that agree, bound to continuations that agree. *)
Lemma exec_bind_as {A B : Type} (p : Worker.t A) (k : A -> Worker.t B)
    (c : M rng A) (f : A -> M rng B) (st : state rng) :
  exec p st = c st ->
  (forall a st', exec (k a) st' = f a st') ->
  exec (Worker.bind p k) st = mbind rng c f st.
Proof.
  intros Hp Hk. rewrite exec_bind. unfold mbind. rewrite Hp.
  destruct (c st) as [st' [a|e]]; [apply Hk|reflexivity].
Qed.

Lemma exec_random (st : state rng) :
  exec Worker.random st = random rng next_random st.
Proof.
  unfold Worker.random, random. cbn [Worker.exec].
  destruct (next_random (gen st)). reflexivity.
Qed.

Lemma exec_uniform (a b : Num.t) (st : state rng) :
  exec (Worker.uniform a b) st = uniform rng next_random a b st.
Proof.
  unfold Worker.uniform, uniform.
  apply exec_bind_as; [apply exec_pure|]. intros d st1.
  apply exec_bind_as; [apply exec_random|]. intros u st2.
  apply exec_pure.
Qed.

Lemma exec_choice {A : Type} (seq : list A) (st : state rng) :
  exec (Worker.choice seq) st = choice rng next_below seq st.
Proof.
  unfold Worker.choice, choice. destruct (len seq =? 0); [reflexivity|].
  cbn [Worker.exec]. destruct (next_below (len seq) (gen st)) as [i g'].
  apply exec_pure.
Qed.

Lemma exec_random_point (rect : Rect.t) (st : state rng) :
  exec (Worker.random_point_in_rect rect) st
  = random_point_in_rect rng next_random rect st.
Proof.
  unfold Worker.random_point_in_rect, random_point_in_rect.
  apply exec_bind_as; [apply exec_pure|]. intros bx st1.
  apply exec_bind_as; [apply exec_uniform|]. intros x st2.
  apply exec_bind_as; [apply exec_pure|]. intros by_ st3.
  apply exec_bind_as; [apply exec_uniform|]. intros y st4.
  reflexivity.
Qed.

Lemma exec_for_range {A : Type} (body : Z -> A -> Worker.t A)
    (body' : Z -> A -> M rng A) :
  (forall i a st, exec (body i a) st = body' i a st) ->
  forall n i a st,
    exec (Worker.for_range n i body a) st = for_range rng n i body' a st.
Proof.
  intros Hb. induction n as [|n IH]; intros i a st;
    cbn [Worker.for_range for_range]; [reflexivity|].
  apply exec_bind_as; [apply Hb|]. intros a' st'. apply IH.
Qed.

Lemma exec_random_channel (st : state rng) :
  exec Worker.random_channel st = random_channel rng next_random st.
Proof.
  unfold Worker.random_channel, random_channel.
  apply exec_bind_as; [apply exec_random|]. intros u st1. apply exec_pure.
Qed.

Lemma exec_pixel_index (p origin extent : Num.t) (size : Worker.t Z)
    (n : Z) (st : state rng) :
  exec size st = (st, Ok n) ->
  exec (Worker.pixel_index p origin extent size) st
  = (st, pixel_index p origin extent n).
Proof.
  intros Hs. unfold Worker.pixel_index, pixel_index.
  rewrite exec_bind. unfold mbind. rewrite exec_pure. unfold pure.
  destruct (Num.sub p origin) as [d|e]; [|reflexivity]. cbn [bind].
  rewrite exec_bind. unfold mbind. rewrite exec_pure. unfold pure.
  destruct (Num.truediv d extent) as [q|e]; [|reflexivity]. cbn [bind].
  rewrite exec_bind. unfold mbind. rewrite Hs. apply exec_pure.
Qed.

Lemma exec_contains (x y : Z) (st : state rng) :
  exec (Worker.contains x y) st
  = (st, Ok (FractalImage.contains (image st) x y)).
Proof.
  unfold Worker.contains, FractalImage.contains.
  destruct (0 <=? x); [|reflexivity]. cbn [Worker.exec andb].
  destruct (x <? FractalImage.width (image st)); [|reflexivity].
  destruct (0 <=? y); [|reflexivity]. reflexivity.
Qed.

Lemma exec_map_to_pixel (rect : Rect.t) (point : Point.t) (st : state rng) :
  exec (Worker.map_to_pixel rect point) st
  = (st, map_to_pixel rect point (image st)).
Proof.
  unfold Worker.map_to_pixel, map_to_pixel.
  rewrite exec_bind. unfold mbind.
  rewrite (exec_pixel_index _ _ _ _ (FractalImage.width (image st)))
    by reflexivity.
  destruct (pixel_index (Point.x point) _ _ _) as [x|e]; [|reflexivity].
  cbn [bind]. rewrite exec_bind. unfold mbind.
  rewrite (exec_pixel_index _ _ _ _ (FractalImage.height (image st)))
    by reflexivity.
  destruct (pixel_index (Point.y point) _ _ _) as [y|e]; [|reflexivity].
  cbn [bind]. rewrite exec_bind. unfold mbind. rewrite exec_contains.
  cbn [Worker.exec]. destruct (FractalImage.contains (image st) x y);
    reflexivity.
Qed.

Lemma exec_plot (world : Rect.t) (p : Point.t) (st : state rng) :
  exec (Worker.plot world p) st = plot rng next_random world p st.
Proof.
  unfold Worker.plot, plot.
  apply exec_bind_as; [apply exec_map_to_pixel|].
  intros [[px py]|] st1; [|reflexivity].
  apply exec_bind_as; [apply exec_random_channel|]. intros c0 st2.
  apply exec_bind_as; [apply exec_random_channel|]. intros c1 st3.
  apply exec_bind_as; [apply exec_random_channel|]. intros c2 st4.
  cbn [Worker.exec]. unfold add_hit.
  destruct (FractalImage.add_hit (image st4) px py (c0, c1, c2))
    as [img [[]|e]]; reflexivity.
Qed.

Lemma exec_iteration (world : Rect.t)
    (transformations : list (Point.t -> result Point.t)) (symmetry : Z)
    (point : Point.t) (st : state rng) :
  exec (Worker.iteration libm_sin libm_cos world transformations symmetry
          point) st
  = iteration libm_sin libm_cos rng next_random next_below world
      transformations symmetry point st.
Proof.
  unfold Worker.iteration, iteration.
  apply exec_bind_as; [apply exec_choice|]. intros transform st1.
  apply exec_bind_as; [apply exec_pure|]. intros q st2.
  apply exec_bind_as; [|reflexivity].
  unfold Worker.range, range. apply exec_for_range. intros s [] st3.
  unfold Worker.plot_rotated, plot_rotated.
  apply exec_bind_as; [apply exec_pure|]. intros r st4. apply exec_plot.
Qed.

Lemma exec_sample (world : Rect.t)
    (transformations : list (Point.t -> result Point.t))
    (iter_per_sample symmetry : Z) (st : state rng) :
  exec (Worker.sample libm_sin libm_cos world transformations
          iter_per_sample symmetry) st
  = sample libm_sin libm_cos rng next_random next_below world
      transformations iter_per_sample symmetry st.
Proof.
  unfold Worker.sample, sample.
  apply exec_bind_as; [apply exec_random_point|]. intros point st1.
  apply exec_bind_as; [|reflexivity].
  unfold Worker.range, range. apply exec_for_range. intros i p st2.
  apply exec_iteration.
Qed.

(** The accesses of a worker, made one after the other with nothing in
    between, are [generate_fractal]. *)
Lemma exec_generate_fractal (world : Rect.t)
    (transformations : list (Point.t -> result Point.t))
    (samples iter_per_sample symmetry : Z) (st : state rng) :
  exec (Worker.generate_fractal libm_sin libm_cos world transformations
          samples iter_per_sample symmetry) st
  = generate_fractal libm_sin libm_cos rng next_random next_below world
      transformations samples iter_per_sample symmetry st.
Proof.
  unfold Worker.generate_fractal, generate_fractal, Worker.range, range.
  apply exec_for_range. intros i [] st1. apply exec_sample.
Qed.

End WorkerAlone.

(** ** main.py: what a worker can add to the image *)

Section WorkerBudget.

Variables libm_sin libm_cos : F64.float -> F64.float.

Local Abbreviation any := (fun _ => True).

Lemma thread_nonneg {A : Type} (Q : A -> Prop) (p : Worker.t A) :
  forall n, Worker.adds Q n p -> 0 <= n.
Proof.
  induction p as [a|e|h IH|m h IH|h IH|h IH|x y color h IH]; intros n;
    cbn [Worker.adds].
  - tauto.
  - trivial.
  - intros H. apply (IH (S754_zero false)), H; reflexivity.
  - intros H. apply (IH 0), H.
  - intros H. apply (IH 0), H.
  - intros H. apply (IH 0), H.
  - intros [_ H]. apply IH in H. lia.
Qed.

Lemma thread_weaken {A : Type} (Q Q' : A -> Prop) (p : Worker.t A) :
  (forall a, Q a -> Q' a) ->
  forall n n', n <= n' -> Worker.adds Q n p -> Worker.adds Q' n' p.
Proof.
  intros HQ.
  induction p as [a|e|h IH|m h IH|h IH|h IH|x y color h IH]; intros n n' Hn;
    cbn [Worker.adds].
  - intros [H0 Ha]. split; [lia|auto].
  - lia.
  - intros H u Hv Hu. exact (IH u n n' Hn (H u Hv Hu)).
  - intros H i. exact (IH i n n' Hn (H i)).
  - intros H w. exact (IH w n n' Hn (H w)).
  - intros H w. exact (IH w n n' Hn (H w)).
  - intros [Hc H]. split; [exact Hc|].
    exact (IH tt (n - 1) (n' - 1) ltac:(lia) H).
Qed.

Lemma thread_bind {A B : Type} (Q1 : A -> Prop) (Q2 : B -> Prop)
    (p : Worker.t A) (k : A -> Worker.t B) (n2 : Z) :
  0 <= n2 ->
  (forall a, Q1 a -> Worker.adds Q2 n2 (k a)) ->
  forall n1, Worker.adds Q1 n1 p ->
             Worker.adds Q2 (n1 + n2) (Worker.bind p k).
Proof.
  intros H2 Hk.
  induction p as [a|e|h IH|m h IH|h IH|h IH|x y color h IH]; intros n1;
    cbn [Worker.adds Worker.bind].
  - intros [H0 Ha].
    apply (thread_weaken Q2 Q2 (k a) (fun _ H => H) n2); [lia|auto].
  - lia.
  - intros H u Hv Hu. exact (IH u n1 (H u Hv Hu)).
  - intros H i. exact (IH i n1 (H i)).
  - intros H w. exact (IH w n1 (H w)).
  - intros H w. exact (IH w n1 (H w)).
  - intros [Hc H]. split; [exact Hc|].
    replace (n1 + n2 - 1) with (n1 - 1 + n2) by lia. exact (IH tt _ H).
Qed.

(** A computation that adds nothing, before one that adds at most [n]. *)
Lemma thread_then {A B : Type} (Q1 : A -> Prop) (Q2 : B -> Prop)
    (p : Worker.t A) (k : A -> Worker.t B) (n : Z) :
  Worker.adds Q1 0 p -> 0 <= n ->
  (forall a, Q1 a -> Worker.adds Q2 n (k a)) ->
  Worker.adds Q2 n (Worker.bind p k).
Proof.
  intros Hp Hn Hk. change n with (0 + n). now apply (thread_bind Q1).
Qed.

(** A computation that adds at most [n], before one that adds nothing. *)
Lemma thread_after {A B : Type} (Q1 : A -> Prop) (Q2 : B -> Prop)
    (p : Worker.t A) (k : A -> Worker.t B) (n : Z) :
  Worker.adds Q1 n p ->
  (forall a, Q1 a -> Worker.adds Q2 0 (k a)) ->
  Worker.adds Q2 n (Worker.bind p k).
Proof.
  intros Hp Hk. replace n with (n + 0) by lia.
  now apply (thread_bind Q1); [lia| |].
Qed.

Lemma thread_ret {A : Type} (a : A) (n : Z) :
  0 <= n -> Worker.adds any n (Worker.Ret a).
Proof. intros H. split; [exact H|exact I]. Qed.

Lemma thread_pure {A : Type} (x : result A) (n : Z) :
  0 <= n -> Worker.adds any n (Worker.pure x).
Proof. intros H. destruct x; cbn; [split; [exact H|exact I]|exact H]. Qed.

Lemma thread_random :
  Worker.adds (fun u => exists f, u = Num.Float f /\ F64.valid f = true /\
                                  F64.in_unit_interval f = true)
    0 Worker.random.
Proof. intros u Hv Hu. split; [lia|]. now exists u. Qed.

Lemma thread_random_channel :
  Worker.adds (fun c => 0 <= c <= 254) 0 Worker.random_channel.
Proof.
  unfold Worker.random_channel.
  eapply thread_then; [exact thread_random|lia|].
  intros u (f & -> & Hv & Hu).
  destruct (channel_of_unit_interval f Hv Hu) as (c & E & Hc).
  rewrite E. split; [lia|exact Hc].
Qed.

Lemma thread_uniform (a b : Num.t) :
  Worker.adds any 0 (Worker.uniform a b).
Proof.
  unfold Worker.uniform.
  eapply thread_then; [apply (thread_pure _ 0); lia|lia|]. intros d _.
  eapply thread_then; [exact thread_random|lia|]. intros u _.
  apply thread_pure. lia.
Qed.

Lemma thread_choice {A : Type} (seq : list A) :
  Worker.adds any 0 (Worker.choice seq).
Proof.
  unfold Worker.choice. destruct (len seq =? 0); [cbn; lia|].
  intros i. apply thread_pure. lia.
Qed.

Lemma thread_random_point (rect : Rect.t) :
  Worker.adds any 0 (Worker.random_point_in_rect rect).
Proof.
  unfold Worker.random_point_in_rect.
  eapply thread_then; [apply (thread_pure _ 0); lia|lia|]. intros bx _.
  eapply thread_then; [apply thread_uniform|lia|]. intros x _.
  eapply thread_then; [apply (thread_pure _ 0); lia|lia|]. intros by_ _.
  eapply thread_then; [apply thread_uniform|lia|]. intros y _.
  apply thread_ret. lia.
Qed.

Lemma thread_for_range {A : Type} (k : Z) (body : Z -> A -> Worker.t A) :
  0 <= k -> (forall i a, Worker.adds any k (body i a)) ->
  forall n i a,
    Worker.adds any (Z.of_nat n * k) (Worker.for_range n i body a).
Proof.
  intros Hk Hb. induction n as [|n IH]; intros i a;
    cbn [Worker.for_range].
  - apply thread_ret. lia.
  - replace (Z.of_nat (S n) * k) with (k + Z.of_nat n * k) by lia.
    apply (thread_bind any); [nia| |apply Hb].
    intros a' _. apply IH.
Qed.

Lemma thread_range {A : Type} (k n : Z) (body : Z -> A -> Worker.t A)
    (a : A) :
  0 <= k -> (forall i a, Worker.adds any k (body i a)) ->
  Worker.adds any (Z.max 0 n * k) (Worker.range n body a).
Proof.
  intros Hk Hb. unfold Worker.range.
  replace (Z.max 0 n) with (Z.of_nat (Z.to_nat n)) by lia.
  now apply thread_for_range.
Qed.

Lemma thread_pixel_index (p origin extent : Num.t) (size : Worker.t Z) :
  Worker.adds any 0 size ->
  Worker.adds any 0 (Worker.pixel_index p origin extent size).
Proof.
  intros Hs. unfold Worker.pixel_index.
  eapply thread_then; [apply (thread_pure _ 0); lia|lia|]. intros d _.
  eapply thread_then; [apply (thread_pure _ 0); lia|lia|]. intros q _.
  eapply thread_then; [exact Hs|lia|]. intros n _.
  apply thread_pure. lia.
Qed.

Lemma thread_contains (x y : Z) : Worker.adds any 0 (Worker.contains x y).
Proof.
  unfold Worker.contains. destruct (0 <=? x); [|apply thread_ret; lia].
  intros w. destruct (x <? w); [|apply thread_ret; lia].
  destruct (0 <=? y); [|apply thread_ret; lia].
  intros h. apply thread_ret. lia.
Qed.

Lemma thread_map_to_pixel (rect : Rect.t) (point : Point.t) :
  Worker.adds any 0 (Worker.map_to_pixel rect point).
Proof.
  unfold Worker.map_to_pixel.
  eapply thread_then;
    [apply thread_pixel_index; intros w; apply thread_ret; lia|lia|].
  intros x _.
  eapply thread_then;
    [apply thread_pixel_index; intros w; apply thread_ret; lia|lia|].
  intros y _.
  eapply thread_then; [apply thread_contains|lia|].
  intros inside _. apply thread_ret. lia.
Qed.

Lemma thread_plot (world : Rect.t) (p : Point.t) :
  Worker.adds any 1 (Worker.plot world p).
Proof.
  unfold Worker.plot.
  eapply thread_then; [apply thread_map_to_pixel|lia|].
  intros [[px py]|] _; [|apply thread_ret; lia].
  eapply thread_then; [exact thread_random_channel|lia|]. intros c0 H0.
  eapply thread_then; [exact thread_random_channel|lia|]. intros c1 H1.
  eapply thread_then; [exact thread_random_channel|lia|]. intros c2 H2.
  cbn in *. repeat split; lia.
Qed.

Lemma thread_iteration (world : Rect.t)
    (transformations : list (Point.t -> result Point.t)) (symmetry : Z)
    (point : Point.t) :
  Worker.adds any (Z.max 0 symmetry)
    (Worker.iteration libm_sin libm_cos world transformations symmetry point).
Proof.
  unfold Worker.iteration.
  eapply thread_then; [apply thread_choice|lia|]. intros transform _.
  eapply thread_then; [apply (thread_pure _ 0); lia|lia|]. intros q _.
  eapply (thread_after any); [|intros; apply thread_ret; lia].
  replace (Z.max 0 symmetry) with (Z.max 0 symmetry * 1) by lia.
  apply thread_range; [lia|]. intros s _. unfold Worker.plot_rotated.
  eapply thread_then; [apply (thread_pure _ 0); lia|lia|]. intros r _.
  apply thread_plot.
Qed.

Lemma thread_sample (world : Rect.t)
    (transformations : list (Point.t -> result Point.t))
    (iter_per_sample symmetry : Z) :
  Worker.adds any (Z.max 0 iter_per_sample * Z.max 0 symmetry)
    (Worker.sample libm_sin libm_cos world transformations iter_per_sample
       symmetry).
Proof.
  unfold Worker.sample.
  eapply thread_then;
    [apply thread_random_point|apply Z.mul_nonneg_nonneg; lia|].
  intros point _.
  eapply (thread_after any); [|intros; apply thread_ret; lia].
  apply thread_range; [lia|]. intros i p. apply thread_iteration.
Qed.

Lemma thread_generate_fractal (world : Rect.t)
    (transformations : list (Point.t -> result Point.t))
    (samples iter_per_sample symmetry : Z) :
  Worker.adds any
    (Z.max 0 samples * (Z.max 0 iter_per_sample * Z.max 0 symmetry))
    (Worker.generate_fractal libm_sin libm_cos world transformations samples
       iter_per_sample symmetry).
Proof.
  unfold Worker.generate_fractal.
  apply thread_range; [apply Z.mul_nonneg_nonneg; lia|].
  intros i a. apply thread_sample.
Qed.

End WorkerBudget.

(** ** main.py: the threads and the image *)

Section ThreadsImage.

Variables libm_sin libm_cos : F64.float -> F64.float.
Variable rng : Type.
Variable next_random : rng -> F64.float * rng.
Variable world : Rect.t.
Variable transformations : list (Point.t -> result Point.t).
Variables iter_per_sample symmetry : Z.

Hypothesis random_valid : forall g, F64.valid (fst (next_random g)) = true.
Hypothesis random_unit :
  forall g, F64.in_unit_interval (fst (next_random g)) = true.

Local Abbreviation tstep :=
  (Threads.step libm_sin libm_cos rng next_random world transformations
     iter_per_sample symmetry).
Local Abbreviation tsteps :=
  (Threads.steps libm_sin libm_cos rng next_random world transformations
     iter_per_sample symmetry).
Local Abbreviation per_sample :=
  (Z.max 0 iter_per_sample * Z.max 0 symmetry).

Lemma total_store (bs : list Z) (i : nat) (b b' : Z) :
  nth_error bs i = Some b -> total (store bs i b') = total bs - b + b'.
Proof.
  revert i. induction bs as [|x bs IH]; intros [|i] H; cbn in *;
    try discriminate.
  - injection H as ->. lia.
  - fold (total (store bs i b')). fold (total bs). rewrite (IH i H). lia.
Qed.

Lemma total_app (bs cs : list Z) : total (bs ++ cs) = total bs + total cs.
Proof.
  induction bs as [|x bs IH]; cbn; [reflexivity|].
  fold (total (bs ++ cs)). fold (total bs). lia.
Qed.

Lemma budgets_nonneg (bs : list Z) (ts : list (Worker.t unit)) :
  budgets bs ts -> 0 <= total bs.
Proof.
  induction 1 as [|b t bs ts Hb _ IH]; cbn; [lia|].
  fold (total bs). apply thread_nonneg in Hb. lia.
Qed.

Lemma budgets_nth (bs : list Z) (ts : list (Worker.t unit)) (i : nat)
    (t : Worker.t unit) :
  budgets bs ts -> nth_error ts i = Some t ->
  exists b, nth_error bs i = Some b /\ Worker.adds (fun _ => True) b t.
Proof.
  intros H. revert i. induction H as [|b t' bs ts Hb _ IH]; intros [|i] Hi;
    cbn in *; try discriminate.
  - injection Hi as ->. now exists b.
  - now apply IH.
Qed.

Lemma budgets_store (bs : list Z) (ts : list (Worker.t unit)) (i : nat)
    (b : Z) (t : Worker.t unit) :
  budgets bs ts -> Worker.adds (fun _ => True) b t ->
  budgets (store bs i b) (store ts i t).
Proof.
  unfold budgets. intros H Hb. revert i.
  induction H as [|b' t' bs ts Hb' H IH]; intros [|i]; cbn [store];
    constructor; try assumption. apply IH.
Qed.

Variable s0 : state rng.
Variable samples_per_thread : Z.

Local Abbreviation per_thread := (Z.max 0 samples_per_thread * per_sample).

Local Abbreviation inv :=
  (fun p : Threads.pool rng =>
     Threads.samples_per_thread p = samples_per_thread /\
     within_budget s0 per_thread p).

(** An access keeps the image within the budget. *)
Lemma access_within (s s' : state rng) (t t' : Worker.t unit) (b n : Z) :
  Threads.access rng next_random s t s' t' ->
  Worker.adds (fun _ => True) b t -> grows (n - b) s0 s ->
  exists b', Worker.adds (fun _ => True) b' t' /\ grows (n - b') s0 s'.
Proof.
  intros Ha Hb G.
  destruct Ha as [s k|s m k i g'|s k|s k|s x y color k]; cbn [Worker.adds] in Hb.
  - exists b. split; [apply Hb; [apply random_valid|apply random_unit]|].
    exact G.
  - exists b. split; [apply Hb|exact G].
  - exists b. split; [apply Hb|exact G].
  - exists b. split; [apply Hb|exact G].
  - destruct Hb as [Hc Hb]. destruct G as (O & W & H & B).
    destruct (add_hit_ok 254 (image s) x y color eq_refl O Hc)
      as (img & E & O' & W' & H' & T).
    rewrite E. cbn [fst snd]. exists (b - 1). split; [exact Hb|].
    unfold grows. cbn [image]. split; [exact O'|].
    split; [congruence|]. split; [congruence|].
    destruct (FractalImage.contains (image s) x y); lia.
Qed.

Lemma step_within (p q : Threads.pool rng) : tstep p q -> inv p -> inv q.
Proof.
  intros Hstep [Hspt (bs & Hbs & G)].
  destruct Hstep as [p i t s' t' Hi Ha|p k Hpc|p Hpc|p i u Hpc Hi
                    |p i e Hpc Hi|p i Hpc Hi|p o Hpc Hnone];
    (split; [exact Hspt|]); unfold within_budget;
    cbn [Threads.shared Threads.threads];
    try (exists bs; split; [exact Hbs|exact G]).
  - destruct (budgets_nth bs _ i t Hbs Hi) as (b & Hb & Ht).
    set (n := Z.of_nat (length (Threads.threads p)) * per_thread) in *.
    assert (G' : grows (n - total bs + b - b) s0 (Threads.shared p))
      by (replace (n - total bs + b - b) with (n - total bs) by lia; exact G).
    destruct (access_within _ _ _ _ b (n - total bs + b) Ha Ht G')
      as (b' & Ht' & G'').
    exists (store bs i b'). split; [now apply budgets_store|].
    rewrite length_store, (total_store bs i b b' Hb). fold n.
    replace (n - (total bs - b + b')) with (n - total bs + b - b') by lia.
    exact G''.
  - exists (bs ++ [per_thread]). split.
    + apply Forall2_app; [exact Hbs|]. constructor; [|constructor].
      unfold Threads.submit. rewrite Hspt. apply thread_generate_fractal.
    + rewrite length_app, total_app. cbn [length total fold_right].
      replace (Z.of_nat (length (Threads.threads p) + 1) * per_thread
               - (total bs + (per_thread + 0)))
        with (Z.of_nat (length (Threads.threads p)) * per_thread - total bs)
        by lia.
      exact G.
Qed.

Lemma steps_within (p q : Threads.pool rng) : tsteps p q -> inv p -> inv q.
Proof.
  induction 1 as [p|p q r Hpq _ IH]; [trivial|].
  intros Hp. apply IH. exact (step_within p q Hpq Hp).
Qed.

Lemma step_submitted_ok (n : nat) (p q : Threads.pool rng) :
  tstep p q ->
  Threads.submitted n (Threads.threads p) (Threads.pc p) ->
  Threads.submitted n (Threads.threads q) (Threads.pc q).
Proof.
  intros Hstep H.
  destruct Hstep as [p i t s' t' Hi Ha|p k Hpc|p Hpc|p i u Hpc Hi
                    |p i e Hpc Hi|p i Hpc Hi|p o Hpc Hnone];
    cbn [Threads.threads Threads.pc].
  - unfold Threads.submitted in *. rewrite length_store. exact H.
  - rewrite Hpc in H. cbn [Threads.submitted] in *.
    rewrite length_app. cbn [length]. lia.
  - rewrite Hpc in H. cbn [Threads.submitted] in *. lia.
  - rewrite Hpc in H. exact H.
  - rewrite Hpc in H. exact H.
  - rewrite Hpc in H. exact H.
  - rewrite Hpc in H. exact H.
Qed.

Lemma steps_submitted_ok (n : nat) (p q : Threads.pool rng) :
  tsteps p q ->
  Threads.submitted n (Threads.threads p) (Threads.pc p) ->
  Threads.submitted n (Threads.threads q) (Threads.pc q).
Proof.
  induction 1 as [p|p q r Hpq _ IH]; [trivial|].
  intros Hp. apply IH. exact (step_submitted_ok n p q Hpq Hp).
Qed.

End ThreadsImage.

(** *** Running a schedule of the threads *)

Section ThreadsSchedule.

Variables libm_sin libm_cos : F64.float -> F64.float.
Variable rng : Type.
Variable next_random : rng -> F64.float * rng.
Variable next_below : Z -> rng -> Z * rng.
Variable world : Rect.t.
Variable transformations : list (Point.t -> result Point.t).
Variables iter_per_sample symmetry : Z.

Local Abbreviation tstep :=
  (Threads.step libm_sin libm_cos rng next_random world transformations
     iter_per_sample symmetry).
Local Abbreviation tsteps :=
  (Threads.steps libm_sin libm_cos rng next_random world transformations
     iter_per_sample symmetry).

Lemma threads_work_at_step (i : nat) (p q : Threads.pool rng) :
  Threads.work_at rng next_random next_below i p = Some q -> tstep p q.
Proof.
  unfold Threads.work_at.
  destruct (nth_error (Threads.threads p) i) as [t|] eqn:Hi; [|discriminate].
  destruct t as [a|e|k|n k|k|k|x y color k]; try discriminate;
    intros H; injection H as <-;
    eapply Threads.step_work; try exact Hi; constructor.
Qed.

Lemma threads_drive_step (p q : Threads.pool rng) :
  Threads.drive libm_sin libm_cos rng world transformations iter_per_sample
    symmetry p = Some q ->
  tstep p q.
Proof.
  unfold Threads.drive.
  destruct (Threads.pc p) as [[|k]|i|o|o] eqn:Hpc.
  - intros H. injection H as <-. now apply Threads.step_submitted.
  - intros H. injection H as <-. eapply Threads.step_submit. eassumption.
  - destruct (nth_error (Threads.threads p) i) as [t|] eqn:Hi.
    + destruct t as [a|e|k|n k|k|k|x y color k]; try discriminate;
        intros H; injection H as <-.
      * eapply Threads.step_result; eassumption.
      * eapply Threads.step_result_raises; eassumption.
    + intros H. injection H as <-. eapply Threads.step_joined; eassumption.
  - destruct (existsb Worker.is_running (Threads.threads p)) eqn:Hex;
      [discriminate|].
    intros H. injection H as <-. eapply Threads.step_exit; eassumption.
  - discriminate.
Qed.

Lemma threads_run_steps (schedule : list action) :
  forall p q,
    Threads.run libm_sin libm_cos rng next_random next_below world
      transformations iter_per_sample symmetry schedule p = Some q ->
    tsteps p q.
Proof.
  induction schedule as [|a rest IH]; intros p q; cbn [Threads.run].
  - intros H. injection H as <-. constructor.
  - destruct a as [i|].
    + destruct (Threads.work_at rng next_random next_below i p) as [r|] eqn:Hr;
        [|discriminate].
      intros H. eapply Threads.steps_step;
        [eapply threads_work_at_step; eassumption|auto].
    + destruct (Threads.drive _ _ _ _ _ _ _ p) as [r|] eqn:Hr; [|discriminate].
      intros H. eapply Threads.steps_step;
        [eapply threads_drive_step; eassumption|auto].
Qed.

End ThreadsSchedule.

(** The shared image at a state the threads can reach. *)
Lemma threads_grows
    (libm_sin libm_cos : F64.float -> F64.float) (rng : Type)
    (next_random : rng -> F64.float * rng)
    (world : Rect.t) (transformations : list (Point.t -> result Point.t))
    (samples iter_per_sample symmetry num_threads : Z) (s : state rng)
    (p : Threads.pool rng) :
  (forall g, F64.valid (fst (next_random g)) = true) ->
  (forall g, F64.in_unit_interval (fst (next_random g)) = true) ->
  0 <= samples -> 1 <= num_threads ->
  image_ok 254 (image s) ->
  Threads.steps libm_sin libm_cos rng next_random world transformations
    iter_per_sample symmetry
    (Threads.parallel_generate_fractal rng samples num_threads s) p ->
  grows (samples * (Z.max 0 iter_per_sample * Z.max 0 symmetry)) s
    (Threads.shared p).
Proof.
  intros Hv Hu Hs Hn Hok Hreach.
  set (K := Z.max 0 iter_per_sample * Z.max 0 symmetry).
  set (B := Z.max 0 (samples / num_threads) * K).
  assert (Start : Threads.parallel_generate_fractal rng samples num_threads s
                  = Threads.mkPool s [] (Submitting (Z.to_nat num_threads))
                      (samples / num_threads)).
  { unfold Threads.parallel_generate_fractal.
    destruct (Z.eqb_spec num_threads 0); [lia|].
    destruct (Z.ltb_spec num_threads 0); [lia|reflexivity]. }
  rewrite Start in Hreach.
  destruct (steps_within libm_sin libm_cos rng next_random world
              transformations iter_per_sample symmetry Hv Hu s
              (samples / num_threads) _ _ Hreach)
    as (_ & bs & Hbs & O & W & H & Bd).
  { split; [reflexivity|]. exists []. split; [constructor|].
    cbn [Threads.threads Threads.shared length total fold_right].
    apply grows_refl, Hok. }
  pose proof (steps_submitted_ok libm_sin libm_cos rng next_random world
                transformations iter_per_sample symmetry
                (Z.to_nat num_threads) _ _ Hreach) as Hlen.
  cbn [Threads.threads Threads.pc Threads.submitted length] in Hlen.
  specialize (Hlen ltac:(lia)).
  assert (Hle : (length (Threads.threads p) <= Z.to_nat num_threads)%nat).
  { unfold Threads.submitted in Hlen. destruct (Threads.pc p); lia. }
  pose proof (budgets_nonneg _ _ Hbs) as Hb0.
  assert (0 <= samples / num_threads) as Hq by (apply Z.div_pos; lia).
  assert (num_threads * (samples / num_threads) <= samples) as Hdiv
    by (apply Z.mul_div_le; lia).
  assert (0 <= K) as HK by (apply Z.mul_nonneg_nonneg; lia).
  unfold grows. split; [exact O|]. split; [exact W|]. split; [exact H|].
  split; [lia|]. fold K B in Bd.
  assert (Z.of_nat (length (Threads.threads p)) * B <= samples * K).
  { unfold B. rewrite Z.max_r by lia.
    assert (Z.of_nat (length (Threads.threads p)) * (samples / num_threads)
            <= samples) by nia.
    nia. }
  lia.
Qed.

(** X7: the parallel driver over threads that can be suspended between
    any two accesses to the image and to the generator, in every state that
    any interleaving of them reaches: the shared image has the shape and
    the size it started with, its channels are from 0 to 254, and the
    workers have added at most [samples * iter_per_sample * symmetry] hits,
    the bound of the sequential loop. *)
Theorem parallel_generate_fractal_bounded
    (libm_sin libm_cos : F64.float -> F64.float) (rng : Type)
    (next_random : rng -> F64.float * rng)
    (world : Rect.t) (transformations : list (Point.t -> result Point.t))
    (samples iter_per_sample symmetry num_threads : Z) (s : state rng)
    (p : Threads.pool rng) :
  (forall g, F64.valid (fst (next_random g)) = true) ->
  (forall g, F64.in_unit_interval (fst (next_random g)) = true) ->
  0 <= samples -> 1 <= num_threads ->
  image_ok 254 (image s) ->
  Threads.steps libm_sin libm_cos rng next_random world transformations
    iter_per_sample symmetry
    (Threads.parallel_generate_fractal rng samples num_threads s) p ->
  image_ok 254 (image (Threads.shared p)) /\
  FractalImage.width (image (Threads.shared p)) = FractalImage.width (image s) /\
  FractalImage.height (image (Threads.shared p))
  = FractalImage.height (image s) /\
  hit_total (image s) <= hit_total (image (Threads.shared p))
    <= hit_total (image s)
       + samples * (Z.max 0 iter_per_sample * Z.max 0 symmetry).
Proof.
  intros Hv Hu Hs Hn Hok Hreach.
  exact (threads_grows libm_sin libm_cos rng next_random world transformations
           samples iter_per_sample symmetry num_threads s p
           Hv Hu Hs Hn Hok Hreach).
Qed.

Lemma parallel_generate_fractal_bounded_witness :
  let next_random :=
    fun g : nat => (S754_finite false 4503599627370496 (-53), S g) in
  let next_below := fun (_ : Z) (g : nat) => (0, S g) in
  let s := mkState (FractalImage.init 2 2) O in
  let start := Threads.parallel_generate_fractal nat 2 2 s in
  let schedule :=
    [Drive; Drive] ++ List.concat (repeat [Work 0; Work 1] 10) ++ [Work 0] in
  let p :=
    match Threads.run (fun x => x) (fun _ => f_one) nat next_random next_below
            main_world [linear] 1 1 schedule start with
    | Some q => q
    | None => start
    end in
  (hit_total (image (Threads.shared p)) = 1 /\
   map Worker.is_running (Threads.threads p) = [false; true]) /\
  image_ok 254 (image (Threads.shared p)) /\
  FractalImage.width (image (Threads.shared p)) = 2 /\
  FractalImage.height (image (Threads.shared p)) = 2 /\
  0 <= hit_total (image (Threads.shared p)) <= 0 + 2 * (Z.max 0 1 * Z.max 0 1).
Proof.
  intros next_random next_below s start schedule p.
  split; [vm_compute; split; reflexivity|].
  apply (parallel_generate_fractal_bounded (fun x => x) (fun _ => f_one) nat
           next_random main_world [linear] 2 1 1 2 s p).
  - intros g. reflexivity.
  - intros g. reflexivity.
  - lia.
  - lia.
  - split; [apply init_well_formed; lia|].
    repeat constructor; cbn; lia.
  - apply (threads_run_steps (fun x => x) (fun _ => f_one) nat next_random
             next_below main_world [linear] 1 1 schedule).
    vm_compute. reflexivity.
Defined.

(** ** main.py: one worker *)

Section OneWorker.

Variables libm_sin libm_cos : F64.float -> F64.float.
Variable rng : Type.
Variable next_random : rng -> F64.float * rng.
Variable next_below : Z -> rng -> Z * rng.
Variable world : Rect.t.
Variable transformations : list (Point.t -> result Point.t).
Variables iter_per_sample symmetry : Z.
Variable samples : Z.
Variable s : state rng.

Local Abbreviation pstep :=
  (step libm_sin libm_cos rng next_random next_below
     world transformations iter_per_sample symmetry).
Local Abbreviation psteps :=
  (steps libm_sin libm_cos rng next_random next_below
     world transformations iter_per_sample symmetry).
Local Abbreviation alone :=
  (work_alone libm_sin libm_cos rng next_random next_below
     world transformations iter_per_sample symmetry).
Local Abbreviation psingle :=
  (single libm_sin libm_cos rng next_random next_below
     world transformations iter_per_sample symmetry samples s).
Local Abbreviation sequential :=
  (generate_fractal libm_sin libm_cos rng next_random next_below
     world transformations samples iter_per_sample symmetry s).

(** Where the worker ends. *)
Lemma alone_sequential :
  exists f, alone (S (Z.to_nat samples)) s (submit samples)
            = (fst sequential, f) /\
            status f = match snd sequential with
                       | Ok _ => Finished
                       | Raise e => Failed e
                       end.
Proof.
  exact (work_alone_generate libm_sin libm_cos rng next_random next_below
           world transformations iter_per_sample symmetry samples
           (Z.to_nat samples) 0 s 0).
Qed.

Lemma step_single (p q : pool rng) : pstep p q -> psingle p -> psingle q.
Proof.
  intros Hstep [Hspt Hp].
  destruct Hstep as [p i f Hi Hrun|p k Hpc|p Hpc|p i f Hpc Hi Hst
                    |p i f e Hpc Hi Hst|p i Hpc Hi|p o Hpc Hnone];
    (split; [exact Hspt|]); cbn [shared futures pc samples_per_thread].
  - destruct (futures p) as [|f0 [|f1 fs]]; [destruct i; discriminate| |tauto].
    destruct i as [|i]; [|destruct i; discriminate].
    cbn in Hi. injection Hi as ->. cbn [store].
    destruct Hp as [Hd [fuel Hfuel]]. split.
    + unfold is_running in Hrun. unfold single_ok in *.
      destruct (pc p) as [[|k]|[|i]|[u|e]|[u|e]]; try exact I;
        try contradiction; rewrite Hd in Hrun; discriminate.
    + destruct fuel as [|fuel].
      * change (alone 0 (shared p) f) with (shared p, f) in Hfuel.
        destruct alone_sequential as (fT & E & St). rewrite E in Hfuel.
        injection Hfuel as _ ->. unfold is_running in Hrun. rewrite St in Hrun.
        destruct (snd sequential); discriminate.
      * exists fuel. rewrite <- Hfuel. cbn [work_alone].
        destruct (work _ _ _ _ _ _ _ _ _ (shared p) f). reflexivity.
  - destruct (futures p) as [|f0 [|f1 fs]].
    + destruct Hp as [Hs Hpc']. rewrite Hpc in Hpc'. injection Hpc' as ->.
      cbn [app]. split; [exact I|].
      exists (S (Z.to_nat samples)). rewrite Hs, Hspt. reflexivity.
    + destruct Hp as [Hd _]. rewrite Hpc in Hd. contradiction.
    + contradiction.
  - destruct (futures p) as [|f0 [|f1 fs]]; [|split; [exact I|apply Hp]|tauto].
    destruct Hp as [_ Hpc']. congruence.
  - destruct (futures p) as [|f0 [|f1 fs]]; [destruct i; discriminate| |tauto].
    destruct i as [|i]; [|destruct i; discriminate].
    cbn in Hi. injection Hi as ->. split; [exact Hst|apply Hp].
  - destruct (futures p) as [|f0 [|f1 fs]]; [destruct i; discriminate| |tauto].
    destruct i as [|i]; [|destruct i; discriminate].
    cbn in Hi. injection Hi as ->. split; [exact Hst|apply Hp].
  - destruct (futures p) as [|f0 [|f1 fs]]; [|split; [|apply Hp]|tauto].
    + destruct Hp as [_ Hpc']. congruence.
    + destruct Hp as [Hd _]. rewrite Hpc in Hd.
      destruct i as [|i]; [discriminate|exact Hd].
  - destruct (futures p) as [|f0 [|f1 fs]]; [|split; [|apply Hp]|tauto].
    + destruct Hp as [_ Hpc']. congruence.
    + destruct Hp as [Hd _]. rewrite Hpc in Hd. destruct o; exact Hd.
Qed.

Lemma steps_single (p q : pool rng) : psteps p q -> psingle p -> psingle q.
Proof.
  induction 1 as [p|p q r Hpq _ IH]; [trivial|].
  intros Hp. apply IH. exact (step_single p q Hpq Hp).
Qed.

Lemma start_single :
  psingle (parallel_generate_fractal rng samples 1 s).
Proof.
  unfold parallel_generate_fractal. cbn [Z.eqb Z.ltb Z.compare].
  split; cbn [samples_per_thread futures shared pc];
    [apply Z.div_1_r|split; reflexivity].
Qed.

Lemma single_done (p : pool rng) (o : result unit) :
  psingle p -> pc p = Done o -> (shared p, o) = sequential.
Proof.
  intros [_ Hp] Hpc.
  destruct (futures p) as [|f [|f1 fs]]; [| |contradiction].
  { destruct Hp as [_ Hpc']. congruence. }
  destruct Hp as [Hd [fuel Hfuel]]. rewrite Hpc in Hd.
  destruct alone_sequential as (fT & E & St). rewrite E in Hfuel.
  rewrite work_alone_idle in Hfuel
    by (unfold is_running; destruct o; cbn in Hd; rewrite Hd; reflexivity).
  injection Hfuel as Hs <-.
  rewrite (surjective_pairing sequential). rewrite Hs. f_equal.
  destruct o as [[]|e]; cbn in Hd; rewrite Hd in St;
    destruct (snd sequential) as [[]|e']; try discriminate; congruence.
Qed.

End OneWorker.

(** X8: with one worker the parallel driver is the sequential loop: every
    run of [parallel_generate_fractal] with [num_threads = 1], carried to
    the end of the driver, leaves the image and the generator in the state
    in which [generate_fractal] with the same arguments leaves them, and
    the driver returns when [generate_fractal] returns and raises the
    exception it raises. *)
Theorem parallel_one_worker_is_sequential
    (libm_sin libm_cos : F64.float -> F64.float) (rng : Type)
    (next_random : rng -> F64.float * rng) (next_below : Z -> rng -> Z * rng)
    (world : Rect.t) (transformations : list (Point.t -> result Point.t))
    (samples iter_per_sample symmetry : Z) (s : state rng)
    (p : pool rng) (o : result unit) :
  steps libm_sin libm_cos rng next_random next_below world transformations
    iter_per_sample symmetry (parallel_generate_fractal rng samples 1 s) p ->
  pc p = Done o ->
  (shared p, o)
  = generate_fractal libm_sin libm_cos rng next_random next_below world
      transformations samples iter_per_sample symmetry s.
Proof.
  intros Hreach Hdone.
  apply (single_done libm_sin libm_cos rng next_random next_below world
           transformations iter_per_sample symmetry samples s p o);
    [|exact Hdone].
  eapply steps_single; [exact Hreach|apply start_single].
Qed.

Lemma parallel_one_worker_is_sequential_witness :
  let next_random := fun g : nat => (f_below_one, S g) in
  let next_below := fun (_ : Z) (g : nat) => (0, S g) in
  let s := mkState (FractalImage.init 2 2) O in
  let start := parallel_generate_fractal nat 2 1 s in
  let schedule :=
    [Drive; Drive; Work 0; Work 0; Work 0; Drive; Drive; Drive] in
  let p :=
    match run (fun x => x) (fun _ => f_one) nat next_random next_below
            main_world [linear] 1 1 schedule start with
    | Some q => q
    | None => start
    end in
  (shared p, Ok tt)
  = generate_fractal (fun x => x) (fun _ => f_one) nat next_random next_below
      main_world [linear] 2 1 1 s.
Proof.
  intros next_random next_below s start schedule p.
  apply (parallel_one_worker_is_sequential (fun x => x) (fun _ => f_one) nat
           next_random next_below main_world [linear] 2 1 1 s p (Ok tt)).
  - apply (run_steps _ _ _ _ _ _ _ _ _ schedule). vm_compute. reflexivity.
  - vm_compute. reflexivity.
Defined.

(** ** fractal_image.py: [to_image] *)

Section ToImage.

Import FractalImage.

(** Rounds that each return [w] items: the items of round [k] are at the
    positions [k * w .. k * w + w - 1] of what the loop collects. *)
Lemma collect_blocks {A : Type} (w : nat) (body : Z -> result (list A))
    (g : Z -> list A) (n : nat) :
  forall i,
  (forall k, (k < n)%nat ->
     body (i + Z.of_nat k) = Ok (g (i + Z.of_nat k)) /\
     length (g (i + Z.of_nat k)) = w) ->
  exists l, collect n i body = Ok l /\ length l = (n * w)%nat /\
            forall k j, (k < n)%nat -> (j < w)%nat ->
              nth_error l (k * w + j) = nth_error (g (i + Z.of_nat k)) j.
Proof.
  induction n as [|n IH]; intros i H.
  - exists []. cbn. repeat split. intros k j Hk. lia.
  - destruct (H O ltac:(lia)) as [B0 L0].
    replace (i + Z.of_nat 0) with i in B0, L0 by lia.
    destruct (IH (i + 1)) as (rest & E & Lr & N).
    { intros k Hk. replace (i + 1 + Z.of_nat k) with (i + Z.of_nat (S k))
        by lia. apply H. lia. }
    exists (g i ++ rest). cbn [collect]. rewrite B0. cbn [bind]. rewrite E.
    cbn [bind]. split; [reflexivity|]. split.
    + rewrite length_app, L0, Lr. lia.
    + intros [|k] j Hk Hj.
      * replace (i + Z.of_nat 0) with i by lia. cbn [Nat.mul Nat.add].
        apply nth_error_app1. lia.
      * rewrite nth_error_app2 by (rewrite L0; cbn; lia).
        replace (S k * w + j - length (g i))%nat with (k * w + j)%nat
          by (rewrite L0; cbn; lia).
        rewrite N by lia. do 2 f_equal. lia.
Qed.

Lemma getitem_pixel (self : t) (x y : Z) :
  well_formed self -> 0 <= x < width self -> 0 <= y < height self ->
  exists row pixel,
    pixel_at self (Z.to_nat x) (Z.to_nat y) = Some pixel /\
    getitem (data self) y = Ok row /\ getitem row x = Ok pixel /\
    In row (data self) /\ In pixel row.
Proof.
  intros (Hw & Hh & Hl & Hr) Hx Hy.
  destruct (getitem_in_bounds (data self) y) as (row & Nr & Gr).
  { unfold len. rewrite Hl. lia. }
  assert (Lr : length row = Z.to_nat (width self))
    by exact (Forall_nth_error _ _ _ _ Hr Nr).
  destruct (getitem_in_bounds row x) as (pixel & Np & Gp).
  { unfold len. rewrite Lr. lia. }
  exists row, pixel. unfold pixel_at. rewrite Nr.
  repeat split; try assumption; eapply nth_error_In; eassumption.
Qed.

Lemma assign_storable (p : Pixel.t) :
  storable p = true -> assign (Pixel.r p, Pixel.g p, Pixel.b p) = Ok tt.
Proof. unfold storable, assign. now intros ->. Qed.

(** [to_image] on an image of the shape of the constructor whose colours
    the assignment takes: the raster it writes, cell by cell. *)
Lemma to_image_cells (self : t) :
  well_formed self -> Forall (Forall (fun p => storable p = true)) (data self) ->
  exists raster,
    to_image self = Ok raster /\
    len raster = width self * height self /\
    forall x y, 0 <= x < width self -> 0 <= y < height self ->
      nth_error raster (Z.to_nat (y * width self + x))
      = nth_error (assigned_at self x y) 0.
Proof.
  intros Hwf Hst. pose proof Hwf as (Hw & Hh & _).
  unfold to_image.
  destruct (Z.ltb_spec (width self) 0); [lia|].
  destruct (Z.ltb_spec (height self) 0); [lia|]. cbn [orb].
  set (cell := fun y x =>
         row <- getitem (data self) y ;; pixel <- getitem row x ;;
         let color := (Pixel.r pixel, Pixel.g pixel, Pixel.b pixel) in
         _ <- assign color ;; Ok [(x, y, color)]).
  assert (Row : forall y, 0 <= y < height self ->
            exists l, collect (Z.to_nat (width self)) 0 (cell y) = Ok l /\
                      length l = Z.to_nat (width self) /\
                      forall x, 0 <= x < width self ->
                        nth_error l (Z.to_nat x)
                        = nth_error (assigned_at self x y) 0).
  { intros y Hy.
    destruct (collect_blocks 1 (cell y) (fun x => assigned_at self x y)
                (Z.to_nat (width self)) 0) as (l & E & L & N).
    { intros k Hk. cbn [Z.add].
      destruct (getitem_pixel self (Z.of_nat k) y Hwf ltac:(lia) Hy)
        as (row & pixel & P & Gr & Gp & Ir & Ip).
      assert (S : storable pixel = true).
      { rewrite Forall_forall in Hst. specialize (Hst row Ir).
        rewrite Forall_forall in Hst. exact (Hst pixel Ip). }
      unfold cell, assigned_at. rewrite Gr. cbn [bind]. rewrite Gp.
      cbn [bind]. cbv zeta. rewrite (assign_storable pixel S), P.
      split; reflexivity. }
    exists l. split; [exact E|]. split; [lia|].
    intros x Hx. specialize (N (Z.to_nat x) O ltac:(lia) ltac:(lia)).
    replace (Z.to_nat x * 1 + 0)%nat with (Z.to_nat x) in N by lia.
    rewrite N. cbn [Z.add]. rewrite Z2Nat.id by lia. reflexivity. }
  set (line := fun y =>
         match collect (Z.to_nat (width self)) 0 (cell y) with
         | Ok l => l
         | Raise _ => []
         end).
  destruct (collect_blocks (Z.to_nat (width self))
              (fun y => collect (Z.to_nat (width self)) 0 (cell y)) line
              (Z.to_nat (height self)) 0) as (raster & E & L & N).
  { intros k Hk. cbn [Z.add].
    destruct (Row (Z.of_nat k) ltac:(lia)) as (l & El & Ll & _).
    unfold line. rewrite El. split; [reflexivity|exact Ll]. }
  exists raster. split; [exact E|]. split; [unfold len; rewrite L; nia|].
  intros x y Hx Hy.
  specialize (N (Z.to_nat y) (Z.to_nat x) ltac:(lia) ltac:(lia)).
  replace (Z.to_nat (y * width self + x))
    with (Z.to_nat y * Z.to_nat (width self) + Z.to_nat x)%nat by nia.
  rewrite N. cbn [Z.add]. rewrite Z2Nat.id by lia.
  destruct (Row y Hy) as (l & El & _ & Nl). unfold line. rewrite El.
  exact (Nl x Hx).
Qed.

(** Channels from 0 to a bound below 2^31 are taken. *)
Lemma pixel_ok_storable (bound : Z) (p : Pixel.t) :
  bound < 2 ^ 31 -> pixel_ok bound p -> storable p = true.
Proof.
  intros Hb (Hr & Hg & Hbl & _). unfold storable, fits.
  change (2 ^ (64 - 1)) with 9223372036854775808.
  change (2 ^ (32 - 1)) with 2147483648.
  change (2 ^ 31) with 2147483648 in Hb.
  repeat (apply andb_true_intro; split);
    first [apply Z.leb_le|apply Z.ltb_lt]; lia.
Qed.

Lemma image_ok_storable (bound : Z) (self : t) :
  bound < 2 ^ 31 -> image_ok bound self ->
  Forall (Forall (fun p => storable p = true)) (data self).
Proof.
  intros Hb [_ Hpx]. eapply Forall_impl; [|exact Hpx].
  intros row Hrow. eapply Forall_impl; [|exact Hrow].
  intros p. now apply pixel_ok_storable.
Qed.

(** X9: on an image of the shape of the constructor, whose red channels
    fit a C [long long] and whose green and blue channels fit a C [int],
    [to_image] raises nothing and makes [width * height] assignments, row
    after row and column after column within a row: the assignment number
    [y * width + x] is [pixels[x, y] = (r, g, b)] for the pixel at row [y],
    column [x]. *)
Theorem to_image_raster (self : t) :
  well_formed self ->
  Forall (Forall (fun p => storable p = true)) (data self) ->
  exists raster,
    to_image self = Ok raster /\
    len raster = width self * height self /\
    forall x y, 0 <= x < width self -> 0 <= y < height self ->
      exists pixel,
        pixel_at self (Z.to_nat x) (Z.to_nat y) = Some pixel /\
        nth_error raster (Z.to_nat (y * width self + x))
        = Some (x, y, (Pixel.r pixel, Pixel.g pixel, Pixel.b pixel)).
Proof.
  intros Hwf Hst.
  destruct (to_image_cells self Hwf Hst) as (raster & E & L & N).
  exists raster. split; [exact E|]. split; [exact L|].
  intros x y Hx Hy.
  destruct (getitem_pixel self x y Hwf Hx Hy) as (row & pixel & P & _).
  exists pixel. split; [exact P|].
  rewrite (N x y Hx Hy). unfold assigned_at. rewrite P. reflexivity.
Qed.

Lemma to_image_raster_witness :
  exists raster,
    to_image (init 3 2) = Ok raster /\
    len raster = 3 * 2 /\
    forall x y, 0 <= x < 3 -> 0 <= y < 2 ->
      exists pixel,
        pixel_at (init 3 2) (Z.to_nat x) (Z.to_nat y) = Some pixel /\
        nth_error raster (Z.to_nat (y * 3 + x))
        = Some (x, y, (Pixel.r pixel, Pixel.g pixel, Pixel.b pixel)).
Proof.
  apply (to_image_raster (init 3 2)).
  - apply init_well_formed; lia.
  - repeat constructor.
Defined.

(** A channel that does not fit ends [to_image] with [OverflowError]: a
    red channel of 2^63, a green channel of 2^31. *)
Example to_image_overflow :
  to_image (mk 1 1 [[Pixel.mk (2 ^ 63) 0 0 1]]) = Raise OverflowError /\
  to_image (mk 1 1 [[Pixel.mk 0 (2 ^ 31) 0 1]]) = Raise OverflowError /\
  to_image (mk 1 1 [[Pixel.mk (2 ^ 63 - 1) (2 ^ 31 - 1) (- 2 ^ 31) 1]])
  = Ok [(0, 0, (2 ^ 63 - 1, 2 ^ 31 - 1, - 2 ^ 31))].
Proof. vm_compute. repeat split. Qed.



Lemma nth_error_repeat_inv {A : Type} (a b : A) (m n : nat) :
  nth_error (repeat a m) n = Some b -> b = a.
Proof.
  intros H. apply nth_error_In in H. now apply repeat_spec in H.
Qed.

(** X10: a hit with channels from 0 to below 2^31 on a pixel of a new
    image shows in what [to_image] writes: the pixel has the colour of the
    hit, every other pixel is black. *)
Theorem first_hit_shows (w h x y c0 c1 c2 : Z) :
  0 <= x < w -> 0 <= y < h ->
  0 <= c0 < 2 ^ 31 -> 0 <= c1 < 2 ^ 31 -> 0 <= c2 < 2 ^ 31 ->
  exists img raster,
    add_hit (init w h) x y (c0, c1, c2) = (img, Ok tt) /\
    to_image img = Ok raster /\
    forall x' y', 0 <= x' < w -> 0 <= y' < h ->
      nth_error raster (Z.to_nat (y' * w + x'))
      = Some (x', y', if (x' =? x) && (y' =? y) then (c0, c1, c2)
                      else (0, 0, 0)).
Proof.
  intros Hx Hy H0 H1 H2.
  assert (Hwf : well_formed (init w h)) by (apply init_well_formed; lia).
  assert (C : contains (init w h) x y = true)
    by (apply contains_true; cbn [width height init]; lia).
  destruct (add_hit_inside (init w h) x y (c0, c1, c2) Hwf C)
    as (row & pixel & Nr & Np & E).
  cbn [data init] in Nr.
  apply nth_error_repeat_inv in Nr. subst row.
  apply nth_error_repeat_inv in Np. subst pixel.
  unfold Pixel.mix_color, Pixel.init in E.
  cbn [Pixel.set_r Pixel.set_g Pixel.set_b Pixel.set_hit_count
       Pixel.r Pixel.g Pixel.b Pixel.hit_count] in E.
  change (2 ^ 31) with 2147483648 in H0, H1, H2.
  rewrite !mixed_first in E
    by (change (2 ^ 53) with 9007199254740992; lia).
  cbn [fst snd Z.add] in E.
  set (row := repeat (Pixel.mk 0 0 0 0) (Z.to_nat w)) in *.
  set (img := set_data _ _) in E.
  assert (Hwf' : well_formed img).
  { destruct Hwf as (Hw & Hh & Hl & Hr). unfold img.
    repeat split; cbn [set_data width height data init]; try lia.
    - rewrite length_store. apply repeat_length.
    - apply Forall_store; [|rewrite length_store; apply repeat_length].
      apply Forall_forall. intros r Hin. apply repeat_spec in Hin. subst r.
      apply repeat_length. }
  assert (Hst : Forall (Forall (fun p => storable p = true)) (data img)).
  { unfold img. cbn [set_data data init].
    assert (Blank : Forall (fun p => storable p = true) row)
      by (apply Forall_forall; intros p Hin; apply repeat_spec in Hin;
          now subst p).
    apply Forall_store.
    - apply Forall_forall. intros r Hin. apply repeat_spec in Hin. now subst r.
    - apply Forall_store; [exact Blank|].
      apply (pixel_ok_storable 2147483647); [reflexivity|].
      unfold pixel_ok. cbn. lia. }
  destruct (to_image_cells img Hwf' Hst) as (raster & T & _ & N).
  exists img, raster. split; [exact E|]. split; [exact T|].
  intros x' y' Hx' Hy'.
  assert (Hx'' : 0 <= x' < width img)
    by (unfold img; cbn [set_data width init]; lia).
  assert (Hy'' : 0 <= y' < height img)
    by (unfold img; cbn [set_data height init]; lia).
  pose proof (N x' y' Hx'' Hy'') as Q.
  destruct (getitem_pixel img x' y' Hwf' Hx'' Hy'') as (row' & pixel & P & _).
  unfold assigned_at in Q. rewrite P in Q. cbn [nth_error] in Q.
  replace (width img) with w in Q by reflexivity. rewrite Q. do 2 f_equal.
  unfold pixel_at, img in P. cbn [set_data data init] in P.
  destruct (Z.eqb_spec y' y) as [->|Ny].
  - rewrite nth_error_store_same in P by (rewrite repeat_length; lia).
    destruct (Z.eqb_spec x' x) as [->|Nx].
    + rewrite nth_error_store_same in P
        by (unfold row; rewrite repeat_length; lia).
      injection P as <-. reflexivity.
    + rewrite nth_error_store_other in P by lia.
      apply nth_error_repeat_inv in P. subst pixel.
      rewrite andb_true_r. reflexivity.
  - rewrite nth_error_store_other in P by lia.
    destruct (nth_error _ (Z.to_nat y')) as [r|] eqn:R; [|discriminate].
    apply nth_error_repeat_inv in R. subst r.
    apply nth_error_repeat_inv in P. subst pixel.
    rewrite andb_false_r. reflexivity.
Qed.

Lemma first_hit_shows_witness :
  exists img raster,
    add_hit (init 3 2) 1 1 (250, 0, 7) = (img, Ok tt) /\
    to_image img = Ok raster /\
    forall x' y', 0 <= x' < 3 -> 0 <= y' < 2 ->
      nth_error raster (Z.to_nat (y' * 3 + x'))
      = Some (x', y', if (x' =? 1) && (y' =? 1) then (250, 0, 7)
                      else (0, 0, 0)).
Proof.
  apply (first_hit_shows 3 2 1 1 250 0 7); lia.
Defined.

End ToImage.

(** ** main.py: reading the settings *)

Section InputFacts.

Variable value_type : String.string -> result Z.
Variables min_value max_value : option Z.

(** X11: [get_valid_input] returns the value of the first line that
    [value_type] accepts and that is within the bounds, having read the
    lines before it and that line and no other; it returns nothing else. *)
Theorem get_valid_input_first (lines rest : list String.string) (v : Z) :
  get_valid_input value_type min_value max_value lines = Returned v rest <->
  exists skipped line,
    lines = skipped ++ line :: rest /\
    Forall (rejected value_type min_value max_value) skipped /\
    value_type line = Ok v /\
    below min_value v = false /\ above max_value v = false.
Proof.
  split.
  - induction lines as [|line lines IH]; cbn [get_valid_input];
      [discriminate|].
    destruct (value_type line) as [u|e] eqn:E.
    + destruct (below min_value u || above max_value u) eqn:B.
      * intros H. destruct (IH H) as (skipped & l & -> & F & R).
        exists (line :: skipped), l. split; [reflexivity|].
        split; [|exact R]. constructor; [|exact F].
        right. exists u. split; assumption.
      * intros H. injection H as -> ->. exists [], line.
        apply orb_false_elim in B. destruct B as [B1 B2].
        repeat split; try assumption. constructor.
    + destruct e; try discriminate.
      intros H. destruct (IH H) as (skipped & l & -> & F & R).
      exists (line :: skipped), l. split; [reflexivity|].
      split; [|exact R]. constructor; [left; exact E|exact F].
  - intros (skipped & line & -> & F & E & B1 & B2).
    induction F as [|l skipped [R|(u & R & B)] F IH];
      cbn [app get_valid_input].
    + rewrite E, B1, B2. reflexivity.
    + rewrite R. exact IH.
    + rewrite R, B. exact IH.
Qed.

(** The value returned is within the bounds. *)
Lemma get_valid_input_range (lines rest : list String.string) (v : Z) :
  get_valid_input value_type min_value max_value lines = Returned v rest ->
  below min_value v = false /\ above max_value v = false.
Proof.
  induction lines as [|line lines IH]; cbn [get_valid_input]; [discriminate|].
  destruct (value_type line) as [u|e] eqn:E.
  - destruct (below min_value u || above max_value u) eqn:B; [exact IH|].
    intros H. injection H as -> ->. now apply orb_false_elim in B.
  - destruct e; try discriminate; exact IH.
Qed.

End InputFacts.

Section UserInput.

Variables libm_sin libm_cos : F64.float -> F64.float.
Variable int_of_string : String.string -> result Z.
Variable strip : String.string -> String.string.
Variable lower : String.string -> String.string.

Lemma split_comma_not_empty (s : String.string) : split_comma s <> [].
Proof.
  destruct s as [|c s]; cbn [split_comma]; [discriminate|].
  destruct (Ascii.eqb c comma); [discriminate|].
  destruct (split_comma s); discriminate.
Qed.

Lemma int_each_length (pieces : list String.string) (vs : list Z) :
  int_each int_of_string strip pieces = Ok vs -> length vs = length pieces.
Proof.
  revert vs. induction pieces as [|x xs IH]; intros vs; cbn [int_each].
  - intros H. injection H as <-. reflexivity.
  - destruct (int_of_string (strip x)) as [v|]; [|discriminate].
    cbn [bind]. destruct (int_each int_of_string strip xs) as [ws|];
      [|discriminate].
    cbn [bind]. intros H. injection H as <-. cbn. f_equal. now apply IH.
Qed.

Lemma select_transforms_valid (lines rest : list String.string)
    (selected : list Z) :
  select_transforms libm_sin libm_cos int_of_string strip lines
  = Returned selected rest ->
  selected <> [] /\
  Forall (fun i => 0 <= i < len (TRANSFORMATIONS libm_sin libm_cos)) selected.
Proof.
  induction lines as [|line lines IH]; cbn [select_transforms];
    [discriminate|].
  destruct (int_each int_of_string strip (split_comma line)) as [vs|e] eqn:E.
  - destruct (forallb _ vs) eqn:A; [|exact IH].
    intros H. injection H as -> ->. split.
    + apply int_each_length in E. intros ->.
      apply (split_comma_not_empty line).
      destruct (split_comma line); [reflexivity|discriminate].
    + apply Forall_forall. intros i Hin.
      rewrite forallb_forall in A. specialize (A i Hin).
      apply andb_prop in A as [A1 A2]. lia.
  - destruct e; try discriminate; exact IH.
Qed.

Lemma getitem_In {A : Type} (l : list A) (i : Z) (a : A) :
  getitem l i = Ok a -> In a l.
Proof.
  unfold getitem. destruct (position (len l) i) as [k|]; [|discriminate].
  cbn [bind]. destruct (nth_error l k) as [x|] eqn:N; [|discriminate].
  intros H. injection H as <-. eapply nth_error_In; eassumption.
Qed.

Lemma pick_catalog (selected : list Z)
    (ts : list (Point.t -> result Point.t)) :
  pick libm_sin libm_cos selected = Ok ts ->
  length ts = length selected /\
  Forall (fun t => In t (TRANSFORMATIONS libm_sin libm_cos)) ts.
Proof.
  revert ts. induction selected as [|i rest IH]; intros ts; cbn [pick].
  - intros H. injection H as <-. split; [reflexivity|constructor].
  - destruct (getitem _ i) as [t|] eqn:G; [|discriminate]. cbn [bind].
    destruct (pick libm_sin libm_cos rest) as [us|]; [|discriminate].
    cbn [bind]. intros H. injection H as <-.
    destruct (IH us eq_refl) as [L F]. split; [cbn; now f_equal|].
    constructor; [exact (getitem_In _ _ _ G)|exact F].
Qed.

(** The numbers the loop accepts all name a transformation. *)
Lemma pick_returns (selected : list Z) :
  Forall (fun i => 0 <= i < len (TRANSFORMATIONS libm_sin libm_cos)) selected ->
  exists ts, pick libm_sin libm_cos selected = Ok ts.
Proof.
  induction 1 as [|i rest Hi _ [us IH]]; cbn [pick]; [now exists []|].
  destruct (getitem_in_bounds _ i Hi) as (t & _ & G).
  rewrite G, IH. cbn [bind]. now eexists.
Qed.

(** What [user_input] read when it returns. *)
Lemma user_input_returned (lines rest : list String.string)
    (settings : Settings.t) :
  user_input libm_sin libm_cos int_of_string strip lower lines
  = Returned settings rest ->
  exists l1 l2 l3 l4 selected l5 answer l6,
    get_valid_input int_of_string (Some 1) None lines
    = Returned (Settings.width settings) l1 /\
    get_valid_input int_of_string (Some 1) None l1
    = Returned (Settings.height settings) l2 /\
    get_valid_input int_of_string (Some 1) None l2
    = Returned (Settings.samples settings) l3 /\
    get_valid_input int_of_string (Some 1) None l3
    = Returned (Settings.iter_per_sample settings) l4 /\
    select_transforms libm_sin libm_cos int_of_string strip l4
    = Returned selected l5 /\
    pick libm_sin libm_cos selected = Ok (Settings.transformations settings) /\
    input l5 = Returned answer l6 /\
    Settings.use_multithreading settings = String.eqb (lower answer) yes /\
    if Settings.use_multithreading settings
    then get_valid_input int_of_string (Some 1) None l6
         = Returned (Settings.num_threads settings) rest
    else Settings.num_threads settings = 1 /\ rest = l6.
Proof.
  unfold user_input.
  destruct (get_valid_input _ _ _ lines) as [w l1| |] eqn:E1;
    cbn [obind]; try discriminate.
  destruct (get_valid_input _ _ _ l1) as [h l2| |] eqn:E2;
    cbn [obind]; try discriminate.
  destruct (get_valid_input _ _ _ l2) as [n l3| |] eqn:E3;
    cbn [obind]; try discriminate.
  destruct (get_valid_input _ _ _ l3) as [k l4| |] eqn:E4;
    cbn [obind]; try discriminate.
  destruct (select_transforms _ _ _ _ l4) as [sel l5| |] eqn:E5;
    cbn [obind]; try discriminate.
  destruct (pick _ _ sel) as [ts|] eqn:E6; [|discriminate].
  destruct (input l5) as [answer l6| |] eqn:E7; cbn [obind];
    try discriminate.
  destruct (String.eqb (lower answer) yes) eqn:Y.
  - destruct (get_valid_input _ _ _ l6) as [m l7| |] eqn:E8;
      cbn [obind]; try discriminate.
    intros H. injection H as <- <-. cbn.
    exists l1, l2, l3, l4, sel, l5, answer, l6. rewrite Y. tauto.
  - intros H. injection H as <- <-. cbn.
    exists l1, l2, l3, l4, sel, l5, answer, l6. rewrite Y. tauto.
Qed.

(** The sizes [user_input] returns are at least 1. *)
Lemma user_input_sizes (lines rest : list String.string)
    (settings : Settings.t) :
  user_input libm_sin libm_cos int_of_string strip lower lines
  = Returned settings rest ->
  1 <= Settings.width settings /\ 1 <= Settings.height settings /\
  1 <= Settings.samples settings /\ 1 <= Settings.iter_per_sample settings /\
  1 <= Settings.num_threads settings.
Proof.
  intros H.
  destruct (user_input_returned _ _ _ H)
    as (l1 & l2 & l3 & l4 & sel & l5 & answer & l6
        & E1 & E2 & E3 & E4 & _ & _ & _ & _ & E8).
  apply get_valid_input_range in E1, E2, E3, E4. cbn [below] in *.
  destruct (Settings.use_multithreading settings).
  - apply get_valid_input_range in E8. cbn [below] in E8. lia.
  - lia.
Qed.

(** X12: the settings [user_input] returns are checked: the width, the
    height, the number of samples and of iterations and the number of
    threads are at least 1, the list of transformations is not empty and
    holds functions of [TRANSFORMATIONS] only, and without multithreading
    the number of threads is 1. *)
Theorem user_input_checked (lines rest : list String.string)
    (settings : Settings.t) :
  user_input libm_sin libm_cos int_of_string strip lower lines
  = Returned settings rest ->
  1 <= Settings.width settings /\ 1 <= Settings.height settings /\
  1 <= Settings.samples settings /\ 1 <= Settings.iter_per_sample settings /\
  Settings.transformations settings <> [] /\
  Forall (fun t => In t (TRANSFORMATIONS libm_sin libm_cos))
    (Settings.transformations settings) /\
  1 <= Settings.num_threads settings /\
  (Settings.use_multithreading settings = false ->
   Settings.num_threads settings = 1).
Proof.
  intros H.
  destruct (user_input_sizes _ _ _ H) as (Hw & Hh & Hs & Hi & Hn).
  destruct (user_input_returned _ _ _ H)
    as (l1 & l2 & l3 & l4 & sel & l5 & answer & l6
        & _ & _ & _ & _ & E5 & E6 & _ & _ & E8).
  apply select_transforms_valid in E5 as [Hne _].
  apply pick_catalog in E6 as [Hlen Hcat].
  repeat split; try assumption.
  - intros Hts. rewrite Hts in Hlen. destruct sel; [now apply Hne|].
    discriminate.
  - intros Hm. rewrite Hm in E8. tauto.
Qed.

Lemma get_valid_input_raises (lines rest : list String.string) (e : exn) :
  (forall s e, int_of_string s = Raise e -> e = ValueError) ->
  get_valid_input int_of_string (Some 1) None lines <> Raised e rest.
Proof.
  intros Hint. induction lines as [|line lines IH]; cbn [get_valid_input];
    [discriminate|].
  destruct (int_of_string line) as [u|e'] eqn:E.
  - destruct (below (Some 1) u || above None u); [exact IH|discriminate].
  - rewrite (Hint _ _ E). exact IH.
Qed.

Lemma int_each_raises (pieces : list String.string) (e : exn) :
  (forall s e, int_of_string s = Raise e -> e = ValueError) ->
  int_each int_of_string strip pieces = Raise e -> e = ValueError.
Proof.
  intros Hint. induction pieces as [|x xs IH]; cbn [int_each];
    [discriminate|].
  destruct (int_of_string (strip x)) as [v|e'] eqn:E; cbn [bind].
  - destruct (int_each int_of_string strip xs) as [vs|e'']; cbn [bind];
      [discriminate|].
    intros H. injection H as <-. now apply IH.
  - intros H. injection H as <-. exact (Hint _ _ E).
Qed.

Lemma select_transforms_raises (lines rest : list String.string) (e : exn) :
  (forall s e, int_of_string s = Raise e -> e = ValueError) ->
  select_transforms libm_sin libm_cos int_of_string strip lines
  <> Raised e rest.
Proof.
  intros Hint. induction lines as [|line lines IH]; cbn [select_transforms];
    [discriminate|].
  destruct (int_each int_of_string strip (split_comma line)) as [vs|e'] eqn:E.
  - destruct (forallb _ vs); [discriminate|exact IH].
  - rewrite (int_each_raises _ _ Hint E). exact IH.
Qed.

(** X13: when [int] raises nothing but [ValueError] on a string, no
    exception leaves [user_input] but the [EOFError] of [input()] at the
    end of the input; the look-up [TRANSFORMATIONS[i]] in particular never
    fails. *)
Theorem user_input_raises_nothing (lines rest : list String.string)
    (e : exn) :
  (forall s e, int_of_string s = Raise e -> e = ValueError) ->
  user_input libm_sin libm_cos int_of_string strip lower lines
  <> Raised e rest.
Proof.
  intros Hint. unfold user_input.
  destruct (get_valid_input _ _ _ lines) as [w l1|e1 l1|] eqn:E1;
    cbn [obind]; [|now destruct (get_valid_input_raises _ _ _ Hint E1)
                  |discriminate].
  destruct (get_valid_input _ _ _ l1) as [h l2|e2 l2|] eqn:E2;
    cbn [obind]; [|now destruct (get_valid_input_raises _ _ _ Hint E2)
                  |discriminate].
  destruct (get_valid_input _ _ _ l2) as [n l3|e3 l3|] eqn:E3;
    cbn [obind]; [|now destruct (get_valid_input_raises _ _ _ Hint E3)
                  |discriminate].
  destruct (get_valid_input _ _ _ l3) as [k l4|e4 l4|] eqn:E4;
    cbn [obind]; [|now destruct (get_valid_input_raises _ _ _ Hint E4)
                  |discriminate].
  destruct (select_transforms _ _ _ _ l4) as [sel l5|e5 l5|] eqn:E5;
    cbn [obind]; [|now destruct (select_transforms_raises _ _ _ Hint E5)
                  |discriminate].
  apply select_transforms_valid in E5 as [_ Hsel].
  destruct (pick_returns sel Hsel) as [ts ->].
  destruct (input l5) as [answer l6| |] eqn:E6; cbn [obind];
    [|destruct l5; discriminate|discriminate].
  destruct (String.eqb (lower answer) yes); [|discriminate].
  destruct (get_valid_input _ _ _ l6) as [m l7|e7 l7|] eqn:E7;
    cbn [obind]; [discriminate
                 |now destruct (get_valid_input_raises _ _ _ Hint E7)
                 |discriminate].
Qed.

End UserInput.

Section InputExamples.

Import String.

Lemma user_input_checked_witness :
  exists settings,
    user_input (fun x => x) (fun _ => f_one) decimal (fun s => s) (fun s => s)
      ["0"; "800"; "abc"; "600"; "100000"; "50"; "0,9"; "3,0"; "n"; "left"]%string
    = Returned settings ["left"%string] /\
    1 <= Settings.width settings /\ 1 <= Settings.height settings /\
    1 <= Settings.samples settings /\
    1 <= Settings.iter_per_sample settings /\
    Settings.transformations settings <> [] /\
    Forall (fun t => In t (TRANSFORMATIONS (fun x => x) (fun _ => f_one)))
      (Settings.transformations settings) /\
    1 <= Settings.num_threads settings /\
    (Settings.use_multithreading settings = false ->
     Settings.num_threads settings = 1).
Proof.
  exists (Settings.mk 800 600 100000 50 [linear; spherical] false 1).
  split; [reflexivity|].
  apply (user_input_checked (fun x => x) (fun _ => f_one) decimal
           (fun s => s) (fun s => s)
           ["0"; "800"; "abc"; "600"; "100000"; "50"; "0,9"; "3,0"; "n";
            "left"]%string
           ["left"%string]).
  reflexivity.
Defined.

Lemma decimal_raises (s : string) (e : exn) :
  decimal s = Raise e -> e = ValueError.
Proof.
  unfold decimal.
  destruct (DecimalString.NilEmpty.int_of_string s) as [[[]|[]]|];
    try discriminate; intros H; now injection H as <-.
Qed.

Lemma user_input_raises_nothing_witness :
  user_input (fun x => x) (fun _ => f_one) decimal (fun s => s) (fun s => s)
    ["800"; "600"; "7"; "0,9"]%string
  <> Raised IndexError [].
Proof.
  apply (user_input_raises_nothing (fun x => x) (fun _ => f_one) decimal
           (fun s => s) (fun s => s)).
  exact decimal_raises.
Defined.

(** The loop of [get_valid_input] skips a value below the minimum and the
    lines that are no number (the empty line and a lone sign among them),
    and leaves the lines after the one it took. *)
Example get_valid_input_skips :
  get_valid_input decimal (Some 1) None
    ["0"; "abc"; ""; "-"; "800"; "600"]%string
  = Returned 800 ["600"%string] /\
  get_valid_input decimal (Some 1) None ["0"; "abc"]%string = EndOfInput.
Proof. split; reflexivity. Qed.

End InputExamples.

(** ** fractal_image.py: a new image *)

Section NewImage.

Import FractalImage.

Lemma init_ok (bound w h : Z) :
  0 <= bound -> 0 <= w -> 0 <= h -> image_ok bound (init w h).
Proof.
  intros Hb Hw Hh. split; [apply init_well_formed; assumption|].
  cbn [data init].
  apply Forall_forall. intros row Hr. apply repeat_spec in Hr. subst row.
  apply Forall_forall. intros p Hp. apply repeat_spec in Hp. subst p.
  unfold pixel_ok. cbn. lia.
Qed.

Lemma init_hits (w h : Z) : hit_total (init w h) = 0.
Proof.
  assert (R0 : forall k, row_hits (repeat Pixel.init k) = 0).
  { induction k as [|k IHk]; [reflexivity|].
    cbn [repeat row_hits fold_right]. fold (row_hits (repeat Pixel.init k)).
    rewrite IHk. reflexivity. }
  unfold hit_total. cbn [data init].
  induction (Z.to_nat h) as [|n IH]; [reflexivity|].
  cbn [repeat fold_right]. rewrite IH, R0. reflexivity.
Qed.

(** X16: [FractalImage(width, height)] with sizes that are not negative is
    a raster of [height] rows of [width] pixels, each black with a count of
    zero, and it contains exactly the coordinates [0 <= x < width],
    [0 <= y < height]. *)
Theorem init_blank (w h x y : Z) :
  0 <= w -> 0 <= h ->
  well_formed (init w h) /\ hit_total (init w h) = 0 /\
  (contains (init w h) x y = true ->
   pixel_at (init w h) (Z.to_nat x) (Z.to_nat y) = Some (Pixel.mk 0 0 0 0)) /\
  (contains (init w h) x y = false ->
   add_hit (init w h) x y (255, 255, 255) = (init w h, Ok tt)).
Proof.
  intros Hw Hh. split; [apply init_well_formed; assumption|].
  split; [apply init_hits|]. split.
  - intros C. apply contains_true in C. cbn [width height init] in C.
    unfold pixel_at. cbn [data init].
    rewrite nth_error_repeat by lia. apply nth_error_repeat. lia.
  - intros C. apply add_hit_outside. apply contains_false. exact C.
Qed.

Lemma init_blank_witness :
  well_formed (init 3 2) /\ hit_total (init 3 2) = 0 /\
  (contains (init 3 2) 2 1 = true ->
   pixel_at (init 3 2) (Z.to_nat 2) (Z.to_nat 1) = Some (Pixel.mk 0 0 0 0)) /\
  (contains (init 3 2) 2 1 = false ->
   add_hit (init 3 2) 2 1 (255, 255, 255) = (init 3 2, Ok tt)).
Proof. apply (init_blank 3 2 2 1); lia. Defined.

End NewImage.

(** ** main.py: from the settings to the saved image *)

Section Saved.

Import FractalImage.

(** What [to_image] writes for an image within a bound below 2^31 are
    colours within that bound. *)
Lemma to_image_within (bound : Z) (self : t) :
  bound < 2 ^ 31 -> image_ok bound self ->
  exists raster,
    to_image self = Ok raster /\
    len raster = width self * height self /\
    Forall (fun '(_, _, color) => color_within bound color) raster.
Proof.
  intros Hb Hok. pose proof Hok as [Hwf Hpx].
  destruct (to_image_cells self Hwf (image_ok_storable bound self Hb Hok))
    as (raster & E & L & N).
  exists raster. split; [exact E|]. split; [exact L|].
  pose proof Hwf as (Hw & Hh & _).
  apply Forall_forall. intros e Hin.
  apply In_nth_error in Hin as [n Hn].
  assert (Hlt : (n < length raster)%nat)
    by (apply nth_error_Some; congruence).
  unfold len in L.
  assert (Hwpos : 0 < width self) by nia.
  pose proof (Z.div_mod (Z.of_nat n) (width self) ltac:(lia)) as Hdm.
  pose proof (Z.mod_pos_bound (Z.of_nat n) (width self) Hwpos) as Hmod.
  assert (Hy : 0 <= Z.of_nat n / width self < height self).
  { split; [apply Z.div_pos; lia|].
    apply Z.div_lt_upper_bound; [lia|]. lia. }
  pose proof (N (Z.of_nat n mod width self) (Z.of_nat n / width self)
                Hmod Hy) as Q.
  destruct (getitem_pixel self (Z.of_nat n mod width self)
              (Z.of_nat n / width self) Hwf Hmod Hy) as (row' & pixel & P & _).
  unfold assigned_at in Q. rewrite P in Q. cbn [nth_error] in Q.
  replace (Z.to_nat (Z.of_nat n / width self * width self
                     + Z.of_nat n mod width self)) with n in Q by lia.
  rewrite Q in Hn. injection Hn as <-.
  unfold pixel_at in P.
  destruct (nth_error (data self) _) as [row|] eqn:R; [|discriminate].
  pose proof (Forall_nth_error _ _ _ _ Hpx R) as Hrow.
  pose proof (Forall_nth_error _ _ _ _ Hrow P) as (Pr & Pg & Pb & _).
  cbn. tauto.
Qed.

End Saved.

(** X14: the sequential branch of [main] on checked settings.  Whatever
    the generator draws (floats in [0, 1)), the image [generate_fractal]
    leaves can be saved: [to_image] raises nothing, writes
    [width * height] pixels, each channel an integer from 0 to 254; and
    the image has counted at most [samples * iter_per_sample] hits. *)
Theorem main_sequential_saves
    (libm_sin libm_cos : F64.float -> F64.float) (rng : Type)
    (next_random : rng -> F64.float * rng) (next_below : Z -> rng -> Z * rng)
    (int_of_string : String.string -> result Z)
    (strip lower : String.string -> String.string)
    (lines rest : list String.string) (settings : Settings.t) (g : rng) :
  (forall g, F64.valid (fst (next_random g)) = true) ->
  (forall g, F64.in_unit_interval (fst (next_random g)) = true) ->
  user_input libm_sin libm_cos int_of_string strip lower lines
  = Returned settings rest ->
  let run :=
    main_sequential libm_sin libm_cos rng next_random next_below
      (Settings.width settings) (Settings.height settings)
      (Settings.samples settings) (Settings.iter_per_sample settings)
      (Settings.transformations settings) g in
  exists raster,
    save_image (image (fst run)) = Ok raster /\
    len raster = Settings.width settings * Settings.height settings /\
    Forall (fun '(_, _, color) => color_within 254 color) raster /\
    0 <= hit_total (image (fst run))
      <= Settings.samples settings * Settings.iter_per_sample settings.
Proof.
  intros Hv Hu Hin run.
  destruct (user_input_sizes _ _ _ _ _ _ _ _ Hin)
    as (Hw & Hh & Hs & Hi & _).
  set (st := mkState (FractalImage.init (Settings.width settings)
                        (Settings.height settings)) g).
  assert (Hst : image_ok 254 (image st)) by (apply init_ok; lia).
  destruct (adds_generate_fractal libm_sin libm_cos rng next_random next_below
              Hv Hu main_world (Settings.transformations settings)
              (Settings.samples settings) (Settings.iter_per_sample settings)
              main_symmetry st Hst) as [(O & W & H & B) _].
  fold run in O, W, H, B. subst run. unfold main_sequential. fold st.
  destruct (to_image_within 254 _ eq_refl O) as (raster & E & L & F).
  exists raster. split; [exact E|]. split; [|split; [exact F|]].
  - rewrite L. unfold main_sequential in W, H. fold st in W, H.
    rewrite W, H. reflexivity.
  - assert (T0 : hit_total (image st) = 0) by apply init_hits.
    unfold main_sequential in B. fold st in B. rewrite T0 in B.
    change (Z.max 0 main_symmetry) with 1 in B.
    replace (Z.max 0 (Settings.samples settings))
      with (Settings.samples settings) in B by lia.
    replace (Z.max 0 (Settings.iter_per_sample settings))
      with (Settings.iter_per_sample settings) in B by lia.
    rewrite Z.mul_1_r in B. lia.
Qed.

Section SavedExample.

Import String.

Lemma main_sequential_saves_witness :
  let next_random := fun g : nat => (f_below_one, S g) in
  let next_below := fun (n : Z) (g : nat) => (Z.of_nat g mod n, S g) in
  let run :=
    main_sequential (fun x => x) (fun _ => f_one) nat next_random next_below
      3 2 4 5 [linear; spherical] O in
  exists raster,
    save_image (image (fst run)) = Ok raster /\
    len raster = 3 * 2 /\
    Forall (fun '(_, _, color) => color_within 254 color) raster /\
    0 <= hit_total (image (fst run)) <= 4 * 5.
Proof.
  intros next_random next_below.
  apply (main_sequential_saves (fun x => x) (fun _ => f_one) nat next_random
           next_below decimal (fun s => s) (fun s => s)
           ["3"; "2"; "4"; "5"; "3,0"; "n"]%string []
           (Settings.mk 3 2 4 5 [linear; spherical] false 1) O).
  - intros g. reflexivity.
  - intros g. reflexivity.
  - reflexivity.
Defined.

End SavedExample.

(** X17: the parallel branch of [main] on checked settings, with threads
    that can be suspended between any two accesses to the image and to the
    generator, in every state that any interleaving of them reaches: the
    shared image can be saved, [to_image] raises nothing and writes
    [width * height] pixels with channels from 0 to 254, and the image has
    counted at most [samples * iter_per_sample] hits. *)
Theorem main_parallel_saves
    (libm_sin libm_cos : F64.float -> F64.float) (rng : Type)
    (next_random : rng -> F64.float * rng)
    (int_of_string : String.string -> result Z)
    (strip lower : String.string -> String.string)
    (lines rest : list String.string) (settings : Settings.t) (g : rng)
    (p : Threads.pool rng) :
  (forall g, F64.valid (fst (next_random g)) = true) ->
  (forall g, F64.in_unit_interval (fst (next_random g)) = true) ->
  user_input libm_sin libm_cos int_of_string strip lower lines
  = Returned settings rest ->
  Threads.steps libm_sin libm_cos rng next_random main_world
    (Settings.transformations settings) (Settings.iter_per_sample settings)
    main_symmetry
    (main_threads (Settings.width settings) (Settings.height settings)
       (Settings.samples settings) (Settings.num_threads settings) g) p ->
  exists raster,
    save_image (image (Threads.shared p)) = Ok raster /\
    len raster = Settings.width settings * Settings.height settings /\
    Forall (fun '(_, _, color) => color_within 254 color) raster /\
    0 <= hit_total (image (Threads.shared p))
      <= Settings.samples settings * Settings.iter_per_sample settings.
Proof.
  intros Hv Hu Hin Hreach.
  destruct (user_input_sizes _ _ _ _ _ _ _ _ Hin)
    as (Hw & Hh & Hs & Hi & Hn).
  unfold main_threads in Hreach.
  set (st := mkState (FractalImage.init (Settings.width settings)
                        (Settings.height settings)) g) in *.
  assert (Hst : image_ok 254 (image st)) by (apply init_ok; lia).
  destruct (threads_grows libm_sin libm_cos rng next_random
              main_world (Settings.transformations settings)
              (Settings.samples settings) (Settings.iter_per_sample settings)
              main_symmetry (Settings.num_threads settings) st p
              Hv Hu ltac:(lia) Hn Hst Hreach) as (O & W & H & B).
  destruct (to_image_within 254 _ eq_refl O) as (raster & E & L & F).
  exists raster. split; [exact E|]. split; [|split; [exact F|]].
  - rewrite L, W, H. reflexivity.
  - assert (T0 : hit_total (image st) = 0) by apply init_hits.
    rewrite T0 in B. change (Z.max 0 main_symmetry) with 1 in B.
    replace (Z.max 0 (Settings.iter_per_sample settings))
      with (Settings.iter_per_sample settings) in B by lia.
    rewrite Z.mul_1_r in B. lia.
Qed.

Section ThreadsExample.

Import String.

Lemma main_parallel_saves_witness :
  let next_random :=
    fun g : nat => (S754_finite false 4503599627370496 (-53), S g) in
  let next_below := fun (_ : Z) (g : nat) => (0, S g) in
  let schedule :=
    [Drive; Drive] ++ List.concat (repeat [Work 0; Work 1] 10) ++ [Work 0] in
  let start := main_threads 2 2 2 2 O in
  let p :=
    match Threads.run (fun x => x) (fun _ => f_one) nat next_random next_below
            main_world [linear] 1 main_symmetry schedule start with
    | Some q => q
    | None => start
    end in
  hit_total (image (Threads.shared p)) = 1 /\
  exists raster,
    save_image (image (Threads.shared p)) = Ok raster /\
    len raster = 2 * 2 /\
    Forall (fun '(_, _, color) => color_within 254 color) raster /\
    0 <= hit_total (image (Threads.shared p)) <= 2 * 1.
Proof.
  intros next_random next_below schedule start p.
  split; [vm_compute; reflexivity|].
  apply (main_parallel_saves (fun x => x) (fun _ => f_one) nat next_random
           decimal (fun s => s) (fun s => s)
           ["2"; "2"; "2"; "1"; "3"; "y"; "2"]%string []
           (Settings.mk 2 2 2 1 [linear] true 2) O p).
  - intros g. reflexivity.
  - intros g. reflexivity.
  - reflexivity.
  - apply (threads_run_steps (fun x => x) (fun _ => f_one) nat next_random
             next_below main_world [linear] 1 main_symmetry schedule).
    vm_compute. reflexivity.
Defined.

End ThreadsExample.

(** ** fractal_image.py: hits on different pixels *)

Section HitsCommute.

Import FractalImage.

Lemma store_store {A : Type} (l : list A) (k : nat) (a b : A) :
  store (store l k a) k b = store l k b.
Proof.
  revert k. induction l as [|x l IH]; intros [|k]; cbn; try reflexivity.
  f_equal. apply IH.
Qed.

Lemma store_swap {A : Type} (l : list A) (j k : nat) (a b : A) :
  j <> k -> store (store l j a) k b = store (store l k b) j a.
Proof.
  revert j k. induction l as [|x l IH]; intros [|j] [|k] H; cbn;
    try reflexivity; try congruence.
  f_equal. apply IH. congruence.
Qed.

(** The image after a call inside the raster, from the pixel the call
    found. *)
Lemma add_hit_at (bound : Z) (self : t) (x y : Z) (color : Z * Z * Z) :
  bound < 2 ^ 53 -> image_ok bound self -> color_within bound color ->
  contains self x y = true ->
  exists row pixel pixel',
    nth_error (data self) (Z.to_nat y) = Some row /\
    nth_error row (Z.to_nat x) = Some pixel /\
    Pixel.mix_color pixel color 1 = (pixel', Ok tt) /\
    add_hit self x y color =
    (set_data (store (data self) (Z.to_nat y)
                 (store row (Z.to_nat x) pixel')) self, Ok tt).
Proof.
  intros Hb [Hwf Hpx] Hc C.
  destruct (add_hit_inside self x y color Hwf C) as (row & pixel & Nr & Np & E).
  assert (Prow : Forall (pixel_ok bound) row)
    by exact (Forall_nth_error _ _ _ _ Hpx Nr).
  assert (Ppx : pixel_ok bound pixel)
    by exact (Forall_nth_error _ _ _ _ Prow Np).
  destruct (mix_color_within bound pixel color Hb Ppx Hc) as (p' & M & _).
  rewrite M in E. exists row, pixel, p'. repeat split; assumption.
Qed.

(** X15: two hits on different pixels can be registered in either order:
    the image is the same. *)
Theorem add_hit_commutes (bound : Z) (self : t) (x1 y1 x2 y2 : Z)
    (color1 color2 : Z * Z * Z) :
  bound < 2 ^ 53 -> image_ok bound self ->
  color_within bound color1 -> color_within bound color2 ->
  (x1, y1) <> (x2, y2) ->
  add_hits self [(x1, y1, color1); (x2, y2, color2)]
  = add_hits self [(x2, y2, color2); (x1, y1, color1)].
Proof.
  intros Hb Hok H1 H2 Hne. cbn [add_hits].
  destruct (add_hit_ok bound self x1 y1 color1 Hb Hok H1)
    as (s1 & E1 & Ok1 & W1 & Hh1 & _).
  destruct (add_hit_ok bound self x2 y2 color2 Hb Hok H2)
    as (s2 & E2 & Ok2 & W2 & Hh2 & _).
  rewrite E1, E2.
  assert (C1 : contains s2 x1 y1 = contains self x1 y1)
    by (unfold contains; rewrite W2, Hh2; reflexivity).
  assert (C2 : contains s1 x2 y2 = contains self x2 y2)
    by (unfold contains; rewrite W1, Hh1; reflexivity).
  destruct (contains self x1 y1) eqn:In1.
  2:{ rewrite add_hit_outside in E1 by (apply contains_false; exact In1).
      injection E1 as <-. rewrite E2.
      rewrite add_hit_outside by (apply contains_false; exact C1).
      reflexivity. }
  destruct (contains self x2 y2) eqn:In2.
  2:{ rewrite add_hit_outside in E2 by (apply contains_false; exact In2).
      injection E2 as <-. rewrite E1.
      rewrite add_hit_outside by (apply contains_false; exact C2).
      reflexivity. }
  destruct (add_hit_at bound self x1 y1 color1 Hb Hok H1 In1)
    as (r1 & p1 & q1 & Nr1 & Np1 & M1 & A1).
  destruct (add_hit_at bound self x2 y2 color2 Hb Hok H2 In2)
    as (r2 & p2 & q2 & Nr2 & Np2 & M2 & A2).
  rewrite E1 in A1. injection A1 as ->. rewrite E2 in A2. injection A2 as ->.
  destruct (add_hit_at bound _ x2 y2 color2 Hb Ok1 H2 C2)
    as (r2' & p2' & q2' & Nr2' & Np2' & M2' & A2').
  destruct (add_hit_at bound _ x1 y1 color1 Hb Ok2 H1 C1)
    as (r1' & p1' & q1' & Nr1' & Np1' & M1' & A1').
  rewrite A2', A1'. f_equal. unfold set_data. cbn [width height data].
  f_equal. cbn [data set_data] in Nr2', Nr1'.
  apply contains_true in In1, In2.
  assert (L1 : (Z.to_nat y1 < length (data self))%nat)
    by (apply nth_error_Some; congruence).
  assert (L2 : (Z.to_nat y2 < length (data self))%nat)
    by (apply nth_error_Some; congruence).
  destruct (Z.eq_dec y1 y2) as [Ey|Ny].
  - subst y2. assert (Nx : Z.to_nat x1 <> Z.to_nat x2).
    { intros Hx. apply Hne. f_equal. lia. }
    rewrite Nr1 in Nr2. injection Nr2 as <-.
    rewrite nth_error_store_same in Nr2', Nr1' by assumption.
    injection Nr2' as <-. injection Nr1' as <-.
    rewrite nth_error_store_other in Np2', Np1' by congruence.
    rewrite Np2 in Np2'. injection Np2' as <-.
    rewrite Np1 in Np1'. injection Np1' as <-.
    rewrite M2 in M2'. injection M2' as <-.
    rewrite M1 in M1'. injection M1' as <-.
    rewrite !store_store. f_equal. apply store_swap. exact Nx.
  - assert (Nyn : Z.to_nat y1 <> Z.to_nat y2) by lia.
    rewrite nth_error_store_other in Nr2', Nr1' by congruence.
    rewrite Nr2 in Nr2'. injection Nr2' as <-.
    rewrite Nr1 in Nr1'. injection Nr1' as <-.
    rewrite Np2 in Np2'. injection Np2' as <-.
    rewrite Np1 in Np1'. injection Np1' as <-.
    rewrite M2 in M2'. injection M2' as <-.
    rewrite M1 in M1'. injection M1' as <-.
    apply store_swap. exact Nyn.
Qed.

Lemma add_hit_commutes_witness :
  add_hits (init 2 2) [(0, 0, (10, 20, 30)); (1, 0, (1, 2, 3))]
  = add_hits (init 2 2) [(1, 0, (1, 2, 3)); (0, 0, (10, 20, 30))].
Proof.
  apply (add_hit_commutes 255 (init 2 2) 0 0 1 0 (10, 20, 30) (1, 2, 3)).
  - reflexivity.
  - split; [apply init_well_formed; lia|].
    repeat constructor; cbn; lia.
  - cbn. lia.
  - cbn. lia.
  - discriminate.
Defined.

End HitsCommute.

(** ** main.py: the driver refuses a number of threads below 1 *)

(** X18: with [num_threads] zero the driver raises [ZeroDivisionError]
    (from [samples // num_threads]) and with a negative one [ValueError]
    (from the executor); in both cases nothing was submitted, no worker
    ever runs and the image is as it was. *)
Theorem parallel_generate_fractal_refused
    (libm_sin libm_cos : F64.float -> F64.float) (rng : Type)
    (next_random : rng -> F64.float * rng) (next_below : Z -> rng -> Z * rng)
    (world : Rect.t) (transformations : list (Point.t -> result Point.t))
    (samples iter_per_sample symmetry num_threads : Z) (s : state rng) :
  num_threads <= 0 ->
  let start := parallel_generate_fractal rng samples num_threads s in
  pc start = Done (Raise (if num_threads =? 0 then ZeroDivisionError
                          else ValueError)) /\
  shared start = s /\ futures start = [] /\
  forall p, ~ step libm_sin libm_cos rng next_random next_below world
                transformations iter_per_sample symmetry start p.
Proof.
  intros Hn start.
  assert (Hstart : pc start = Done (Raise (if num_threads =? 0
                                           then ZeroDivisionError
                                           else ValueError)) /\
                   shared start = s /\ futures start = []).
  { subst start. unfold parallel_generate_fractal.
    destruct (Z.eqb_spec num_threads 0); [repeat split|].
    destruct (Z.ltb_spec num_threads 0); [repeat split|lia]. }
  destruct Hstart as (Hpc & Hs & Hf). repeat split; try assumption.
  intros p Hstep. remember start as q eqn:Hq. clear Hq.
  destruct Hstep as [q i f Hi Hrun|q k Hpc'|q Hpc'|q i f Hpc' Hi Hst
                    |q i f e Hpc' Hi Hst|q i Hpc' Hi|q o Hpc' Hnone];
    try congruence.
  rewrite Hf in Hi. destruct i; discriminate.
Qed.

Lemma parallel_generate_fractal_refused_witness :
  let s := mkState (FractalImage.init 2 2) O in
  let start := parallel_generate_fractal nat 10 (-2) s in
  pc start = Done (Raise ValueError) /\
  shared start = s /\ futures start = [] /\
  forall p, ~ step (fun x => x) (fun _ => f_one) nat
                (fun g => (f_below_one, S g)) (fun _ g => (0, S g))
                main_world [linear] 2 1 start p.
Proof.
  intros s start.
  apply (parallel_generate_fractal_refused (fun x => x) (fun _ => f_one) nat
           (fun g => (f_below_one, S g)) (fun _ g => (0, S g)) main_world
           [linear] 10 2 1 (-2) s).
  lia.
Defined.

(** ** main.py: a world rectangle without extent *)

(** X19: on a world rectangle of width zero, with float coordinates for
    the point and the corner as [main] has them, [map_to_pixel] raises
    [ZeroDivisionError], whatever the point and the image. *)
Theorem map_to_pixel_zero_width (rect : Rect.t) (point : Point.t)
    (image : FractalImage.t) (fx ox : F64.float) :
  Point.x point = Num.Float fx -> Rect.x rect = Num.Float ox ->
  Num.is_zero (Rect.width rect) = true ->
  map_to_pixel rect point image = Raise ZeroDivisionError.
Proof.
  intros Hp Ho Hz. unfold map_to_pixel, pixel_index. rewrite Hp, Ho.
  cbn [Num.sub Num.arith Num.to_float bind].
  destruct (Rect.width rect) as [z|w]; cbn [Num.is_zero] in Hz.
  - apply Z.eqb_eq in Hz. subst z. reflexivity.
  - unfold Num.truediv. cbn [Num.to_float bind]. rewrite Hz. reflexivity.
Qed.

Lemma map_to_pixel_zero_width_witness :
  map_to_pixel
    (Rect.mk (Num.Float f_minus_1_5) (Num.Float f_minus_1_5) (Num.Int 0)
       (Num.Int 3))
    (Point.mk (Num.Float f_one) (Num.Float f_zero)) (FractalImage.init 4 4)
  = Raise ZeroDivisionError.
Proof.
  apply (map_to_pixel_zero_width _ _ _ f_one f_minus_1_5); reflexivity.
Defined.

(** ** main.py: [diamond] *)

(** X20: [diamond] never raises, and applying it to its result changes
    nothing. *)
Theorem diamond_idempotent (point : Point.t) :
  exists q, diamond point = Ok q /\ diamond q = Ok q.
Proof.
  exists (Point.mk (Num.abs (Point.x point)) (Num.abs (Point.y point))).
  split; [reflexivity|]. unfold diamond. cbn [Point.x Point.y].
  assert (A : forall a, Num.abs (Num.abs a) = Num.abs a).
  { intros [z|f]; cbn [Num.abs]; [f_equal; lia|].
    destruct f; reflexivity. }
  now rewrite !A.
Qed.

(** ** main.py: [spherical] *)

Lemma to_float_raises (a : Num.t) (e : exn) :
  Num.to_float a = Raise e -> e = OverflowError.
Proof.
  destruct a as [z|f]; cbn [Num.to_float]; [|discriminate].
  unfold F64.of_int. destruct (F64.is_inf _); [|discriminate].
  intros H. now injection H as <-.
Qed.

Lemma square_raises (a : Num.t) (e : exn) :
  Num.square a = Raise e -> e = OverflowError.
Proof.
  destruct a as [z|f]; cbn [Num.square]; [discriminate|].
  unfold F64.square. destruct (_ && _); cbn [bind]; [|discriminate].
  intros H. now injection H as <-.
Qed.

Lemma add_raises (a b : Num.t) (e : exn) :
  Num.add a b = Raise e -> e = OverflowError.
Proof.
  unfold Num.add, Num.arith.
  destruct a as [x|fa], b as [y|fb]; try discriminate.
  - destruct (Num.to_float (Num.Int x)) as [f|e'] eqn:E; cbn [bind];
      [discriminate|].
    intros H. injection H as <-. exact (to_float_raises _ _ E).
  - cbn [Num.to_float bind].
    destruct (F64.of_int y) as [f|e'] eqn:E; cbn [bind]; [discriminate|].
    intros H. injection H as <-. exact (to_float_raises (Num.Int y) _ E).
Qed.

(** A division by a number that is not zero, where an int divisor comes
    with an int dividend, raises nothing but [OverflowError]. *)
Lemma truediv_raises (a b : Num.t) (e : exn) :
  (forall z, b = Num.Int z -> exists y, a = Num.Int y) ->
  Num.is_zero b = false ->
  Num.truediv a b = Raise e -> e = OverflowError.
Proof.
  intros Hshape Hz. unfold Num.truediv.
  destruct a as [x|fa], b as [y|fb]; cbn [Num.is_zero] in Hz.
  - unfold F64.int_truediv. rewrite Hz.
    destruct (F64.is_inf _); cbn [bind]; [|discriminate].
    intros H. now injection H as <-.
  - destruct (Num.to_float (Num.Int x)) as [f|e'] eqn:E; cbn [bind].
    + cbn [Num.to_float bind]. rewrite Hz. discriminate.
    + intros H. injection H as <-. exact (to_float_raises _ _ E).
  - destruct (Hshape y eq_refl) as [z H]. discriminate H.
  - cbn [Num.to_float bind]. rewrite Hz. discriminate.
Qed.

(** X21: the only exception [spherical] can raise is [OverflowError], from
    [** 2], from the conversion of an int next to a float, or from the
    quotient of two ints; it never raises [ZeroDivisionError]: the test
    [r2 == 0] keeps every zero away from the two divisions. *)
Theorem spherical_raises_overflow_only (point : Point.t) (e : exn) :
  spherical point = Raise e -> e = OverflowError.
Proof.
  unfold spherical.
  destruct (Num.square (Point.x point)) as [x2|e1] eqn:E1; cbn [bind].
  2:{ intros H. injection H as <-. exact (square_raises _ _ E1). }
  destruct (Num.square (Point.y point)) as [y2|e2] eqn:E2; cbn [bind].
  2:{ intros H. injection H as <-. exact (square_raises _ _ E2). }
  destruct (Num.add x2 y2) as [r2|e3] eqn:E3; cbn [bind].
  2:{ intros H. injection H as <-. exact (add_raises _ _ _ E3). }
  destruct (Num.is_zero r2) eqn:Z; [discriminate|].
  assert (Shape : forall z, r2 = Num.Int z ->
            (exists x, Point.x point = Num.Int x) /\
            (exists y, Point.y point = Num.Int y)).
  { intros z ->. unfold Num.add, Num.arith in E3.
    destruct x2 as [a|fa], y2 as [b|fb]; cbn [Num.to_float bind] in E3;
      try (destruct (F64.of_int _); cbn [bind] in E3; discriminate);
      try discriminate.
    destruct (Point.x point) as [x|fx]; cbn in E1;
      [|destruct (F64.square fx); discriminate].
    destruct (Point.y point) as [y|fy]; cbn in E2;
      [|destruct (F64.square fy); discriminate].
    split; eexists; reflexivity. }
  destruct (Num.truediv (Point.x point) r2) as [x'|ex] eqn:Tx; cbn [bind].
  2:{ intros H. injection H as <-.
      apply (truediv_raises _ _ _ (fun z Hr => proj1 (Shape z Hr)) Z Tx). }
  destruct (Num.truediv (Point.y point) r2) as [y'|ey] eqn:Ty; cbn [bind];
    [discriminate|].
  intros H. injection H as <-.
  apply (truediv_raises _ _ _ (fun z Hr => proj2 (Shape z Hr)) Z Ty).
Qed.

Lemma spherical_raises_overflow_only_witness :
  exists e,
    spherical (Point.mk (Num.Float f_1e200) (Num.Float f_zero)) = Raise e /\
    e = OverflowError.
Proof.
  exists OverflowError. split; [vm_compute; reflexivity|].
  apply (spherical_raises_overflow_only
           (Point.mk (Num.Float f_1e200) (Num.Float f_zero)) OverflowError).
  vm_compute. reflexivity.
Defined.

(** ** main.py: the orbit and the loop over the samples *)

Section Orbit.

Variables libm_sin libm_cos : F64.float -> F64.float.
Variable rng : Type.
Variable next_random : rng -> F64.float * rng.
Variable next_below : Z -> rng -> Z * rng.
Variable world : Rect.t.
Variable transformations : list (Point.t -> result Point.t).

(** X22: the point an iteration hands to the next one is the image of the
    current point under one of the transformations of the list; the
    rotational copies are plotted and never fed back, whatever the
    symmetry. *)
Theorem iteration_returns_transformed (symmetry : Z) (point q : Point.t)
    (st : state rng) :
  snd (iteration libm_sin libm_cos rng next_random next_below world
         transformations symmetry point st) = Ok q ->
  exists transform, In transform transformations /\ transform point = Ok q.
Proof.
  unfold iteration. unfold mbind at 1.
  destruct (choice rng next_below transformations st) as [st1 [t|e]] eqn:C;
    [|discriminate].
  assert (Hin : In t transformations).
  { apply (choice_in rng next_below transformations st). now rewrite C. }
  unfold mbind at 1, pure at 1.
  destruct (t point) as [p|e] eqn:T; [|discriminate].
  unfold mbind at 1.
  destruct (range rng symmetry _ tt st1) as [st2 [[]|e]]; [|discriminate].
  unfold ret. cbn [snd]. intros H. injection H as <-.
  exists t. split; assumption.
Qed.

End Orbit.

Lemma iteration_returns_transformed_witness :
  exists transform, In transform [linear] /\
    transform (Point.mk (Num.Float f_one) (Num.Float f_zero))
    = Ok (Point.mk (Num.Float f_one) (Num.Float f_zero)).
Proof.
  apply (iteration_returns_transformed (fun x => x) (fun _ => f_one) nat
           (fun g => (f_below_one, S g)) (fun _ g => (0, S g)) main_world
           [linear] 1 (Point.mk (Num.Float f_one) (Num.Float f_zero)) _
           (mkState (FractalImage.init 2 2) O)).
  vm_compute. reflexivity.
Defined.

Section Split.

Variables libm_sin libm_cos : F64.float -> F64.float.
Variable rng : Type.
Variable next_random : rng -> F64.float * rng.
Variable next_below : Z -> rng -> Z * rng.

(** A loop whose body does not look at the index, cut in two. *)
Lemma for_range_app {A : Type} (body : A -> M rng A) (n m : nat) :
  forall i j a st,
  for_range rng (n + m) i (fun _ => body) a st
  = mbind rng (for_range rng n i (fun _ => body) a)
      (fun a' => for_range rng m j (fun _ => body) a') st.
Proof.
  assert (Shift : forall k i j a st,
            for_range rng k i (fun _ => body) a st
            = for_range rng k j (fun _ => body) a st).
  { induction k as [|k IH]; intros i j a st; cbn [for_range];
      [reflexivity|].
    unfold mbind. destruct (body a st) as [st1 [a1|e]]; [|reflexivity].
    apply IH. }
  induction n as [|n IH]; intros i j a st; cbn [for_range Nat.add].
  - unfold mbind, ret. apply Shift.
  - unfold mbind.
    destruct (body a st) as [st1 [a1|e]]; [|reflexivity].
    rewrite (IH (i + 1) j a1 st1). reflexivity.
Qed.

(** X23: the samples can be split: [generate_fractal] with [a + b] samples
    is [generate_fractal] with [a] samples followed, when it returned, by
    [generate_fractal] with [b] samples on the image and the generator it
    left. *)
Theorem generate_fractal_split (world : Rect.t)
    (transformations : list (Point.t -> result Point.t))
    (a b iter_per_sample symmetry : Z) (st : state rng) :
  0 <= a -> 0 <= b ->
  generate_fractal libm_sin libm_cos rng next_random next_below world
    transformations (a + b) iter_per_sample symmetry st
  = match generate_fractal libm_sin libm_cos rng next_random next_below world
            transformations a iter_per_sample symmetry st with
    | (st', Ok _) =>
        generate_fractal libm_sin libm_cos rng next_random next_below world
          transformations b iter_per_sample symmetry st'
    | (st', Raise e) => (st', Raise e)
    end.
Proof.
  intros Ha Hb. unfold generate_fractal, range.
  rewrite Z2Nat.inj_add by assumption.
  rewrite (for_range_app (fun _ => sample libm_sin libm_cos rng next_random
                            next_below world transformations iter_per_sample
                            symmetry) _ _ 0 0 tt st).
  unfold mbind at 1.
  destruct (for_range rng (Z.to_nat a) 0 _ tt st) as [st1 [[]|e]];
    reflexivity.
Qed.

End Split.

Lemma generate_fractal_split_witness :
  let run n st :=
    generate_fractal (fun x => x) (fun _ => f_one) nat
      (fun g => (f_below_one, S g)) (fun _ g => (0, S g)) main_world
      [linear] n 2 1 st in
  let st := mkState (FractalImage.init 2 2) O in
  run (1 + 2) st
  = match run 1 st with
    | (st', Ok _) => run 2 st'
    | (st', Raise e) => (st', Raise e)
    end.
Proof.
  intros run st.
  apply (generate_fractal_split (fun x => x) (fun _ => f_one) nat
           (fun g => (f_below_one, S g)) (fun _ g => (0, S g)) main_world
           [linear] 1 2 2 1 st); lia.
Defined.
